(** * The parent side of a cross-window component: props pipeline and lifecycle

    A shallow embedding of [src/component/parent/index.js] (class
    [ParentComponent]): the props pipeline ([normalizeProp], [normalizeProps],
    [propsToQuery], [buildUrl], [updateProps]), the choice of a render context
    ([getRenderContext], [validateRender], [render]) and the lifecycle
    ([runTimeout], [close], [error], [destroy]) over an explicit state. *)

From Stdlib Require Import String Ascii List ZArith NArith Bool Lia.
From Stdlib Require Import Decimal DecimalString DecimalN.
Import ListNotations.
Local Open Scope list_scope.
Local Open Scope string_scope.

Set Implicit Arguments.
#[local] Set Warnings "-register-all".

(** ** JavaScript values *)

(** Functions are opaque, except for the wrappers the props pipeline applies to
    them: [noop], [denodeify], [once], [memoize] (imported from [../../lib]) and
    [Function.prototype.bind], which records the instance it binds to. *)
Inductive func : Type :=
| FUser (name : string)
| FNoop
| FDenodeify (f : func)
| FOnce (f : func)
| FMemoize (f : func)
| FBound (f : func) (self : nat).

(** Numbers are the integers and NaN: the range of [parseInt]. The code
    computes on doubles, which hold every integer of magnitude below 2^53 and
    compute exactly on them; fractions and the infinities have no value here,
    and the statements that read, write or halve a number bound it. *)
Inductive number : Type :=
| NaN
| Num (z : Z).

(** An array holds its items in order; an object holds its own properties in
    insertion order, as [Object.keys] and [JSON.stringify] enumerate them. *)
Inductive value : Type :=
| VUndefined
| VNull
| VBool (b : bool)
| VNum (n : number)
| VStr (s : string)
| VFun (f : func)
| VArr (items : list value)
| VObj (fields : list (string * value)).

(** What [throw new Error(...)] and a failed property access raise. *)
Inductive js_error : Type :=
| Error (msg : string)
| TypeError (msg : string).

Inductive res (A : Type) : Type :=
| Ok (a : A)
| Throw (e : js_error).
Arguments Ok {A} a.
Arguments Throw {A} e.

Definition bind {A B : Type} (r : res A) (k : A -> res B) : res B :=
  match r with
  | Ok a => k a
  | Throw e => Throw e
  end.

Notation "x <- r ;; k" := (bind r (fun x => k))
  (at level 61, r at next level, right associativity).

(** [!value] is false exactly on the truthy values. *)
Definition truthy (v : value) : bool :=
  match v with
  | VUndefined | VNull => false
  | VBool b => b
  | VNum NaN => false
  | VNum (Num z) => negb (Z.eqb z 0)
  | VStr s => negb (String.eqb s "")
  | VFun _ | VArr _ | VObj _ => true
  end.

(** [typeof value]. *)
Definition typeof (v : value) : string :=
  match v with
  | VUndefined => "undefined"
  | VNull | VArr _ | VObj _ => "object"
  | VBool _ => "boolean"
  | VNum _ => "number"
  | VStr _ => "string"
  | VFun _ => "function"
  end.

(** ** Objects as ordered maps *)

Definition obj (A : Type) : Type := list (string * A).

Fixpoint obj_get {A : Type} (o : obj A) (k : string) : option A :=
  match o with
  | [] => None
  | (k', v) :: o' => if String.eqb k' k then Some v else obj_get o' k
  end.

(** [o.hasOwnProperty(k)]. *)
Definition hasOwnProperty {A : Type} (o : obj A) (k : string) : bool :=
  match obj_get o k with
  | Some _ => true
  | None => false
  end.

(** [o[k] = v]: an existing key keeps its place, a new key goes last. *)
Fixpoint obj_set {A : Type} (o : obj A) (k : string) (v : A) : obj A :=
  match o with
  | [] => [(k, v)]
  | (k', v') :: o' =>
      if String.eqb k' k then (k, v) :: o' else (k', v') :: obj_set o' k v
  end.

(** [Object.keys(o)]. *)
Definition keys {A : Type} (o : obj A) : list string := map fst o.

(** [o[k]] at a key that the object holds or that no object inherits (the
    props the class reads by name): a missing key reads as [undefined]. *)
Definition get (o : obj value) (k : string) : value :=
  match obj_get o k with
  | Some v => v
  | None => VUndefined
  end.

(** The methods a plain object inherits from [Object.prototype]. *)
Definition prototype_methods : list string :=
  ["constructor"; "hasOwnProperty"; "isPrototypeOf"; "propertyIsEnumerable";
   "toLocaleString"; "toString"; "valueOf"; "__defineGetter__"; "__defineSetter__";
   "__lookupGetter__"; "__lookupSetter__"].

(** What a plain object reads at a key it does not hold: an inherited method,
    the prototype itself (an object without enumerable properties) at
    [__proto__], and [undefined] at every other key. *)
Definition inherited (k : string) : value :=
  if existsb (String.eqb k) prototype_methods
  then VFun (FUser ("Object.prototype." ++ k))
  else if String.eqb k "__proto__" then VObj []
  else VUndefined.

(** [o[k]] on a plain object, at any key: its own property, or what it
    inherits. *)
Definition read (o : obj value) (k : string) : value :=
  match obj_get o k with
  | Some v => v
  | None => inherited k
  end.

(** [Array.prototype.join] on strings. *)
Fixpoint join (sep : string) (l : list string) : string :=
  match l with
  | [] => ""
  | [s] => s
  | s :: l' => s ++ sep ++ join sep l'
  end.

(** ** Decimal text of integers *)

Definition string_of_N (n : N) : string := NilEmpty.string_of_uint (N.to_uint n).

(** [Number.prototype.toString] on an integer: all its digits, as a double
    is written below 10^21. *)
Definition string_of_Z (z : Z) : string :=
  match z with
  | Z0 => "0"
  | Zpos p => string_of_N (Npos p)
  | Zneg p => "-" ++ string_of_N (Npos p)
  end.

Definition string_of_number (n : number) : string :=
  match n with
  | NaN => "NaN"
  | Num z => string_of_Z z
  end.

(** The decimal digit a character stands for, as the constructor of [uint]. *)
Definition digit_of (c : ascii) : option (uint -> uint) :=
  match c with
  | "0"%char => Some D0
  | "1"%char => Some D1
  | "2"%char => Some D2
  | "3"%char => Some D3
  | "4"%char => Some D4
  | "5"%char => Some D5
  | "6"%char => Some D6
  | "7"%char => Some D7
  | "8"%char => Some D8
  | "9"%char => Some D9
  | _ => None
  end.

(** The longest prefix of decimal digits, and what follows it. *)
Fixpoint read_uint (s : string) : uint * string :=
  match s with
  | EmptyString => (Nil, s)
  | String c r =>
      match digit_of c with
      | Some d => let (u, rest) := read_uint r in (d u, rest)
      | None => (Nil, s)
      end
  end.

Definition is_space (c : ascii) : bool :=
  match nat_of_ascii c with
  | 9 | 10 | 11 | 12 | 13 | 32 => true
  | _ => false
  end.

Fixpoint skip_spaces (s : string) : string :=
  match s with
  | EmptyString => s
  | String c r => if is_space c then skip_spaces r else s
  end.

(** [parseInt(s, 10)] on a string: leading white space, an optional sign, the
    longest prefix of digits; NaN when there is no digit. The integer the
    digits write, which [parseInt] rounds to a double: the same number up to
    2^53. *)
Definition parseInt_string (s : string) : number :=
  let s1 := skip_spaces s in
  let '(neg, s2) :=
    match s1 with
    | String "-"%char r => (true, r)
    | String "+"%char r => (false, r)
    | _ => (false, s1)
    end in
  match read_uint s2 with
  | (Nil, _) => NaN
  | (u, _) =>
      let n := Z.of_N (N.of_uint u) in
      Num (if neg then (- n)%Z else n)
  end.

(** ** JSON text *)

(** The hexadecimal digit of a number below 16, in lower case. *)
Definition hex_digit (n : nat) : ascii :=
  match n with
  | 0 => "0" | 1 => "1" | 2 => "2" | 3 => "3" | 4 => "4" | 5 => "5" | 6 => "6"
  | 7 => "7" | 8 => "8" | 9 => "9" | 10 => "a" | 11 => "b" | 12 => "c"
  | 13 => "d" | 14 => "e" | _ => "f"
  end%char.

(** The number a hexadecimal digit stands for, in either case. *)
Definition hex_value (c : ascii) : option nat :=
  let n := nat_of_ascii c in
  if Nat.leb 48 n && Nat.leb n 57 then Some (n - 48)
  else if Nat.leb 97 n && Nat.leb n 102 then Some (n - 87)
  else if Nat.leb 65 n && Nat.leb n 70 then Some (n - 55)
  else None.

Definition dquote : ascii := ascii_of_nat 34.

(** How [JSON.stringify] writes one character of a string: the quote and the
    backslash are escaped, a control character is written by its short escape
    or as [\u00xx], every other character stands for itself. *)
Definition escape_char (c : ascii) : string :=
  let n := nat_of_ascii c in
  if Nat.eqb n 34 then String "\" (String dquote "")
  else if Nat.eqb n 92 then "\\"
  else if Nat.eqb n 8 then "\b"
  else if Nat.eqb n 12 then "\f"
  else if Nat.eqb n 10 then "\n"
  else if Nat.eqb n 13 then "\r"
  else if Nat.eqb n 9 then "\t"
  else if Nat.ltb n 32 then
    String "\" (String "u" (String "0" (String "0"
      (String (hex_digit (n / 16)) (String (hex_digit (n mod 16)) "")))))
  else String c "".

Fixpoint escape (s : string) : string :=
  match s with
  | EmptyString => ""
  | String c r => escape_char c ++ escape r
  end.

Definition quote (s : string) : string :=
  String dquote (escape s ++ String dquote "").

(** The text [JSON.stringify] writes for a value, [None] where it writes none
    (undefined and functions). In an array such an item is written [null]; in
    an object such a member is left out; NaN is written [null]. *)
Fixpoint json_text (v : value) : option string :=
  match v with
  | VUndefined | VFun _ => None
  | VNull => Some "null"
  | VBool b => Some (if b then "true" else "false")
  | VNum NaN => Some "null"
  | VNum (Num z) => Some (string_of_Z z)
  | VStr s => Some (quote s)
  | VArr items =>
      Some ("[" ++ join ","
              (map (fun x => match json_text x with
                             | Some t => t
                             | None => "null"
                             end) items) ++ "]")
  | VObj fields =>
      Some ("{" ++ join ","
              (flat_map (fun '(k, x) => match json_text x with
                                        | Some t => [quote k ++ ":" ++ t]
                                        | None => []
                                        end) fields) ++ "}")
  end.

Definition JSON_stringify (v : value) : option string := json_text v.

(** White space of the JSON grammar. *)
Definition is_ws (c : ascii) : bool :=
  match nat_of_ascii c with
  | 9 | 10 | 13 | 32 => true
  | _ => false
  end.

Fixpoint skip_ws (s : string) : string :=
  match s with
  | EmptyString => s
  | String c r => if is_ws c then skip_ws r else s
  end.

(** The characters of a string literal after its opening quote, up to the
    closing quote. A code unit above 255 has no character here. *)
Fixpoint read_string (s : string) : option (string * string) :=
  match s with
  | EmptyString => None
  | String c r =>
      let n := nat_of_ascii c in
      if Nat.eqb n 34 then Some ("", r)
      else if Nat.eqb n 92 then
        match r with
        | EmptyString => None
        | String e r1 =>
            let plain (c' : ascii) :=
              match read_string r1 with
              | Some (t, rest) => Some (String c' t, rest)
              | None => None
              end in
            match e with
            | "b"%char => plain (ascii_of_nat 8)
            | "f"%char => plain (ascii_of_nat 12)
            | "n"%char => plain (ascii_of_nat 10)
            | "r"%char => plain (ascii_of_nat 13)
            | "t"%char => plain (ascii_of_nat 9)
            | "/"%char => plain "/"%char
            | "\"%char => plain "\"%char
            | "u"%char =>
                match r1 with
                | String h1 (String h2 (String h3 (String h4 r2))) =>
                    match hex_value h1, hex_value h2, hex_value h3, hex_value h4 with
                    | Some 0, Some 0, Some a, Some b =>
                        match read_string r2 with
                        | Some (t, rest) => Some (String (ascii_of_nat (a * 16 + b)) t, rest)
                        | None => None
                        end
                    | _, _, _, _ => None
                    end
                | _ => None
                end
            | _ => if Nat.eqb (nat_of_ascii e) 34 then plain dquote else None
            end
        end
      else if Nat.ltb n 32 then None
      else
        match read_string r with
        | Some (t, rest) => Some (String c t, rest)
        | None => None
        end
  end.

(** A literal word of the grammar ([null], [true], [false]). *)
Fixpoint expect (w s : string) : option string :=
  match w, s with
  | EmptyString, _ => Some s
  | String a w', String b s' => if Ascii.eqb a b then expect w' s' else None
  | String _ _, EmptyString => None
  end.

(** An integer of the grammar: no leading zero, no sign on zero's digits alone
    being left out. Fractions and exponents have no value here and are left in
    the rest of the text, where the caller refuses them. *)
Definition read_json_uint (s : string) : option (N * string) :=
  match read_uint s with
  | (Nil, _) => None
  | (D0 Nil, rest) => Some (0%N, rest)
  | (D0 _, _) => None
  | (u, rest) => Some (N.of_uint u, rest)
  end.

(** The text after the character [c], when the text starts with it. *)
Definition peek (c : ascii) (s : string) : option string :=
  match s with
  | String c' r => if Ascii.eqb c' c then Some r else None
  | EmptyString => None
  end.
Arguments peek c%_char_scope s%_string_scope.

Fixpoint parse_value (fuel : nat) (s : string) : option (value * string) :=
  match fuel with
  | O => None
  | S fuel' =>
      match skip_ws s with
      | String "n" r =>
          match expect "ull" r with Some rest => Some (VNull, rest) | None => None end
      | String "t" r =>
          match expect "rue" r with Some rest => Some (VBool true, rest) | None => None end
      | String "f" r =>
          match expect "alse" r with Some rest => Some (VBool false, rest) | None => None end
      | String "[" r =>
          match peek "]" (skip_ws r) with
          | Some rest => Some (VArr [], rest)
          | None =>
              match parse_items fuel' r with
              | Some (items, rest) => Some (VArr items, rest)
              | None => None
              end
          end
      | String "{" r =>
          match peek "}" (skip_ws r) with
          | Some rest => Some (VObj [], rest)
          | None =>
              match parse_members fuel' r with
              | Some (fields, rest) =>
                  Some (VObj (fold_left (fun o kv => obj_set o (fst kv) (snd kv)) fields []), rest)
              | None => None
              end
          end
      | String "-" r =>
          match read_json_uint r with
          | Some (n, rest) => Some (VNum (Num (- Z.of_N n)), rest)
          | None => None
          end
      | String c r =>
          if Nat.eqb (nat_of_ascii c) 34 then
            match read_string r with
            | Some (t, rest) => Some (VStr t, rest)
            | None => None
            end
          else
            match read_json_uint (String c r) with
            | Some (n, rest) => Some (VNum (Num (Z.of_N n)), rest)
            | None => None
            end
      | EmptyString => None
      end%char
  end
with parse_items (fuel : nat) (s : string) : option (list value * string) :=
  match fuel with
  | O => None
  | S fuel' =>
      match parse_value fuel' s with
      | Some (v, r1) =>
          match peek "," (skip_ws r1) with
          | Some r2 =>
              match parse_items fuel' r2 with
              | Some (vs, rest) => Some (v :: vs, rest)
              | None => None
              end
          | None =>
              match peek "]" (skip_ws r1) with
              | Some rest => Some ([v], rest)
              | None => None
              end
          end
      | None => None
      end
  end
with parse_members (fuel : nat) (s : string) : option (list (string * value) * string) :=
  match fuel with
  | O => None
  | S fuel' =>
      match peek dquote (skip_ws s) with
      | Some r0 =>
          match read_string r0 with
          | Some (k, r1) =>
              match peek ":" (skip_ws r1) with
              | Some r2 =>
                  match parse_value fuel' r2 with
                  | Some (v, r3) =>
                      match peek "," (skip_ws r3) with
                      | Some r4 =>
                          match parse_members fuel' r4 with
                          | Some (kvs, rest) => Some ((k, v) :: kvs, rest)
                          | None => None
                          end
                      | None =>
                          match peek "}" (skip_ws r3) with
                          | Some rest => Some ([(k, v)], rest)
                          | None => None
                          end
                      end
                  | None => None
                  end
              | None => None
              end
          | None => None
          end
      | None => None
      end
  end.

(** [JSON.parse]: one value, then nothing but white space. *)
Definition JSON_parse (s : string) : option value :=
  match parse_value (String.length s) s with
  | Some (v, rest) =>
      match skip_ws rest with
      | EmptyString => Some v
      | _ => None
      end
  | None => None
  end.

Fixpoint nodupb (l : list string) : bool :=
  match l with
  | [] => true
  | x :: l' => negb (existsb (String.eqb x) l') && nodupb l'
  end.

(** The values JSON can carry: no [undefined], no function and no NaN at any
    depth, and (as in every object) no key twice. *)
Fixpoint json_data (v : value) : bool :=
  match v with
  | VUndefined | VFun _ | VNum NaN => false
  | VNull | VBool _ | VNum (Num _) | VStr _ => true
  | VArr items => forallb json_data items
  | VObj fields =>
      forallb (fun kv : string * value => let (_, x) := kv in json_data x) fields
      && nodupb (map fst fields)
  end.

(** ** The component definition *)

Inductive context : Type :=
| Iframe
| Lightbox
| Popup.

(** One entry of [component.props]: the declared type, the default ([undefined]
    when none is declared) and the behaviour flags, read for their truthiness. *)
Record propDef : Type := {
  ptype : string;
  def : value;
  noop : bool;
  denodeify : bool;
  once : bool;
  memoize : bool
}.

(** The component definition, read-only here. [c_ref] is the identity of the
    definition object, which [===] compares. *)
Record component : Type := {
  c_ref : nat;
  c_tag : string;
  c_url : string;
  c_envUrls : obj string;
  c_contexts : context -> bool;
  c_defaultContext : option context;
  c_props : obj propDef;
  c_singleton : bool
}.

(** ** The props pipeline *)

Section Pipeline.

(** [urlEncode] of [../../lib]. *)
Variable urlEncode : string -> string.
(** [Function.prototype.toString]: the source text of a function. *)
Variable fn_toString : func -> string.
(** What a function returns when it is called without arguments, as
    [prop.def()] calls a default that is a function. *)
Variable call0 : func -> value.

(** [String(value)]. *)
Fixpoint js_toString (v : value) : string :=
  match v with
  | VUndefined => "undefined"
  | VNull => "null"
  | VBool b => if b then "true" else "false"
  | VNum n => string_of_number n
  | VStr s => s
  | VFun f => fn_toString f
  | VArr items =>
      join "," (map (fun x => match x with
                              | VUndefined | VNull => ""
                              | _ => js_toString x
                              end) items)
  | VObj _ => "[object Object]"
  end.

(** [parseInt(value, 10)]. *)
Definition parseInt (v : value) : number := parseInt_string (js_toString v).

(** [a || b]. *)
Definition or_else (a b : value) : value := if truthy a then a else b.

(** [value !== null && value !== undefined && value !== ''] *)
Definition nonempty (v : value) : bool :=
  match v with
  | VNull | VUndefined => false
  | VStr s => negb (String.eqb s "")
  | _ => true
  end.

(** The first half of [normalizeProp]: the supplied value, or the declared
    default when none is supplied; a default that is a function is called
    unless the prop itself is a function. [props[key]] is read before the
    test for an own property, so a key that is not supplied and has no
    default keeps what the raw props inherit at it. *)
Definition withDefault (prop : propDef) (props : obj value) (key : string) : value :=
  let value := read props key in
  let hasProp := hasOwnProperty props key && nonempty value in
  if negb hasProp && truthy (def prop) then
    match def prop with
    | VFun f => if negb (String.eqb (ptype prop) "function") then call0 f else def prop
    | d => d
    end
  else value.

(** The second half: the value by declared type. The wrappers of a function
    prop are applied to functions; a truthy value that is no function has no
    [bind]. *)
Definition coerce (self : nat) (prop : propDef) (v : value) : res value :=
  if String.eqb (ptype prop) "boolean" then Ok (VBool (truthy v))
  else if String.eqb (ptype prop) "function" then
    if negb (truthy v) then
      Ok (if noop prop then VFun FNoop else v)
    else
      match v with
      | VFun f =>
          let f := if denodeify prop then FDenodeify f else f in
          let f := if once prop then FOnce f else f in
          let f := if memoize prop then FMemoize f else f in
          Ok (VFun (FBound f self))
      | _ => Throw (TypeError "value.bind is not a function")
      end
  else if String.eqb (ptype prop) "string" then Ok (or_else v (VStr ""))
  else if String.eqb (ptype prop) "object" then Ok v
  else if String.eqb (ptype prop) "number" then
    Ok (VNum (parseInt (or_else v (VNum (Num 0)))))
  else Ok VUndefined.

Definition normalizeValue (self : nat) (prop : propDef) (props : obj value)
    (key : string) : res value :=
  coerce self prop (withDefault prop props key).

Definition normalizeProp (c : component) (self : nat) (props : obj value)
    (key : string) : res value :=
  match obj_get (c_props c) key with
  | Some prop => normalizeValue self prop props key
  | None => Throw (TypeError "Cannot read properties of undefined")
  end.

(** The loop of [normalizeProps]: [result[key] = this.normalizeProp(props, key)]
    for each key in turn. *)
Fixpoint normalizeKeys (c : component) (self : nat) (props : obj value)
    (ks : list string) (result : obj value) : res (obj value) :=
  match ks with
  | [] => Ok result
  | key :: ks' =>
      v <- normalizeProp c self props key ;;
      normalizeKeys c self props ks' (obj_set result key v)
  end.

(** [normalizeProps(props)]; [None] is a raw input that is absent (falsy). *)
Definition normalizeProps (c : component) (self : nat)
    (props : option (obj value)) : res (obj value) :=
  let props := match props with Some p => p | None => [] end in
  normalizeKeys c self props (keys (c_props c)) [].

(** The callback [propsToQuery] maps over the keys: [''] for a falsy value,
    [undefined] for a function, [key=value] otherwise. *)
Definition queryEntry (props : obj value) (key : string) : value :=
  let value := get props key in
  if negb (truthy value) then VStr ""
  else
    let entry (result : string) := VStr (urlEncode key ++ "=" ++ urlEncode result) in
    match value with
    | VBool _ => entry "1"
    | VStr s => entry s
    | VFun _ => VUndefined
    | VArr _ | VObj _ =>
        entry (match JSON_stringify value with Some t => t | None => "undefined" end)
    | VNum n => entry (string_of_number n)
    | VNull | VUndefined => VStr ""
    end.

Definition propsToQuery (props : obj value) : string :=
  join "&" (map js_toString (filter truthy (map (queryEntry props) (keys props)))).

(** [s.indexOf('?') !== -1] *)
Fixpoint has_qmark (s : string) : bool :=
  match s with
  | EmptyString => false
  | String c r => Ascii.eqb c "?"%char || has_qmark r
  end.

(** [buildUrl()]. The chosen url is a string unless the [url] prop holds
    something else or the environment is not in the table, where the table
    reads [undefined] or what it inherits; [indexOf] exists on strings and
    arrays only. *)
Definition buildUrl (c : component) (props : obj value) : res value :=
  let url :=
    if truthy (get props "url") then get props "url"
    else if truthy (get props "env") then
      match obj_get (c_envUrls c) (js_toString (get props "env")) with
      | Some u => VStr u
      | None => inherited (js_toString (get props "env"))
      end
    else VStr (c_url c) in
  let queryString := propsToQuery props in
  if negb (String.eqb queryString "") then
    match url with
    | VStr u =>
        Ok (VStr (u ++ (if has_qmark u then "&" else "?") ++ queryString))
    | VArr items =>
        let found := existsb (fun x => match x with VStr "?" => true | _ => false end) items in
        Ok (VStr (js_toString url ++ (if found then "&" else "?") ++ queryString))
    | _ => Throw (TypeError "url.indexOf is not a function")
    end
  else Ok url.

End Pipeline.

(** ** The state of the page *)

(** The messages of the protocol ([POST_MESSAGE] of [../../constants]). *)
Inductive message : Type :=
| INIT
| PROPS
| CLOSE
| RENDER
| ERROR.

(** What an instance holds on the page and must give back. A watcher pair is
    numbered by the call of [watchForClose] that made it. *)
Inductive resource : Type :=
| Surface (win : nat)
| MessageListener (win : nat)
| CloseWatcher (k : nat)
| UnloadWatcher (k : nat)
| Overlay
| OverlayStyle
| ParentStyle.

Inductive field : Type :=
| FContext
| FWindow.

(** The closures handed to [registerForCleanup]. *)
Inductive task : Type :=
| TUnregister
| TDelete (f : field)
| TRelease (rs : list resource).

(** The init future ([new Promise()] of sync-browser-mocks, settled from
    outside through [resolve] and [reject]). [handlers] are the callbacks
    [updateProps] queued with [then], each the props it was called with. *)
Inductive settle : Type :=
| Pending
| Resolved
| Rejected (e : js_error).

Record promise : Type := {
  settled : settle;
  handlers : list (obj value)
}.

Record instance : Type := {
  i_component : component;
  i_props : obj value;
  i_url : value;
  i_window : option nat;
  i_context : option context;
  i_onInit : promise;
  i_cleanupTasks : list task;
  i_resources : list resource
}.

(** What the page observes, in order. *)
Inductive event : Type :=
| Call (self : nat) (prop : string) (f : func) (arg : option js_error)
| Send (target : option nat) (m : message) (payload : option (obj value))
| Warn (text : string) (e : js_error)
| Hook (self : nat) (ctx : context)
| Open (self : nat) (ctx : context) (element : option string) (win : nat)
| LoadUrl (self : nat) (url : value)
| Cleanup (self : nat) (t : task).

(** [activeComponents] is the module-level list; [heap] holds the instances by
    identity; [timers] are the armed [setTimeout] checks with their delays. *)
Record world : Type := {
  activeComponents : list nat;
  heap : list (nat * instance);
  counter : nat;
  timers : list (nat * value);
  log : list event
}.

Definition empty_world : world :=
  {| activeComponents := []; heap := []; counter := 0; timers := []; log := [] |}.

(** Code that changes the page and may throw: the state survives a throw. *)
Definition act (A : Type) : Type := world -> world * res A.

Definition ret {A : Type} (a : A) : act A := fun w => (w, Ok a).

Definition throw {A : Type} (e : js_error) : act A := fun w => (w, Throw e).

Definition bindA {A B : Type} (m : act A) (k : A -> act B) : act B :=
  fun w =>
    match m w with
    | (w', Ok a) => k a w'
    | (w', Throw e) => (w', Throw e)
    end.

Notation "x <~ m ;; k" := (bindA m (fun x => k))
  (at level 61, m at next level, right associativity).
Notation "m ;;; k" := (bindA m (fun _ => k))
  (at level 61, right associativity).

Definition lift {A : Type} (r : res A) : act A := fun w => (w, r).

(** A callback run by a future: what it throws rejects the derived future and
    goes no further. *)
Definition swallow (m : act unit) : act unit :=
  fun w => (fst (m w), Ok tt).

Definition emit (e : event) : act unit :=
  fun w =>
    ({| activeComponents := activeComponents w; heap := heap w;
        counter := counter w; timers := timers w; log := log w ++ [e] |}, Ok tt).

Definition fresh : act nat :=
  fun w =>
    ({| activeComponents := activeComponents w; heap := heap w;
        counter := S (counter w); timers := timers w; log := log w |},
     Ok (counter w)).

Definition setActive (l : list nat) : act unit :=
  fun w =>
    ({| activeComponents := l; heap := heap w;
        counter := counter w; timers := timers w; log := log w |}, Ok tt).

Definition addTimer (self : nat) (delay : value) : act unit :=
  fun w =>
    ({| activeComponents := activeComponents w; heap := heap w;
        counter := counter w; timers := timers w ++ [(self, delay)]; log := log w |},
     Ok tt).

Fixpoint lookup (self : nat) (h : list (nat * instance)) : option instance :=
  match h with
  | [] => None
  | (j, inst) :: h' => if Nat.eqb j self then Some inst else lookup self h'
  end.

Fixpoint store (self : nat) (inst : instance) (h : list (nat * instance))
    : list (nat * instance) :=
  match h with
  | [] => [(self, inst)]
  | (j, old) :: h' =>
      if Nat.eqb j self then (self, inst) :: h' else (j, old) :: store self inst h'
  end.

(** Reading [this]. *)
Definition this (self : nat) : act instance :=
  fun w =>
    match lookup self (heap w) with
    | Some inst => (w, Ok inst)
    | None => (w, Throw (TypeError "no such instance"))
    end.

(** Assigning fields of [this]. *)
Definition update (self : nat) (f : instance -> instance) : act unit :=
  fun w =>
    match lookup self (heap w) with
    | Some inst =>
        ({| activeComponents := activeComponents w;
            heap := store self (f inst) (heap w);
            counter := counter w; timers := timers w; log := log w |}, Ok tt)
    | None => (w, Throw (TypeError "no such instance"))
    end.

Definition with_props (p : obj value) (i : instance) : instance :=
  {| i_component := i_component i; i_props := p; i_url := i_url i;
     i_window := i_window i; i_context := i_context i; i_onInit := i_onInit i;
     i_cleanupTasks := i_cleanupTasks i; i_resources := i_resources i |}.

Definition with_url (u : value) (i : instance) : instance :=
  {| i_component := i_component i; i_props := i_props i; i_url := u;
     i_window := i_window i; i_context := i_context i; i_onInit := i_onInit i;
     i_cleanupTasks := i_cleanupTasks i; i_resources := i_resources i |}.

Definition with_window (x : option nat) (i : instance) : instance :=
  {| i_component := i_component i; i_props := i_props i; i_url := i_url i;
     i_window := x; i_context := i_context i; i_onInit := i_onInit i;
     i_cleanupTasks := i_cleanupTasks i; i_resources := i_resources i |}.

Definition with_context (x : option context) (i : instance) : instance :=
  {| i_component := i_component i; i_props := i_props i; i_url := i_url i;
     i_window := i_window i; i_context := x; i_onInit := i_onInit i;
     i_cleanupTasks := i_cleanupTasks i; i_resources := i_resources i |}.

Definition with_onInit (x : promise) (i : instance) : instance :=
  {| i_component := i_component i; i_props := i_props i; i_url := i_url i;
     i_window := i_window i; i_context := i_context i; i_onInit := x;
     i_cleanupTasks := i_cleanupTasks i; i_resources := i_resources i |}.

Definition with_tasks (x : list task) (i : instance) : instance :=
  {| i_component := i_component i; i_props := i_props i; i_url := i_url i;
     i_window := i_window i; i_context := i_context i; i_onInit := i_onInit i;
     i_cleanupTasks := x; i_resources := i_resources i |}.

Definition with_resources (x : list resource) (i : instance) : instance :=
  {| i_component := i_component i; i_props := i_props i; i_url := i_url i;
     i_window := i_window i; i_context := i_context i; i_onInit := i_onInit i;
     i_cleanupTasks := i_cleanupTasks i; i_resources := x |}.

(** ** The lifecycle *)

(** The options of the constructor that the modelled operations read. *)
Record options : Type := {
  o_props : option (obj value)
}.

Definition resource_eqb (a b : resource) : bool :=
  match a, b with
  | Surface x, Surface y => Nat.eqb x y
  | MessageListener x, MessageListener y => Nat.eqb x y
  | CloseWatcher x, CloseWatcher y => Nat.eqb x y
  | UnloadWatcher x, UnloadWatcher y => Nat.eqb x y
  | Overlay, Overlay => true
  | OverlayStyle, OverlayStyle => true
  | ParentStyle, ParentStyle => true
  | _, _ => false
  end.

Definition held (r : resource) (rs : list resource) : bool :=
  existsb (resource_eqb r) rs.

(** [l.indexOf(x)], [None] for -1. *)
Fixpoint indexOf (x : nat) (l : list nat) : option nat :=
  match l with
  | [] => None
  | y :: l' =>
      if Nat.eqb y x then Some 0
      else match indexOf x l' with
           | Some n => Some (S n)
           | None => None
           end
  end.

Fixpoint remove_at (n : nat) (l : list nat) : list nat :=
  match l, n with
  | [], _ => []
  | _ :: l', 0 => l'
  | y :: l', S n' => y :: remove_at n' l'
  end.

(** [l.splice(i, 1)]: a start of -1 counts from the end and takes the last. *)
Definition splice1 (i : option nat) (l : list nat) : list nat :=
  match i with
  | Some n => remove_at n l
  | None => removelast l
  end.

Definition context_name (ctx : context) : string :=
  match ctx with
  | Iframe => "iframe"
  | Lightbox => "lightbox"
  | Popup => "popup"
  end.

(** An element argument is a selector or a node; the empty selector is falsy. *)
Definition given (element : option string) : bool :=
  match element with
  | Some sel => negb (String.eqb sel "")
  | None => false
  end.

Section Lifecycle.

Variable urlEncode : string -> string.
Variable fn_toString : func -> string.
Variable call0 : func -> value.
(** [stringifyWithFunctions] of [../../lib]. *)
Variable stringifyWithFunctions : obj value -> string.
(** [validate] and [validateProps] of [./validate]: they return or throw. *)
Variable validate : component -> options -> res unit.
Variable validateProps : component -> obj value -> res unit.
(** [RENDER_DRIVERS[context].overlay], and whether the driver of a context has
    a [render] hook ([./drivers]). *)
Variable overlay : context -> bool.
Variable hasRenderHook : context -> bool.
(** What the call [f(arg)] of a callback does, as far as the class can tell:
    it returns (the class reads no result of a callback) or it throws. *)
Variable invoke : func -> option js_error -> res unit.

(** Modelled from the spec: [registerForCleanup] of [BaseComponent] ([../base]),
    the per-instance ordered list of cleanup actions. *)
Definition registerForCleanup (self : nat) (t : task) : act unit :=
  update self (fun i => with_tasks (i_cleanupTasks i ++ [t]) i).

(** Modelled from the spec: [setForCleanup] of [BaseComponent], which records a
    field and registers its removal. *)
Definition setForCleanup (self : nat) (f : field) (i : instance -> instance)
    : act unit :=
  update self i ;;;
  registerForCleanup self (TDelete f).

Definition acquire (self : nat) (r : resource) : act unit :=
  update self (fun i => with_resources (i_resources i ++ [r]) i).

Definition runTask (self : nat) (t : task) : act unit :=
  emit (Cleanup self t) ;;;
  match t with
  | TUnregister =>
      fun w => setActive (splice1 (indexOf self (activeComponents w)) (activeComponents w)) w
  | TDelete FContext => update self (with_context None)
  | TDelete FWindow => update self (with_window None)
  | TRelease rs =>
      update self (fun i =>
        with_resources (filter (fun r => negb (held r rs)) (i_resources i)) i)
  end.

Fixpoint runTasks (self : nat) (ts : list task) : act unit :=
  match ts with
  | [] => ret tt
  | t :: ts' => runTask self t ;;; runTasks self ts'
  end.

(** Modelled from the spec: [cleanup] of [BaseComponent], which runs every
    registered action in registration order and then clears the list. *)
Definition cleanup (self : nat) : act unit :=
  inst <~ this self ;;
  runTasks self (i_cleanupTasks inst) ;;;
  update self (with_tasks []).

Definition destroy (self : nat) : act unit := cleanup self.

(** [this.props[name](arg)]: the call of a callback prop. The call is
    observed; the callback returns or throws, without entering the component
    again. *)
Definition callProp (self : nat) (name : string) (arg : option js_error) : act unit :=
  inst <~ this self ;;
  match get (i_props inst) name with
  | VFun f => emit (Call self name f arg) ;;; lift (invoke f arg)
  | _ => throw (TypeError ("this.props." ++ name ++ " is not a function"))
  end.

Definition setProps (self : nat) (props : obj value) : act unit :=
  inst <~ this self ;;
  lift (validateProps (i_component inst) props) ;;;
  p <~ lift (normalizeProps fn_toString call0 (i_component inst) self (Some props)) ;;
  update self (with_props p) ;;;
  u <~ lift (buildUrl urlEncode fn_toString (i_component inst) p) ;;
  update self (with_url u).

Definition new_instance (c : component) : instance :=
  {| i_component := c; i_props := []; i_url := VUndefined; i_window := None;
     i_context := None; i_onInit := {| settled := Pending; handlers := [] |};
     i_cleanupTasks := []; i_resources := [] |}.

(** [new] allocates [this]. *)
Definition alloc (c : component) : act nat :=
  self <~ fresh ;;
  (fun w =>
     ({| activeComponents := activeComponents w;
         heap := store self (new_instance c) (heap w);
         counter := counter w; timers := timers w; log := log w |}, Ok self)).

Definition same_component (h : list (nat * instance)) (c : component) (j : nat) : bool :=
  match lookup j h with
  | Some comp => Nat.eqb (c_ref (i_component comp)) (c_ref c)
  | None => false
  end.

(** [new ParentComponent(component, options)]. *)
Definition constructor (c : component) (o : options) : act nat :=
  self <~ alloc c ;;
  lift (validate c o) ;;;
  (fun w =>
     if c_singleton c && existsb (same_component (heap w) c) (activeComponents w)
     then throw (Error (c_tag c ++ " is a singleton, and an only be instantiated once")) w
     else setActive (activeComponents w ++ [self]) w) ;;;
  registerForCleanup self TUnregister ;;;
  setProps self (match o_props o with Some p => p | None => [] end) ;;;
  acquire self ParentStyle ;;;
  update self (with_onInit {| settled := Pending; handlers := [] |}) ;;;
  ret self.

(** Modelled from the spec: [extend] of [../../lib], which copies the own
    properties of the source over the target. *)
Definition extend (target source : obj value) : obj value :=
  fold_left (fun o kv => obj_set o (fst kv) (snd kv)) source target.

(** The callback [updateProps] hands to [then]. *)
Definition applyProps (self : nat) (props : obj value) : act unit :=
  inst <~ this self ;;
  let oldProps := stringifyWithFunctions (i_props inst) in
  let newProps := extend (extend [] (i_props inst)) props in
  setProps self newProps ;;;
  inst' <~ this self ;;
  match i_window inst' with
  | Some win =>
      if negb (String.eqb oldProps (stringifyWithFunctions (i_props inst')))
      then emit (Send (Some win) PROPS (Some (i_props inst')))
      else ret tt
  | None => ret tt
  end.

(** [updateProps(props)]: the callback waits for the init future, runs at once
    when it is resolved, and never runs when it is rejected. *)
Definition updateProps (self : nat) (props : obj value) : act unit :=
  inst <~ this self ;;
  lift (validateProps (i_component inst) props) ;;;
  match settled (i_onInit inst) with
  | Pending =>
      update self (fun i =>
        with_onInit {| settled := Pending;
                       handlers := handlers (i_onInit i) ++ [props] |} i)
  | Resolved => swallow (applyProps self props)
  | Rejected _ => ret tt
  end.

Fixpoint dispatch (self : nat) (queued : list (obj value)) : act unit :=
  match queued with
  | [] => ret tt
  | props :: rest => swallow (applyProps self props) ;;; dispatch self rest
  end.

(** [this.onInit.resolve()]: a settled future stays as it is. *)
Definition resolveInit (self : nat) : act unit :=
  inst <~ this self ;;
  match settled (i_onInit inst) with
  | Pending =>
      update self (with_onInit {| settled := Resolved; handlers := [] |}) ;;;
      dispatch self (handlers (i_onInit inst))
  | _ => ret tt
  end.

Definition getRenderContext (c : component) (el : option string) : res context :=
  if given el then
    if negb (c_contexts c Iframe)
    then Throw (Error ("[" ++ c_tag c ++ "] Iframe context not allowed"))
    else Ok Iframe
  else
    match c_defaultContext c with
    | Some Lightbox => Ok Lightbox
    | Some Popup => Ok Popup
    | _ =>
        if c_contexts c Lightbox then Ok Lightbox
        else if c_contexts c Popup then Ok Popup
        else Throw (Error ("[" ++ c_tag c ++ "] No context options available for render"))
    end.

Definition validateRender (inst : instance) (ctx : option context) : res unit :=
  match i_window inst with
  | Some _ =>
      Throw (Error ("[" ++ c_tag (i_component inst)
                        ++ "] Can not render: component is already rendered"))
  | None =>
      match ctx with
      | Some x =>
          if negb (c_contexts (i_component inst) x)
          then Throw (Error ("Invalid context: " ++ context_name x))
          else Ok tt
      | None => Ok tt
      end
  end.

(** [watchForClose()]: a close watcher on the surface and an unload watcher on
    the page, cancelled together. *)
Definition watchForClose (self : nat) : act unit :=
  k <~ fresh ;;
  acquire self (CloseWatcher k) ;;;
  acquire self (UnloadWatcher k) ;;;
  registerForCleanup self (TRelease [CloseWatcher k; UnloadWatcher k]).

(** Modelled from the spec: [RENDER_DRIVERS[context].open] of [./drivers], which
    creates the surface, stores its window handle and pairs the acquisition
    with its release. *)
Definition driverOpen (self : nat) (ctx : context) (element : option string)
    : act unit :=
  win <~ fresh ;;
  emit (Open self ctx element win) ;;;
  acquire self (Surface win) ;;;
  registerForCleanup self (TRelease [Surface win]) ;;;
  setForCleanup self FWindow (with_window (Some win)).

(** [open(element, context)]; the shell that [createComponentTemplate] writes
    lives in the surface and goes with it. *)
Definition open (self : nat) (element : option string) (ctx : context) : act unit :=
  driverOpen self ctx element ;;;
  watchForClose self.

(** Modelled from the spec: [listen] of [BaseComponent], which starts the
    message listener bound to the surface. *)
Definition listen (self : nat) : act unit :=
  inst <~ this self ;;
  match i_window inst with
  | Some win =>
      acquire self (MessageListener win) ;;;
      registerForCleanup self (TRelease [MessageListener win])
  | None => throw (TypeError "no window to listen to")
  end.

Definition loadUrl (self : nat) : act unit :=
  inst <~ this self ;;
  emit (LoadUrl self (i_url inst)).

(** [runTimeout()]: arms one check when the [timeout] prop is truthy. *)
Definition runTimeout (self : nat) : act unit :=
  inst <~ this self ;;
  if truthy (get (i_props inst) "timeout")
  then addTimer self (get (i_props inst) "timeout")
  else ret tt.

Definition createOverlayTemplate (self : nat) : act unit :=
  acquire self Overlay ;;;
  acquire self OverlayStyle ;;;
  registerForCleanup self (TRelease [Overlay; OverlayStyle]).

(** [render(element, context)]. *)
Definition render (self : nat) (element : option string) (ctx : option context)
    : act unit :=
  inst <~ this self ;;
  lift (validateRender inst ctx) ;;;
  context <~ match ctx with
             | Some x => ret x
             | None => lift (getRenderContext (i_component inst) element)
             end ;;
  (if hasRenderHook context then emit (Hook self context) else ret tt) ;;;
  setForCleanup self FContext (with_context (Some context)) ;;;
  open self element context ;;;
  listen self ;;;
  loadUrl self ;;;
  runTimeout self ;;;
  (if overlay context then createOverlayTemplate self else ret tt) ;;;
  watchForClose self.

Definition timeoutError (inst : instance) : js_error :=
  let tag := c_tag (i_component inst) in
  Error ("[" ++ tag ++ "] Loading component " ++ tag ++ " at "
             ++ js_toString fn_toString (i_url inst) ++ " timed out after "
             ++ js_toString fn_toString (get (i_props inst) "timeout")
             ++ " milliseconds").

(** The callback [runTimeout] hands to [setTimeout]:
    [this.onInit.reject(error).catch(err => ...)]. *)
Definition timeoutExpired (self : nat) : act unit :=
  inst <~ this self ;;
  let onRejected (err : js_error) :=
    swallow (callProp self "onTimeout" (Some err) ;;; destroy self) in
  match settled (i_onInit inst) with
  | Pending =>
      update self (with_onInit {| settled := Rejected (timeoutError inst);
                                  handlers := [] |}) ;;;
      onRejected (timeoutError inst)
  | Resolved => ret tt
  | Rejected e => onRejected e
  end.

(** The listener of [INIT]; its reply is the context and the props. *)
Definition onInitMessage (self : nat) : act (option context * obj value) :=
  callProp self "onEnter" None ;;;
  resolveInit self ;;;
  inst <~ this self ;;
  ret (i_context inst, i_props inst).

(** [error(err)]. *)
Definition error (self : nat) (err : js_error) : act unit :=
  callProp self "onError" (Some err) ;;;
  destroy self.

(** The listener of [ERROR]. *)
Definition onErrorMessage (self : nat) (data : string) : act unit :=
  error self (Error data).

(** [close()] up to the request it sends. *)
Definition close (self : nat) : act unit :=
  callProp self "onClose" None ;;;
  inst <~ this self ;;
  emit (Send (i_window inst) CLOSE None).

(** What [close()] chained on the request: a failed delivery is caught and
    logged, and the instance is destroyed either way. The result is how the
    future that [close()] returned settles. *)
Definition closeSettled (self : nat) (delivery : res unit) : act unit :=
  match delivery with
  | Ok _ => ret tt
  | Throw err => emit (Warn "Error sending message to child" err)
  end ;;;
  destroy self.

End Lifecycle.
(** * Vocabulary of the statements *)

(** ** Normalized props *)

(** A function prop is bindable when it is given a function or nothing truthy. *)
Definition bindable (prop : propDef) (v : value) : bool :=
  negb (String.eqb (ptype prop) "function") || negb (truthy v)
  || match v with VFun _ => true | _ => false end.

(** The props a caller passed, none read as no props. *)
Definition raw_of (raw : option (obj value)) : obj value :=
  match raw with Some p => p | None => [] end.

(** The value a caller supplied at a key: an own property that is not null,
    undefined or the empty string. *)
Definition supplied (props : obj value) (key : string) : option value :=
  match obj_get props key with
  | Some v => if nonempty v then Some v else None
  | None => None
  end.

(** No declared prop is named like a member of [Object.prototype], so a
    prop that is not supplied reads as [undefined]. *)
Definition own_names (c : component) : Prop :=
  forall k, In k (keys (c_props c)) -> inherited k = VUndefined.

(** The raw props leave [hasOwnProperty] to the prototype, so the test
    [props.hasOwnProperty(key)] is the test for an own property. *)
Definition plain_input (props : obj value) : Prop :=
  obj_get props "hasOwnProperty" = None.

(** The safe integers, on which the doubles of the code are exact: the
    magnitudes below 2^53. *)
Definition safe (z : Z) : bool := (Z.abs z <? 2 ^ 53)%Z.

(** Every number in the value is NaN or a safe integer. *)
Fixpoint safe_value (v : value) : bool :=
  match v with
  | VNum (Num z) => safe z
  | VArr items => forallb safe_value items
  | VObj fields =>
      forallb (fun kv : string * value => let (_, x) := kv in safe_value x) fields
  | _ => true
  end.

(** The text goes on with a digit. *)
Definition starts_with_digit (s : string) : bool :=
  match s with
  | EmptyString => false
  | String c _ => match digit_of c with Some _ => true | None => false end
  end.

Section NormalizeSpec.

Variable fn_toString : func -> string.
Variable call0 : func -> value.

(** The value the default step yields when nothing is supplied, at a key
    that reads as [undefined]. *)
Definition defaultValue (prop : propDef) : value :=
  if truthy (def prop) then
    match def prop with
    | VFun f => if negb (String.eqb (ptype prop) "function") then call0 f else def prop
    | d => d
    end
  else VUndefined.

(** A number prop reads the value exactly: the value holds safe integers
    only, and the integer that [parseInt] reads in its text is safe. *)
Definition parses_exactly (v : value) : bool :=
  safe_value v
  && match parseInt fn_toString (or_else v (VNum (Num 0))) with
     | Num z => safe z
     | NaN => true
     end.

(** The number defaults of the component are read exactly. *)
Definition exact_defaults (c : component) : Prop :=
  forall k prop,
    obj_get (c_props c) k = Some prop -> ptype prop = "number" ->
    parses_exactly (defaultValue prop) = true.

(** The declared props whose normalized value normalizes to itself: every
    boolean and object prop; a function prop left unset (absent, no [noop]);
    a string prop unless a default is declared and the supplied value is falsy
    without being empty (false, 0, NaN); a number prop whose value is read
    exactly and parses to a number. *)
Definition settles (prop : propDef) (props : obj value) (key : string) : bool :=
  let v := withDefault call0 prop props key in
  if String.eqb (ptype prop) "boolean" then true
  else if String.eqb (ptype prop) "function" then negb (truthy v) && negb (noop prop)
  else if String.eqb (ptype prop) "string" then
    truthy v || negb (truthy (def prop))
    || negb (hasOwnProperty props key && nonempty (read props key))
  else if String.eqb (ptype prop) "object" then true
  else if String.eqb (ptype prop) "number" then
    parses_exactly v
    && match parseInt fn_toString (or_else v (VNum (Num 0))) with
       | Num _ => true
       | NaN => false
       end
  else true.

End NormalizeSpec.

(** ** Serialized values *)

(** A text that opens a value: it starts with no white space and with no
    closing bracket. *)
Definition opens (t : string) : bool :=
  match t with
  | EmptyString => false
  | String c _ =>
      negb (is_ws c) && negb (Ascii.eqb c "]") && negb (Ascii.eqb c "}")
  end.

(** The fuel that reading a value back takes. *)
Fixpoint size (v : value) : nat :=
  match v with
  | VArr items => S (fold_right (fun x n => S (size x + n)) 0 items)
  | VObj fields =>
      S (fold_right (fun (kv : string * value) n => let (_, x) := kv in S (size x + n)) 0 fields)
  | _ => 1
  end.

(** A value reads back from its text, whatever follows the text as long as
    it does not go on with a digit. *)
Definition reads_back (v : value) : Prop :=
  json_data v = true ->
  exists t,
    json_text v = Some t /\ opens t = true /\ size v <= String.length t
    /\ forall fuel rest,
         size v <= fuel -> starts_with_digit rest = false ->
         parse_value fuel (t ++ rest) = Some (v, rest).

(** The text of an array item: [null] where the value has no text. *)
Definition item_text (x : value) : string :=
  match json_text x with
  | Some t => t
  | None => "null"
  end.

(** The text of a member of an object. *)
Definition member_text (kv : string * value) : string :=
  let (k, x) := kv in quote k ++ ":" ++ item_text x.

(** ** The query string *)

Section QuerySpec.

Variable urlEncode : string -> string.

(** The part of the query string a prop contributes: [key=value] with [1]
    for a true boolean, the decimal text for a number, the text itself for a
    string, the JSON text for an array or an object; nothing for a falsy value
    (false, 0, NaN, the empty string, null, undefined) and for a function. *)
Definition queryPart (key : string) (v : value) : option string :=
  let entry (text : string) := Some (urlEncode key ++ "=" ++ urlEncode text) in
  match v with
  | VBool true => entry "1"
  | VNum (Num z) => if Z.eqb z 0 then None else entry (string_of_Z z)
  | VStr s => if String.eqb s "" then None else entry s
  | VArr _ | VObj _ => entry (item_text v)
  | VBool false | VNum NaN | VFun _ | VNull | VUndefined => None
  end.

(** The parts of all props, in the order of the keys. *)
Definition queryParts (props : obj value) : list string :=
  flat_map (fun key => match queryPart key (get props key) with
                       | Some part => [part]
                       | None => []
                       end) (keys props).

End QuerySpec.

(** The prop is not a function. *)
Definition not_function (props : obj value) (key : string) : bool :=
  match get props key with
  | VFun _ => false
  | _ => true
  end.

(** ** An example page *)

(** Stand-ins for the helpers of the library in the examples: an encoder
    that changes nothing, the source text of a native function, a default
    function that returns nothing, the JSON text as the serialization,
    validators that accept everything, and callbacks that return. *)
Definition noEncoding (s : string) : string := s.

Definition nativeSource (f : func) : string := "function () { [native code] }".

Definition returnsUndefined (f : func) : value := VUndefined.

Definition jsonOfProps (o : obj value) : string := item_text (VObj o).

Definition accept (c : component) (o : options) : res unit := Ok tt.

Definition acceptProps (c : component) (p : obj value) : res unit := Ok tt.

(** Callbacks that return, and callbacks that throw. *)
Definition callbackReturns (f : func) (arg : option js_error) : res unit := Ok tt.

Definition callbackFails (f : func) (arg : option js_error) : res unit :=
  Throw (Error "callback failed").

(** Lightboxes and popups come with an overlay; no driver has a render hook. *)
Definition overlayOf (ctx : context) : bool :=
  match ctx with
  | Iframe => false
  | Lightbox | Popup => true
  end.

Definition noHook (ctx : context) : bool := false.

(** A declared prop of the given type and default, and a callback prop that
    defaults to the empty function. *)
Definition plainProp (type : string) (d : value) : propDef :=
  {| ptype := type; def := d; noop := false; denodeify := false;
     once := false; memoize := false |}.

Definition callbackProp : propDef :=
  {| ptype := "function"; def := VUndefined; noop := true; denodeify := false;
     once := false; memoize := false |}.

(** The component of the example scenario: contexts iframe and lightbox, the
    environment [prod] at [https://x.example/run], one string prop [env]. *)
Definition runner : component :=
  {| c_ref := 1; c_tag := "runner"; c_url := "https://x.example/";
     c_envUrls := [("prod", "https://x.example/run")];
     c_contexts := fun ctx => match ctx with Popup => false | _ => true end;
     c_defaultContext := None;
     c_props := [("env", plainProp "string" VUndefined)];
     c_singleton := false |}.

(** The same contexts with iframe declared as the default. *)
Definition framed : component :=
  {| c_ref := 2; c_tag := "framed"; c_url := "https://x.example/";
     c_envUrls := [];
     c_contexts := fun ctx => match ctx with Popup => false | _ => true end;
     c_defaultContext := Some Iframe;
     c_props := [];
     c_singleton := false |}.

(** A component with data props only: a number, and a string with a default. *)
Definition meter : component :=
  {| c_ref := 4; c_tag := "meter"; c_url := "https://x.example/meter";
     c_envUrls := [];
     c_contexts := fun _ => true;
     c_defaultContext := None;
     c_props := [("count", plainProp "number" VUndefined);
                 ("label", plainProp "string" (VStr "none"))];
     c_singleton := false |}.

(** A component whose props are named like members of [Object.prototype]. *)
Definition shadowed : component :=
  {| c_ref := 7; c_tag := "shadowed"; c_url := "https://x.example/shadow";
     c_envUrls := [];
     c_contexts := fun _ => true;
     c_defaultContext := None;
     c_props := [("toString", plainProp "boolean" VUndefined);
                 ("valueOf", plainProp "object" VUndefined)];
     c_singleton := false |}.

(** A component with a timeout and no callback. *)
Definition timed : component :=
  {| c_ref := 6; c_tag := "timed"; c_url := "https://x.example/timed";
     c_envUrls := [];
     c_contexts := fun _ => true;
     c_defaultContext := None;
     c_props := [("timeout", plainProp "number" (VNum (Num 3000)))];
     c_singleton := false |}.

(** A singleton with a timeout and the callbacks of the lifecycle. *)
Definition checkout : component :=
  {| c_ref := 3; c_tag := "checkout"; c_url := "https://x.example/pay";
     c_envUrls := [];
     c_contexts := fun _ => true;
     c_defaultContext := Some Lightbox;
     c_props := [("timeout", plainProp "number" (VNum (Num 5000)));
                 ("amount", plainProp "number" VUndefined);
                 ("dark", plainProp "boolean" VUndefined);
                 ("cart", plainProp "object" VUndefined);
                 ("onEnter", callbackProp); ("onClose", callbackProp);
                 ("onTimeout", callbackProp); ("onError", callbackProp)];
     c_singleton := true |}.

(** ** Teardown *)

(** What one cleanup task does to the instance and to the active list. *)
Definition task_instance (t : task) (i : instance) : instance :=
  match t with
  | TUnregister => i
  | TDelete FContext => with_context None i
  | TDelete FWindow => with_window None i
  | TRelease rs =>
      with_resources (filter (fun r => negb (held r rs)) (i_resources i)) i
  end.

Definition task_active (self : nat) (t : task) (l : list nat) : list nat :=
  match t with
  | TUnregister => splice1 (indexOf self l) l
  | _ => l
  end.

(** The state after running the tasks in order. *)
Definition after_tasks (self : nat) (ts : list task) (inst : instance) (w : world)
    : world :=
  {| activeComponents := fold_left (fun l t => task_active self t l) ts (activeComponents w);
     heap := store self (fold_left (fun i t => task_instance t i) ts inst) (heap w);
     counter := counter w;
     timers := timers w;
     log := (log w ++ map (Cleanup self) ts)%list |}.

(** The state [destroy] leaves: every task run in order, the list cleared. *)
Definition destroyed (self : nat) (inst : instance) (w : world) : world :=
  let w' := after_tasks self (i_cleanupTasks inst) inst w in
  {| activeComponents := activeComponents w';
     heap := store self
               (with_tasks []
                  (fold_left (fun i t => task_instance t i) (i_cleanupTasks inst) inst))
               (heap w);
     counter := counter w';
     timers := timers w';
     log := log w' |}.

(** Equality of cleanup tasks. *)
Definition task_eqb (a b : task) : bool :=
  match a, b with
  | TUnregister, TUnregister => true
  | TDelete FContext, TDelete FContext => true
  | TDelete FWindow, TDelete FWindow => true
  | TRelease rs, TRelease rs' =>
      Nat.eqb (List.length rs) (List.length rs')
      && forallb (fun p => resource_eqb (fst p) (snd p)) (combine rs rs')
  | _, _ => false
  end.

(** The task releases the resource. *)
Definition covers (r : resource) (t : task) : bool :=
  match t with
  | TRelease rs => held r rs
  | _ => false
  end.

(** No identity is listed twice. *)
Fixpoint nodup_nat (l : list nat) : bool :=
  match l with
  | [] => true
  | x :: l' => negb (existsb (Nat.eqb x) l') && nodup_nat l'
  end.

(** An instance is tidy when what it holds is paired with a registered
    release: the window and the context with their deletion, every resource
    but the parent style sheet with a task that releases it, and its entry in
    the active list (listed at most once) with the task that removes it. *)
Definition tidy (w : world) (self : nat) (inst : instance) : bool :=
  let tasks := i_cleanupTasks inst in
  match i_window inst with
  | Some _ => existsb (task_eqb (TDelete FWindow)) tasks
  | None => true
  end
  && match i_context inst with
     | Some _ => existsb (task_eqb (TDelete FContext)) tasks
     | None => true
     end
  && forallb (fun r => resource_eqb r ParentStyle || existsb (covers r) tasks)
       (i_resources inst)
  && (negb (existsb (Nat.eqb self) (activeComponents w))
      || existsb (task_eqb TUnregister) tasks)
  && nodup_nat (activeComponents w).

(** Fully torn down: no cleanup action left, no surface handle, no context,
    nothing held but the parent style sheet (so no surface, listener, watcher
    or overlay), and no entry in the active list. *)
Definition torn_down (w : world) (self : nat) : Prop :=
  exists inst,
    lookup self (heap w) = Some inst
    /\ i_cleanupTasks inst = []
    /\ i_window inst = None
    /\ i_context inst = None
    /\ (forall r, In r (i_resources inst) -> r = ParentStyle)
    /\ ~ In self (activeComponents w).

(** ** States the lifecycle leaves *)

(** The instance with its init future resolved and its queue handed over. *)
Definition resolved (i : instance) : instance :=
  with_onInit {| settled := Resolved; handlers := [] |} i.

(** The instance with its init future rejected. *)
Definition rejected (e : js_error) (i : instance) : instance :=
  with_onInit {| settled := Rejected e; handlers := [] |} i.

(** The state with more events in its log. *)
Definition logged (es : list event) (w : world) : world :=
  {| activeComponents := activeComponents w; heap := heap w; counter := counter w;
     timers := timers w; log := (log w ++ es)%list |}.

(** The state with one more armed check. *)
Definition armed (self : nat) (delay : value) (w : world) : world :=
  {| activeComponents := activeComponents w; heap := heap w; counter := counter w;
     timers := (timers w ++ [(self, delay)])%list; log := log w |}.

(** The identities in the active list were all handed out by the counter. *)
Definition fresh_ids (w : world) : bool :=
  forallb (fun j => Nat.ltb j (counter w)) (activeComponents w).

(** The props of the options, none read as no props. *)
Definition props_of (o : options) : obj value :=
  match o_props o with
  | Some p => p
  | None => []
  end.

(** The state in which the constructor makes its singleton check. *)
Definition allocated (c : component) (w : world) : world :=
  {| activeComponents := activeComponents w;
     heap := store (counter w) (new_instance c) (heap w);
     counter := S (counter w); timers := timers w; log := log w |}.

(** The singleton check finds a live instance of the component. *)
Definition occupied (c : component) (w : world) : bool :=
  c_singleton c
  && existsb (same_component (heap (allocated c w)) c) (activeComponents w).

(** What the constructor leaves when every step succeeds. *)
Definition constructed (c : component) (p : obj value) (u : value) (w : world) : world :=
  {| activeComponents := (activeComponents w ++ [counter w])%list;
     heap := store (counter w)
               {| i_component := c; i_props := p; i_url := u; i_window := None;
                  i_context := None;
                  i_onInit := {| settled := Pending; handlers := [] |};
                  i_cleanupTasks := [TUnregister]; i_resources := [ParentStyle] |}
               (heap w);
     counter := S (counter w); timers := timers w; log := log w |}.

(** The instance a construction leaves when every step succeeds. *)
Definition built (c : component) (p : obj value) (u : value) : instance :=
  {| i_component := c; i_props := p; i_url := u; i_window := None;
     i_context := None;
     i_onInit := {| settled := Pending; handlers := [] |};
     i_cleanupTasks := [TUnregister]; i_resources := [ParentStyle] |}.

(** The constructor up to its singleton check, the check passed. *)
Definition registered (c : component) (w : world) : world :=
  {| activeComponents := (activeComponents w ++ [counter w])%list;
     heap := store (counter w) (with_tasks [TUnregister] (new_instance c)) (heap w);
     counter := S (counter w); timers := timers w; log := log w |}.

(** The props the callback normalizes: the new ones over the existing ones. *)
Definition merged (inst : instance) (props : obj value) : obj value :=
  extend (extend [] (i_props inst)) props.

Section UpdateSpec.

Variable urlEncode : string -> string.
Variable fn_toString : func -> string.
Variable call0 : func -> value.
Variable stringifyWithFunctions : obj value -> string.
Variable validateProps : component -> obj value -> res unit.

(** The PROPS message of one update: sent to the child surface, when there is
    one, if the serialized props changed. *)
Definition propsMessage (inst : instance) (p : obj value) : list event :=
  match i_window inst with
  | Some win =>
      if negb (String.eqb (stringifyWithFunctions (i_props inst))
                          (stringifyWithFunctions p))
      then [Send (Some win) PROPS (Some p)]
      else []
  | None => []
  end.

(** The state after the queued updates have run, in order, each in the state
    the one before left, whether it returned or threw. *)
Definition applied (self : nat) (queue : list (obj value)) (w : world) : world :=
  fold_left
    (fun w' props =>
       fst (applyProps urlEncode fn_toString call0 stringifyWithFunctions validateProps
              self props w'))
    queue w.

End UpdateSpec.

(** ** Example states *)

(** Construction with the stand-ins. *)
Definition build (c : component) (raw : option (obj value)) : act nat :=
  constructor noEncoding nativeSource returnsUndefined accept acceptProps c
    {| o_props := raw |}.

(** A checkout constructed and rendered with no context: a lightbox. *)
Definition rendered_checkout : world :=
  Eval vm_compute in
  fst ((self <~ build checkout None ;; render overlayOf noHook self None None)
         empty_world).

(** The same after the child's INIT, and then after [destroy]. *)
Definition active_checkout : world :=
  Eval vm_compute in
  fst (onInitMessage noEncoding nativeSource returnsUndefined jsonOfProps acceptProps
         callbackReturns 0 rendered_checkout).

Definition closed_checkout : world := Eval vm_compute in fst (destroy 0 active_checkout).

(** The timed component and the runner, rendered. *)
Definition rendered_timed : world :=
  Eval vm_compute in
  fst ((self <~ build timed None ;; render overlayOf noHook self None None)
         empty_world).

Definition rendered_runner : world :=
  Eval vm_compute in
  fst ((self <~ build runner (Some [("env", VStr "prod")]) ;;
        render overlayOf noHook self (Some "#container") None) empty_world).

(** The instance at an identity of a state. *)
Definition instance_in (w : world) (self : nat) : instance :=
  match lookup self (heap w) with
  | Some inst => inst
  | None => new_instance checkout
  end.

(** The error of the example. *)
Definition childFailed : js_error := Error "child failed".

(** ** Reachable states *)

(** A state is sound when the counter is above every identity in use and
    every instance in the heap is tidy. *)
Definition sound (w : world) : Prop :=
  fresh_ids w = true
  /\ nodup_nat (activeComponents w) = true
  /\ forall j inst, lookup j (heap w) = Some inst -> j < counter w /\ tidy w j inst = true.

(** The fields [tidy] reads. *)
Definition same_holdings (i i' : instance) : Prop :=
  i_window i = i_window i' /\ i_context i = i_context i'
  /\ i_cleanupTasks i = i_cleanupTasks i' /\ i_resources i = i_resources i'.

(** A computation keeps soundness, whether it returns or throws. *)
Definition keeps {A : Type} (m : act A) : Prop :=
  forall w, sound w -> sound (fst (m w)).

Section Reachability.

Variable urlEncode : string -> string.
Variable fn_toString : func -> string.
Variable call0 : func -> value.
Variable stringifyWithFunctions : obj value -> string.
Variable validate : component -> options -> res unit.
Variable validateProps : component -> obj value -> res unit.
Variable overlay : context -> bool.
Variable hasRenderHook : context -> bool.
Variable invoke : func -> option js_error -> res unit.

(** The states the page can be in: the empty page, and whatever a call of
    the constructor or of a method, a message of the child, the timer or the
    settling of the close request leaves, whether the call returned or threw. *)
Inductive reachable : world -> Prop :=
| reach_start : reachable empty_world
| reach_constructor w c o :
    reachable w ->
    reachable (fst (constructor urlEncode fn_toString call0 validate validateProps c o w))
| reach_render w self element ctx :
    reachable w -> reachable (fst (render overlay hasRenderHook self element ctx w))
| reach_updateProps w self props :
    reachable w ->
    reachable (fst (updateProps urlEncode fn_toString call0 stringifyWithFunctions
                      validateProps self props w))
| reach_init w self :
    reachable w ->
    reachable (fst (onInitMessage urlEncode fn_toString call0 stringifyWithFunctions
                      validateProps invoke self w))
| reach_error w self err : reachable w -> reachable (fst (error invoke self err w))
| reach_errorMessage w self data :
    reachable w -> reachable (fst (onErrorMessage invoke self data w))
| reach_timeout w self :
    reachable w -> reachable (fst (timeoutExpired fn_toString invoke self w))
| reach_close w self : reachable w -> reachable (fst (close invoke self w))
| reach_closeSettled w self delivery :
    reachable w -> reachable (fst (closeSettled self delivery w))
| reach_destroy w self : reachable w -> reachable (fst (destroy self w)).

End Reachability.

(** * The rest of the class *)

(** ** The position of a popup or lightbox *)

(** [component.dimensions]: a coordinate is fixed when it is a number; the
    sizes are whole numbers of pixels. *)
Record dimensions : Type := {
  d_x : value;
  d_y : value;
  d_width : number;
  d_height : number
}.

(** The coordinate [getPosition] computes on one axis: 0 when the screen is
    no larger than the component, else
    [Math.floor((screen / 2) - (size / 2))], which is the floor of half the
    difference on the integers the doubles halve and subtract exactly: those
    from 0 to below 2^53. A comparison with NaN is false and arithmetic on
    NaN gives NaN. *)
Definition centered (screen size : number) : number :=
  match screen, size with
  | Num w, Num d => if (w <=? d)%Z then Num 0 else Num ((w - d) / 2)
  | _, _ => NaN
  end.

(** [getPosition()], from [component.dimensions], [this.screenWidth] and
    [this.screenHeight]. *)
Definition getPosition (dims : dimensions) (screenWidth screenHeight : number)
    : obj value :=
  let pos := [] in
  let pos :=
    if String.eqb (typeof (d_x dims)) "number" then obj_set pos "x" (d_x dims)
    else obj_set pos "x" (VNum (centered screenWidth (d_width dims))) in
  if String.eqb (typeof (d_y dims)) "number" then obj_set pos "y" (d_y dims)
  else obj_set pos "y" (VNum (centered screenHeight (d_height dims))).

(** ** More example states *)

(** The runner constructed for the environment [prod]. *)
Definition started_runner : world :=
  Eval vm_compute in fst (build runner (Some [("env", VStr "prod")]) empty_world).

(** ** Histories of calls *)

(** The callback [watchForClose] hands to [onCloseWindow]: the child window
    was closed from outside. *)
Definition windowClosed (invoke : func -> option js_error -> res unit)
    (self : nat) : act unit :=
  callProp invoke self "onClose" None ;;;
  destroy self.

(** What the page does with the class: the constructor, the methods it
    calls, and what it delivers to an instance (the messages INIT, ERROR and
    CLOSE of the child, the expiry of the timeout, the settling of the close
    request, the closing of the child window). *)
Inductive call : Type :=
| New (c : component) (o : options)
| Render (self : nat) (element : option string) (ctx : option context)
| UpdateProps (self : nat) (props : obj value)
| InitMessage (self : nat)
| ErrorMessage (self : nat) (data : string)
| CloseMessage (self : nat)
| Fail (self : nat) (err : js_error)
| Expire (self : nat)
| Close (self : nat)
| CloseSettled (self : nat) (delivery : res unit)
| WindowClosed (self : nat)
| Destroy (self : nat).

Section Histories.

Variable urlEncode : string -> string.
Variable fn_toString : func -> string.
Variable call0 : func -> value.
Variable stringifyWithFunctions : obj value -> string.
Variable validate : component -> options -> res unit.
Variable validateProps : component -> obj value -> res unit.
Variable overlay : context -> bool.
Variable hasRenderHook : context -> bool.
Variable invoke : func -> option js_error -> res unit.

(** The state a call leaves, whether it returns or throws. *)
Definition perform (k : call) (w : world) : world :=
  match k with
  | New c o => fst (constructor urlEncode fn_toString call0 validate validateProps c o w)
  | Render self element ctx => fst (render overlay hasRenderHook self element ctx w)
  | UpdateProps self props =>
      fst (updateProps urlEncode fn_toString call0 stringifyWithFunctions validateProps
             self props w)
  | InitMessage self =>
      fst (onInitMessage urlEncode fn_toString call0 stringifyWithFunctions validateProps
             invoke self w)
  | ErrorMessage self data => fst (onErrorMessage invoke self data w)
  | CloseMessage self => fst (close invoke self w)
  | Fail self err => fst (error invoke self err w)
  | Expire self => fst (timeoutExpired fn_toString invoke self w)
  | Close self => fst (close invoke self w)
  | CloseSettled self delivery => fst (closeSettled self delivery w)
  | WindowClosed self => fst (windowClosed invoke self w)
  | Destroy self => fst (destroy self w)
  end.

(** The state after a history of calls on the empty page. *)
Definition after (calls : list call) : world :=
  fold_left (fun w k => perform k w) calls empty_world.

End Histories.

(** The cleanup actions registered after the construction: they neither take
    the instance out of the active list nor release the parent style sheet. *)
Definition registrable (t : task) : bool :=
  negb (task_eqb TUnregister t) && negb (covers ParentStyle t).

(** What the operations short of a teardown do to one instance, one
    assignment at a time. *)
Inductive tweak : instance -> instance -> Prop :=
| tweak_props i p : tweak i (with_props p i)
| tweak_url i u : tweak i (with_url u i)
| tweak_window i x : tweak i (with_window x i)
| tweak_context i x : tweak i (with_context x i)
| tweak_onInit i x : tweak i (with_onInit x i)
| tweak_register i t :
    registrable t = true -> tweak i (with_tasks (i_cleanupTasks i ++ [t]) i)
| tweak_acquire i r : tweak i (with_resources (i_resources i ++ [r]) i).

Inductive tweaked : instance -> instance -> Prop :=
| tweaked_refl i : tweaked i i
| tweaked_step i j k : tweaked i j -> tweak j k -> tweaked i k.

(** The active list is as it was, no instance is created or dropped, and
    each has only changed by such assignments. *)
Definition calmly (w w' : world) : Prop :=
  activeComponents w' = activeComponents w
  /\ forall j,
       match lookup j (heap w), lookup j (heap w') with
       | Some i, Some i' => tweaked i i'
       | None, None => True
       | _, _ => False
       end.

Definition calm {A : Type} (m : act A) : Prop :=
  forall w, calmly w (fst (m w)).

(** What the operations do to one instance, one assignment at a time. Every
    cleanup action the code registers leaves the parent style sheet alone. *)
Inductive change : instance -> instance -> Prop :=
| change_props i p : change i (with_props p i)
| change_url i u : change i (with_url u i)
| change_window i x : change i (with_window x i)
| change_context i x : change i (with_context x i)
| change_onInit i x : change i (with_onInit x i)
| change_register i t :
    covers ParentStyle t = false -> change i (with_tasks (i_cleanupTasks i ++ [t]) i)
| change_acquire i r : change i (with_resources (i_resources i ++ [r]) i)
| change_task i t : In t (i_cleanupTasks i) -> change i (task_instance t i)
| change_clear i : change i (with_tasks [] i).

Inductive changed : instance -> instance -> Prop :=
| changed_refl i : changed i i
| changed_step i j k : changed i j -> change j k -> changed i k.

(** A world evolves when no instance enters the active list, none is created
    or dropped, and each has only changed by such assignments. *)
Definition evolves (w w' : world) : Prop :=
  incl (activeComponents w') (activeComponents w)
  /\ forall j,
       match lookup j (heap w), lookup j (heap w') with
       | Some i, Some i' => changed i i'
       | None, None => True
       | _, _ => False
       end.

Definition quiet {A : Type} (m : act A) : Prop :=
  forall w, evolves w (fst (m w)).

(** Every instance is still there, changed by such assignments only. *)
Definition grows (w w' : world) : Prop :=
  forall j i, lookup j (heap w) = Some i ->
    exists i', lookup j (heap w') = Some i' /\ changed i i'.

(** The cleanup actions of an instance leave the parent style sheet alone. *)
Definition spares_style (i : instance) : Prop :=
  forall t, In t (i_cleanupTasks i) -> covers ParentStyle t = false.

(** The definitions a history constructs are told apart by their identity. *)
Definition distinct_definitions (calls : list call) : Prop :=
  forall c o c' o',
    In (New c o) calls -> In (New c' o') calls -> c_ref c = c_ref c' -> c = c'.

(** No two entries of the active list are instances of one singleton. *)
Definition one_per_singleton (w : world) : Prop :=
  forall j1 j2 i1 i2,
    In j1 (activeComponents w) -> In j2 (activeComponents w) ->
    lookup j1 (heap w) = Some i1 -> lookup j2 (heap w) = Some i2 ->
    c_singleton (i_component i1) = true ->
    c_ref (i_component i1) = c_ref (i_component i2) ->
    j1 = j2.

(** Every instance is an instance of a definition the history constructed. *)
Definition constructed_by (calls : list call) (w : world) : Prop :=
  forall j i, lookup j (heap w) = Some i -> exists o, In (New (i_component i) o) calls.

(** How often the removal from the active list is registered. *)
Definition unregisters (i : instance) : nat :=
  List.length (filter (task_eqb TUnregister) (i_cleanupTasks i)).

(** The removal is registered once for an instance in the active list and
    not at all for another. *)
Definition listed_once (w : world) : Prop :=
  forall j i, lookup j (heap w) = Some i ->
    unregisters i = if existsb (Nat.eqb j) (activeComponents w) then 1 else 0.

(** The instance a call is made on; for a construction, the new instance. *)
Definition subject (k : call) (w : world) : nat :=
  match k with
  | New _ _ => counter w
  | Render self _ _ | UpdateProps self _ | InitMessage self | ErrorMessage self _
  | CloseMessage self | Fail self _ | Expire self | Close self | CloseSettled self _
  | WindowClosed self | Destroy self => self
  end.

(** An operation on an instance leaves the other entries of the active list
    where they are. *)
Definition polite {A : Type} (self : nat) (m : act A) : Prop :=
  forall w, sound w -> listed_once w ->
    listed_once (fst (m w))
    /\ forall j, j <> self ->
         (In j (activeComponents (fst (m w))) <-> In j (activeComponents w)).

(** ** Steps of an operation *)

(** The state with one instance replaced, and with one more identity used. *)
Definition put (self : nat) (i : instance) (w : world) : world :=
  {| activeComponents := activeComponents w; heap := store self i (heap w);
     counter := counter w; timers := timers w; log := log w |}.

Definition bump (w : world) : world :=
  {| activeComponents := activeComponents w; heap := heap w;
     counter := S (counter w); timers := timers w; log := log w |}.

(** The instance that has acquired resources and registered their release. *)
Definition holding (rs : list resource) (i : instance) : instance :=
  with_tasks (i_cleanupTasks i ++ [TRelease rs]) (with_resources (i_resources i ++ rs) i).

(** The instance with a field set and its deletion registered. *)
Definition keeping (f : field) (g : instance -> instance) (i : instance) : instance :=
  with_tasks (i_cleanupTasks (g i) ++ [TDelete f]) (g i).

(** ** What a render leaves *)

(** The state after [render] has run through on an instance without a child
    surface, for the resolved context: the surface opened, then the URL
    loaded; the timeout armed if there is one; every acquisition paired with
    its release, in the order of the code, which calls [watchForClose] in
    [open] and again at the end. *)
Definition rendered (overlay hasRenderHook : context -> bool) (self : nat)
    (x : context) (element : option string) (inst : instance) (w : world) : world :=
  let n := counter w in
  {| activeComponents := activeComponents w;
     heap :=
       store self
         {| i_component := i_component inst; i_props := i_props inst;
            i_url := i_url inst; i_window := Some n; i_context := Some x;
            i_onInit := i_onInit inst;
            i_cleanupTasks :=
              i_cleanupTasks inst
              ++ [TDelete FContext; TRelease [Surface n]; TDelete FWindow;
                  TRelease [CloseWatcher (S n); UnloadWatcher (S n)];
                  TRelease [MessageListener n]]
              ++ (if overlay x then [TRelease [Overlay; OverlayStyle]] else [])
              ++ [TRelease [CloseWatcher (S (S n)); UnloadWatcher (S (S n))]];
            i_resources :=
              i_resources inst
              ++ [Surface n; CloseWatcher (S n); UnloadWatcher (S n); MessageListener n]
              ++ (if overlay x then [Overlay; OverlayStyle] else [])
              ++ [CloseWatcher (S (S n)); UnloadWatcher (S (S n))] |}
         (heap w);
     counter := S (S (S n));
     timers :=
       timers w
       ++ (if truthy (get (i_props inst) "timeout")
           then [(self, get (i_props inst) "timeout")] else []);
     log :=
       log w ++ (if hasRenderHook x then [Hook self x] else [])
       ++ [Open self x element n; LoadUrl self (i_url inst)] |}.

(** ** Hijacked renders *)

(** The page with the elements a render has pointed at a child window: each
    with the value of its [target] attribute. *)
Record page : Type := {
  p_world : world;
  p_targets : obj string
}.

Section Hijack.

Variable overlay : context -> bool.
(** [this.childWindowName], which the constructor sets. *)
Variable childWindowName : nat -> string.

(** [renderHijack(el, context = CONTEXT_TYPES.LIGHTBOX)]: a render that
    leaves the loading of the URL to the link or form [el]. *)
Definition renderHijack (self : nat) (el : string) (ctx : option context)
    : page -> page * res unit :=
  fun pg =>
    let context := match ctx with Some x => x | None => Lightbox end in
    match (inst <~ this self ;;
           lift (validateRender inst (Some context)) ;;;
           setForCleanup self FContext (with_context (Some context))) (p_world pg) with
    | (w1, Throw e) => ({| p_world := w1; p_targets := p_targets pg |}, Throw e)
    | (w1, Ok _) =>
        let targets := obj_set (p_targets pg) el (childWindowName self) in
        match (open self None context ;;;
               listen self ;;;
               runTimeout self ;;;
               (if overlay context then createOverlayTemplate self else ret tt)) w1 with
        | (w2, r) => ({| p_world := w2; p_targets := targets |}, r)
        end
    end.

End Hijack.

(** The state after [renderHijack] has run through: as after [render], but
    with no URL loaded, no hook called and one pair of close watchers. *)
Definition hijacked (overlay : context -> bool) (self : nat) (x : context)
    (inst : instance) (w : world) : world :=
  let n := counter w in
  {| activeComponents := activeComponents w;
     heap :=
       store self
         {| i_component := i_component inst; i_props := i_props inst;
            i_url := i_url inst; i_window := Some n; i_context := Some x;
            i_onInit := i_onInit inst;
            i_cleanupTasks :=
              i_cleanupTasks inst
              ++ [TDelete FContext; TRelease [Surface n]; TDelete FWindow;
                  TRelease [CloseWatcher (S n); UnloadWatcher (S n)];
                  TRelease [MessageListener n]]
              ++ (if overlay x then [TRelease [Overlay; OverlayStyle]] else []);
            i_resources :=
              i_resources inst
              ++ [Surface n; CloseWatcher (S n); UnloadWatcher (S n); MessageListener n]
              ++ (if overlay x then [Overlay; OverlayStyle] else []) |}
         (heap w);
     counter := S (S n);
     timers :=
       timers w
       ++ (if truthy (get (i_props inst) "timeout")
           then [(self, get (i_props inst) "timeout")] else []);
     log := log w ++ [Open self x None n] |}.

(** ** More examples *)

(** A component that allows popups only and declares lightbox as its default. *)
Definition gated : component :=
  {| c_ref := 5; c_tag := "gated"; c_url := "https://x.example/gate";
     c_envUrls := [];
     c_contexts := fun ctx => match ctx with Popup => true | _ => false end;
     c_defaultContext := Some Lightbox;
     c_props := [];
     c_singleton := false |}.

Definition started_gated : world :=
  Eval vm_compute in fst (build gated None empty_world).

(** The history of the examples, with the stand-ins of the example page. *)
Definition example_after (calls : list call) : world :=
  after noEncoding nativeSource returnsUndefined jsonOfProps accept acceptProps
    overlayOf noHook callbackReturns calls.

(** Every child window of the example has one name. *)
Definition childName (self : nat) : string := "xcomponent-child".

(** ** Wrapped callbacks *)

(** The wrappers [normalizeProp] puts around a function before it binds it,
    by the flags of the prop. *)
Definition wrapped (prop : propDef) (f : func) : func :=
  let f := if denodeify prop then FDenodeify f else f in
  let f := if once prop then FOnce f else f in
  if memoize prop then FMemoize f else f.

(** * Properties *)

(** ** Ordered maps *)

Lemma obj_get_set_same {A : Type} (o : obj A) (k : string) (v : A) :
  obj_get (obj_set o k v) k = Some v.
Proof.
  induction o as [|[k' v'] o IH]; simpl.
  - now rewrite String.eqb_refl.
  - destruct (String.eqb k' k) eqn:E; simpl.
    + now rewrite String.eqb_refl.
    + now rewrite E.
Qed.

Lemma obj_get_set_other {A : Type} (o : obj A) (k k' : string) (v : A) :
  k' <> k -> obj_get (obj_set o k v) k' = obj_get o k'.
Proof.
  intros Hne. induction o as [|[k1 v1] o IH]; simpl.
  - destruct (String.eqb k k') eqn:E; [|reflexivity].
    apply String.eqb_eq in E. congruence.
  - destruct (String.eqb k1 k) eqn:E; simpl.
    + apply String.eqb_eq in E. subst k1.
      destruct (String.eqb k k') eqn:E'; [|reflexivity].
      apply String.eqb_eq in E'. congruence.
    + now rewrite IH.
Qed.

Lemma keys_set_in {A : Type} (o : obj A) (k : string) (v : A) :
  In k (keys o) -> keys (obj_set o k v) = keys o.
Proof.
  induction o as [|[k1 v1] o IH]; simpl; [tauto|].
  intros Hin. destruct (String.eqb k1 k) eqn:E; simpl.
  - apply String.eqb_eq in E. now subst.
  - f_equal. apply IH. destruct Hin as [->|]; [|assumption].
    now rewrite String.eqb_refl in E.
Qed.

Lemma keys_set_new {A : Type} (o : obj A) (k : string) (v : A) :
  ~ In k (keys o) -> keys (obj_set o k v) = (keys o ++ [k])%list.
Proof.
  induction o as [|[k1 v1] o IH]; simpl; [reflexivity|].
  intros Hnin. destruct (String.eqb k1 k) eqn:E; simpl.
  - apply String.eqb_eq in E. tauto.
  - f_equal. apply IH. tauto.
Qed.

Lemma keys_set_iff {A : Type} (o : obj A) (k k' : string) (v : A) :
  In k' (keys (obj_set o k v)) <-> k' = k \/ In k' (keys o).
Proof.
  destruct (in_dec string_dec k (keys o)) as [Hin|Hnin].
  - rewrite keys_set_in by assumption. split; [tauto|].
    intros [->|]; assumption.
  - rewrite keys_set_new by assumption. rewrite in_app_iff. simpl.
    split; intros H; repeat destruct H as [H|H]; subst; tauto.
Qed.

Lemma keys_set_NoDup {A : Type} (o : obj A) (k : string) (v : A) :
  NoDup (keys o) -> NoDup (keys (obj_set o k v)).
Proof.
  intros Hnd. destruct (in_dec string_dec k (keys o)) as [Hin|Hnin].
  - now rewrite keys_set_in.
  - rewrite keys_set_new by assumption.
    apply NoDup_app; [assumption|repeat constructor; simpl; tauto|].
    intros x Hx [<-|[]]. tauto.
Qed.

Lemma obj_get_in_keys {A : Type} (o : obj A) (k : string) :
  In k (keys o) <-> exists v, obj_get o k = Some v.
Proof.
  induction o as [|[k1 v1] o IH]; simpl.
  - split; [tauto|]. intros [v H]. discriminate.
  - destruct (String.eqb k1 k) eqn:E.
    + apply String.eqb_eq in E. split; eauto.
    + rewrite IH. split; [|tauto]. intros [H|H]; [|assumption].
      subst. now rewrite String.eqb_refl in E.
Qed.

Lemma obj_get_In {A : Type} (o : obj A) (k : string) (v : A) :
  obj_get o k = Some v -> In (k, v) o.
Proof.
  induction o as [|[k1 v1] o IH]; simpl; [discriminate|].
  destruct (String.eqb k1 k) eqn:E.
  - apply String.eqb_eq in E. intros [= ->]. subst. now left.
  - intros H. right. now apply IH.
Qed.

(** ** The key set of the normalized props *)

Section NormalizeFacts.

Variable fn_toString : func -> string.
Variable call0 : func -> value.

Local Abbreviation normProp := (normalizeProp fn_toString call0).
Local Abbreviation normKeys := (normalizeKeys fn_toString call0).
Local Abbreviation normProps := (normalizeProps fn_toString call0).

Lemma coerce_bindable (self : nat) (prop : propDef) (v : value) :
  bindable prop v = true -> exists r, coerce fn_toString self prop v = Ok r.
Proof.
  unfold bindable, coerce. intros H.
  destruct (String.eqb (ptype prop) "boolean"); [eauto|].
  destruct (String.eqb (ptype prop) "function"); simpl in H.
  - destruct (truthy v) eqn:T; simpl in *; [|eauto].
    destruct v; try discriminate; eauto.
  - repeat match goal with |- context [if ?b then _ else _] => destruct b end; eauto.
Qed.

Lemma coerce_throws (self : nat) (prop : propDef) (v : value) (e : js_error) :
  coerce fn_toString self prop v = Throw e -> bindable prop v = false.
Proof.
  intros H. destruct (bindable prop v) eqn:B; [|reflexivity].
  destruct (coerce_bindable self prop v B) as [r Hr]. congruence.
Qed.

Lemma normalizeKeys_keys (c : component) (self : nat) (props : obj value) :
  forall ks acc result,
    normKeys c self props ks acc = Ok result ->
    (forall k, In k (keys result) <-> In k ks \/ In k (keys acc))
    /\ (NoDup (keys acc) -> NoDup (keys result))
    /\ (NoDup (keys acc ++ ks) -> keys result = (keys acc ++ ks)%list).
Proof.
  induction ks as [|key ks IH]; simpl; intros acc result H.
  - injection H as <-. rewrite app_nil_r. repeat split; tauto.
  - simpl in H.
    destruct (normProp c self props key) as [v|e] eqn:E;
      simpl in H; [|discriminate].
    destruct (IH _ _ H) as (Hk & Hnd & Heq). split; [|split].
    + intros k. rewrite Hk, keys_set_iff. intuition (subst; auto).
    + intros Hacc. apply Hnd. now apply keys_set_NoDup.
    + intros Hall.
      assert (Hnin : ~ In key (keys acc)).
      { intros Hin. apply NoDup_remove_2 in Hall. apply Hall.
        rewrite in_app_iff. tauto. }
      rewrite Heq; rewrite keys_set_new by assumption.
      * now rewrite <- app_assoc.
      * now rewrite <- app_assoc.
Qed.

Lemma normalizeKeys_get (c : component) (self : nat) (props : obj value) :
  forall ks acc result,
    normKeys c self props ks acc = Ok result ->
    forall k,
      (In k ks -> exists v, obj_get result k = Some v /\ normProp c self props k = Ok v)
      /\ (~ In k ks -> obj_get result k = obj_get acc k).
Proof.
  induction ks as [|key ks IH]; simpl; intros acc result H k.
  - injection H as <-. tauto.
  - simpl in H.
    destruct (normProp c self props key) as [v|e] eqn:E;
      simpl in H; [|discriminate].
    destruct (IH _ _ H k) as [Hin Hout]. split.
    + intros [<-|Hk].
      * destruct (in_dec string_dec key ks) as [Hi|Hn]; [now apply Hin|].
        exists v. split; [|exact E].
        rewrite (Hout Hn). apply obj_get_set_same.
      * now apply Hin.
    + intros Hn. rewrite Hout by tauto. apply obj_get_set_other.
      intros ->. tauto.
Qed.

Lemma normalizeKeys_throws (c : component) (self : nat) (props : obj value) :
  forall ks acc e,
    normKeys c self props ks acc = Throw e ->
    exists k, In k ks /\ normProp c self props k = Throw e.
Proof.
  induction ks as [|key ks IH]; simpl; intros acc e H; [discriminate|].
  simpl in H.
  destruct (normProp c self props key) as [v|e'] eqn:E;
    simpl in H.
  - destruct (IH _ _ H) as (k & Hk & Hk'). eauto.
  - injection H as ->. eauto.
Qed.

(** Normalization reads the raw input at the declared keys only. *)
Lemma withDefault_ext (prop : propDef) (p q : obj value) (k : string) :
  obj_get p k = obj_get q k -> withDefault call0 prop p k = withDefault call0 prop q k.
Proof.
  intros H. unfold withDefault, read, hasOwnProperty. now rewrite H.
Qed.

Lemma normalizeKeys_ext (c : component) (self : nat) (p q : obj value) :
  forall ks acc,
    (forall k, In k ks -> obj_get p k = obj_get q k) ->
    normKeys c self p ks acc = normKeys c self q ks acc.
Proof.
  induction ks as [|key ks IH]; simpl; intros acc H; [reflexivity|].
  simpl.
  assert (E : normProp c self p key
              = normProp c self q key).
  { unfold normalizeProp, normalizeValue.
    destruct (obj_get (c_props c) key); [|reflexivity].
    rewrite (withDefault_ext _ p q key); [reflexivity|]. apply H. now left. }
  rewrite E. destruct (normProp c self q key); simpl;
    [|reflexivity].
  apply IH. intros k Hk. apply H. now right.
Qed.


End NormalizeFacts.

(** ** Strings *)

Lemma append_nil_r (s : string) : s ++ "" = s.
Proof. induction s; simpl; [reflexivity|now rewrite IHs]. Qed.

Lemma append_assoc (a b c : string) : (a ++ b) ++ c = a ++ (b ++ c).
Proof. induction a; simpl; [reflexivity|now rewrite IHa]. Qed.

Lemma length_append (a b : string) :
  String.length (a ++ b) = String.length a + String.length b.
Proof. induction a; simpl; [reflexivity|now rewrite IHa]. Qed.

(** ** Decimal text *)

Lemma read_uint_text (u : uint) (rest : string) :
  starts_with_digit rest = false ->
  read_uint (NilEmpty.string_of_uint u ++ rest) = (u, rest).
Proof.
  intros Hrest. induction u; simpl; try (rewrite IHu; reflexivity).
  destruct rest as [|c r]; [reflexivity|]. simpl in *.
  destruct (digit_of c); [discriminate|reflexivity].
Qed.

Lemma to_uint_pos_shape (p : positive) :
  exists c r, NilEmpty.string_of_uint (Pos.to_uint p) = String c r
              /\ is_space c = false /\ c <> "-"%char /\ c <> "+"%char
              /\ Nat.eqb (nat_of_ascii c) 34 = false /\ is_ws c = false
              /\ (forall k : string -> option (value * string),
                    match c with
                    | "n" | "t" | "f" | "[" | "{" | "-" => k r
                    | _ => None
                    end%char = None).
Proof.
  pose proof (DecimalPos.Unsigned.to_uint_nonnil p) as Hn.
  destruct (Pos.to_uint p) eqn:E; [congruence|..]; simpl;
    eexists; eexists; (split; [reflexivity|]);
    repeat split; try reflexivity; try discriminate.
Qed.

Lemma to_uint_pos_normal (p : positive) :
  match Pos.to_uint p with
  | Nil => False
  | D0 _ => False
  | _ => True
  end.
Proof.
  pose proof (DecimalPos.Unsigned.to_uint_nonnil p) as Hn.
  assert (Hfix : unorm (Pos.to_uint p) = Pos.to_uint p).
  { rewrite <- (DecimalPos.Unsigned.to_of (Pos.to_uint p)).
    now rewrite DecimalPos.Unsigned.of_to. }
  destruct (Pos.to_uint p) eqn:E; try exact I; [congruence|].
  unfold unorm in Hfix. simpl nzhead in Hfix.
  destruct (nzhead u) eqn:Hz; try discriminate.
  - injection Hfix as <-.
    pose proof (DecimalPos.Unsigned.to_uint_nonzero p) as H0. congruence.
  - now apply DecimalFacts.nzhead_nonzero in Hz.
Qed.

Lemma parseInt_string_of_Z (z : Z) : parseInt_string (string_of_Z z) = Num z.
Proof.
  destruct z as [|p|p]; [reflexivity|..]; unfold string_of_Z, string_of_N; simpl N.to_uint.
  - destruct (to_uint_pos_shape p) as (c & r & E & Hs & Hm & Hp & _).
    unfold parseInt_string. rewrite E. simpl. rewrite Hs.
    replace (let '(neg, s2) := match c with
                               | "-"%char => (true, r)
                               | "+"%char => (false, r)
                               | _ => (false, String c r)
                               end in _)
      with (match read_uint (String c r) with
            | (Nil, _) => NaN
            | (u, _) => Num (Z.of_N (N.of_uint u))
            end).
    2:{ destruct c as [[] [] [] [] [] [] [] []]; try reflexivity; congruence. }
    rewrite <- E, <- (append_nil_r (NilEmpty.string_of_uint _)).
    rewrite read_uint_text by reflexivity.
    pose proof (DecimalPos.Unsigned.to_uint_nonnil p) as Hn.
    pose proof (DecimalPos.Unsigned.of_to p) as Hof.
    destruct (Pos.to_uint p); try congruence; unfold N.of_uint; rewrite Hof; reflexivity.
  - unfold parseInt_string. simpl.
    rewrite <- (append_nil_r (NilEmpty.string_of_uint _)).
    rewrite read_uint_text by reflexivity.
    pose proof (DecimalPos.Unsigned.to_uint_nonnil p) as Hn.
    pose proof (DecimalPos.Unsigned.of_to p) as Hof.
    destruct (Pos.to_uint p); try congruence; unfold N.of_uint; rewrite Hof; reflexivity.
Qed.

(** ** Defaults and repeated normalization *)

Section Idempotence.

Variable fn_toString : func -> string.
Variable call0 : func -> value.

Local Abbreviation normProp := (normalizeProp fn_toString call0).
Local Abbreviation normKeys := (normalizeKeys fn_toString call0).
Local Abbreviation normProps := (normalizeProps fn_toString call0).

Lemma withDefault_empty (prop : propDef) (k : string) :
  inherited k = VUndefined ->
  withDefault call0 prop [] k = defaultValue call0 prop.
Proof.
  intros Hk. unfold withDefault, defaultValue, read. cbn [obj_get hasOwnProperty andb negb].
  rewrite Hk. now destruct (truthy (def prop)).
Qed.

Lemma truthy_nonempty (v : value) : truthy v = true -> nonempty v = true.
Proof. destruct v; simpl; try discriminate; auto. Qed.

Lemma withDefault_present (prop : propDef) (p : obj value) (k : string) (v : value) :
  obj_get p k = Some v -> nonempty v = true -> withDefault call0 prop p k = v.
Proof.
  intros Hg Hn. unfold withDefault, read, hasOwnProperty. rewrite Hg, Hn. reflexivity.
Qed.

Lemma withDefault_stored (prop : propDef) (raw p : obj value) (k : string) :
  obj_get p k = Some (withDefault call0 prop raw k) ->
  withDefault call0 prop p k = withDefault call0 prop raw k.
Proof.
  intros Hg.
  destruct (nonempty (withDefault call0 prop raw k)) eqn:Hn.
  - now apply withDefault_present.
  - unfold withDefault at 1. unfold read, hasOwnProperty. rewrite Hg, Hn. simpl.
    destruct (truthy (def prop)) eqn:Hd; [|reflexivity].
    unfold withDefault in Hn |- *. rewrite Hd in *.
    destruct (hasOwnProperty raw k && nonempty (read raw k)) eqn:Hh; simpl in *;
      [|reflexivity].
    apply andb_true_iff in Hh. destruct Hh as [_ Hh]. congruence.
Qed.

Lemma parseInt_Num (z : Z) : parseInt fn_toString (VNum (Num z)) = Num z.
Proof. unfold parseInt. simpl. apply parseInt_string_of_Z. Qed.

Lemma coerce_settled (self : nat) (prop : propDef) (raw p : obj value)
    (k : string) (v : value) :
  settles fn_toString call0 prop raw k = true ->
  coerce fn_toString self prop (withDefault call0 prop raw k) = Ok v ->
  obj_get p k = Some v ->
  coerce fn_toString self prop (withDefault call0 prop p k) = Ok v.
Proof.
  unfold settles, coerce. intros Hs Hc Hg.
  destruct (String.eqb (ptype prop) "boolean").
  { injection Hc as <-. rewrite (withDefault_present prop p k Hg) by reflexivity.
    simpl. reflexivity. }
  destruct (String.eqb (ptype prop) "function").
  { apply andb_true_iff in Hs. destruct Hs as [Ht Hno].
    apply negb_true_iff in Ht, Hno. rewrite Ht, Hno in Hc. simpl in Hc.
    injection Hc as <-. rewrite (withDefault_stored prop raw p k Hg).
    now rewrite Ht, Hno. }
  destruct (String.eqb (ptype prop) "string").
  { injection Hc as <-. unfold or_else in *.
    destruct (truthy (withDefault call0 prop raw k)) eqn:Ht.
    - rewrite (withDefault_stored prop raw p k Hg). now rewrite Ht.
    - simpl in Hs. unfold withDefault at 1. unfold read, hasOwnProperty.
      rewrite Hg. simpl.
      destruct (truthy (def prop)) eqn:Hd; simpl in *; [|reflexivity].
      unfold withDefault in Ht. rewrite Hd in Ht.
      apply negb_true_iff in Hs. rewrite Hs in Ht. simpl in Ht. now rewrite Ht. }
  destruct (String.eqb (ptype prop) "object").
  { injection Hc as <-. now rewrite (withDefault_stored prop raw p k Hg). }
  destruct (String.eqb (ptype prop) "number"); [|assumption].
  injection Hc as <-. apply andb_true_iff in Hs. destruct Hs as [_ Hs].
  destruct (parseInt fn_toString (or_else (withDefault call0 prop raw k) (VNum (Num 0))))
    as [|z] eqn:Hp; [discriminate|].
  rewrite (withDefault_present prop p k Hg) by reflexivity.
  unfold or_else. simpl. destruct (Z.eqb z 0) eqn:Hz; simpl.
  - apply Z.eqb_eq in Hz. subst. now rewrite parseInt_Num.
  - now rewrite parseInt_Num.
Qed.

Lemma normalizeKeys_congr (c : component) (self : nat) (p q : obj value) :
  forall ks acc,
    (forall k, In k ks -> normProp c self q k = normProp c self p k) ->
    normKeys c self q ks acc = normKeys c self p ks acc.
Proof.
  induction ks as [|key ks IH]; simpl; intros acc H; [reflexivity|].
  rewrite (H key) by now left.
  destruct (normProp c self p key); simpl; [|reflexivity].
  apply IH. intros k Hk. apply H. now right.
Qed.


End Idempotence.

(** ** JSON text read back *)

Lemma read_string_escape (s rest : string) :
  read_string (escape s ++ String dquote rest) = Some (s, rest).
Proof.
  induction s as [|c s IH]; [reflexivity|].
  cbn [escape]. rewrite append_assoc.
  destruct c as [[] [] [] [] [] [] [] []];
    match goal with
    | |- context [escape_char ?c] =>
        let e := eval vm_compute in (escape_char c) in
        change (escape_char c) with e
    end;
    simpl; rewrite IH; reflexivity.
Qed.

Lemma read_json_uint_pos (p : positive) (rest : string) :
  starts_with_digit rest = false ->
  read_json_uint (NilEmpty.string_of_uint (Pos.to_uint p) ++ rest) = Some (Npos p, rest).
Proof.
  intros Hrest. unfold read_json_uint. rewrite read_uint_text by assumption.
  pose proof (to_uint_pos_normal p) as Hn.
  pose proof (DecimalPos.Unsigned.of_to p) as Hof.
  destruct (Pos.to_uint p); try contradiction; unfold N.of_uint; now rewrite Hof.
Qed.

#[local] Arguments read_json_uint : simpl never.
#[local] Arguments read_string : simpl never.

Lemma parse_value_pos (fuel : nat) (p : positive) (rest : string) :
  starts_with_digit rest = false ->
  parse_value (S fuel) (NilEmpty.string_of_uint (Pos.to_uint p) ++ rest)
  = Some (VNum (Num (Zpos p)), rest).
Proof.
  intros Hrest. pose proof (read_json_uint_pos p rest Hrest) as Hr.
  pose proof (to_uint_pos_normal p) as Hn.
  destruct (Pos.to_uint p) as [|u|u|u|u|u|u|u|u|u|u]; try contradiction;
    cbn [NilEmpty.string_of_uint append] in *;
    simpl; rewrite Hr; reflexivity.
Qed.

Lemma parse_value_neg (fuel : nat) (p : positive) (rest : string) :
  starts_with_digit rest = false ->
  parse_value (S fuel) (("-" ++ NilEmpty.string_of_uint (Pos.to_uint p)) ++ rest)
  = Some (VNum (Num (Zneg p)), rest).
Proof.
  intros Hrest. simpl. now rewrite read_json_uint_pos.
Qed.

Lemma parse_value_string (fuel : nat) (s rest : string) :
  parse_value (S fuel) (quote s ++ rest) = Some (VStr s, rest).
Proof.
  unfold quote. cbn [append]. rewrite append_assoc. cbn [append].
  change (parse_value (S fuel) (String dquote (escape s ++ String dquote rest)))
    with (match read_string (escape s ++ String dquote rest) with
          | Some (t, rest0) => Some (VStr t, rest0)
          | None => None
          end).
  now rewrite read_string_escape.
Qed.

Lemma opens_app (t r : string) :
  opens t = true ->
  opens (t ++ r) = true /\ skip_ws (t ++ r) = t ++ r
  /\ peek "]" (t ++ r) = None /\ peek "}" (t ++ r) = None.
Proof.
  destruct t as [|c t]; [discriminate|]. simpl. intros H.
  apply andb_true_iff in H. destruct H as [H H3].
  apply andb_true_iff in H. destruct H as [H1 H2].
  apply negb_true_iff in H1, H2, H3. rewrite H1, H2, H3. auto.
Qed.

Lemma opens_pos (p : positive) : opens (NilEmpty.string_of_uint (Pos.to_uint p)) = true.
Proof.
  pose proof (DecimalPos.Unsigned.to_uint_nonnil p) as Hn.
  destruct (Pos.to_uint p); try congruence; reflexivity.
Qed.

Lemma length_pos (p : positive) : 1 <= String.length (NilEmpty.string_of_uint (Pos.to_uint p)).
Proof.
  pose proof (DecimalPos.Unsigned.to_uint_nonnil p) as Hn.
  destruct (Pos.to_uint p); try congruence; simpl; lia.
Qed.

Section ValueInduction.

Variable P : value -> Prop.
Hypothesis HUndefined : P VUndefined.
Hypothesis HNull : P VNull.
Hypothesis HBool : forall b, P (VBool b).
Hypothesis HNum : forall n, P (VNum n).
Hypothesis HStr : forall s, P (VStr s).
Hypothesis HFun : forall f, P (VFun f).
Hypothesis HArr : forall items, Forall P items -> P (VArr items).
Hypothesis HObj : forall fields, Forall (fun kv => P (snd kv)) fields -> P (VObj fields).

Lemma value_induction (v : value) : P v.
Proof.
  revert v. fix IH 1. intros [| |b|n|s|f|items|fields].
  - exact HUndefined.
  - exact HNull.
  - apply HBool.
  - apply HNum.
  - apply HStr.
  - apply HFun.
  - apply HArr. induction items as [|x l IHl]; constructor; [apply IH|exact IHl].
  - apply HObj. induction fields as [|[k x] l IHl]; constructor; [apply IH|exact IHl].
Qed.

End ValueInduction.

Lemma parse_items_step (fuel : nat) (s : string) :
  parse_items (S fuel) s
  = match parse_value fuel s with
    | Some (v, r1) =>
        match peek "," (skip_ws r1) with
        | Some r2 =>
            match parse_items fuel r2 with
            | Some (vs, rest) => Some (v :: vs, rest)
            | None => None
            end
        | None =>
            match peek "]" (skip_ws r1) with
            | Some rest => Some ([v], rest)
            | None => None
            end
        end
    | None => None
    end.
Proof. reflexivity. Qed.

Lemma items_read_back (items : list value) :
  Forall reads_back items -> forallb json_data items = true -> items <> [] ->
  opens (join "," (map item_text items)) = true
  /\ fold_right (fun x n => S (size x + n)) 0 items
     <= S (String.length (join "," (map item_text items)))
  /\ forall fuel rest,
       fold_right (fun x n => S (size x + n)) 0 items <= fuel ->
       parse_items fuel (join "," (map item_text items) ++ String "]" rest)
       = Some (items, rest).
Proof.
  induction 1 as [|x xs Hx Hxs IH]; [congruence|].
  intros Hd _. simpl in Hd. apply andb_true_iff in Hd. destruct Hd as [Hdx Hdxs].
  destruct (Hx Hdx) as (t & Ht & Ho & Hl & Hp).
  assert (Et : item_text x = t) by (unfold item_text; now rewrite Ht).
  destruct xs as [|y ys].
  - simpl. rewrite Et. split; [assumption|]. split; [lia|].
    intros fuel rest Hf. destruct fuel as [|fuel]; [lia|].
    rewrite parse_items_step, Hp by (simpl; auto; lia). reflexivity.
  - destruct IH as (Ho' & Hl' & Hp'); [assumption|discriminate|].
    set (J := join "," (map item_text (y :: ys))) in *.
    change (join "," (map item_text (x :: y :: ys))) with (item_text x ++ "," ++ J).
    rewrite Et. split; [now apply opens_app|]. split.
    + rewrite length_append. simpl in *. lia.
    + intros fuel rest Hf. destruct fuel as [|fuel]; [simpl in Hf; lia|].
      rewrite append_assoc. cbn [append].
      rewrite parse_items_step. cbn [fold_right] in Hf.
      rewrite Hp by (simpl; auto; lia). cbn [skip_ws is_ws nat_of_ascii]. simpl peek.
      cbv beta iota. rewrite Hp' by (simpl; lia). reflexivity.
Qed.

Lemma member_shape (k t rest : string) :
  (quote k ++ ":" ++ t) ++ rest
  = String dquote (escape k ++ String dquote (String ":" (t ++ rest))).
Proof.
  unfold quote. cbn [append]. rewrite !append_assoc. reflexivity.
Qed.

Lemma parse_members_step (fuel : nat) (s : string) :
  parse_members (S fuel) s
  = match peek dquote (skip_ws s) with
    | Some r0 =>
        match read_string r0 with
        | Some (k, r1) =>
            match peek ":" (skip_ws r1) with
            | Some r2 =>
                match parse_value fuel r2 with
                | Some (v, r3) =>
                    match peek "," (skip_ws r3) with
                    | Some r4 =>
                        match parse_members fuel r4 with
                        | Some (kvs, rest) => Some ((k, v) :: kvs, rest)
                        | None => None
                        end
                    | None =>
                        match peek "}" (skip_ws r3) with
                        | Some rest => Some ([(k, v)], rest)
                        | None => None
                        end
                    end
                | None => None
                end
            | None => None
            end
        | None => None
        end
    | None => None
    end.
Proof. reflexivity. Qed.

Lemma members_read_back (fields : list (string * value)) :
  Forall (fun kv => reads_back (snd kv)) fields ->
  forallb (fun kv : string * value => let (_, x) := kv in json_data x) fields = true ->
  fields <> [] ->
  opens (join "," (map member_text fields)) = true
  /\ fold_right (fun (kv : string * value) n => let (_, x) := kv in S (size x + n)) 0 fields
     <= S (String.length (join "," (map member_text fields)))
  /\ forall fuel rest,
       fold_right (fun (kv : string * value) n => let (_, x) := kv in S (size x + n)) 0 fields
       <= fuel ->
       parse_members fuel (join "," (map member_text fields) ++ String "}" rest)
       = Some (fields, rest).
Proof.
  induction 1 as [|[k x] xs Hx Hxs IH]; [congruence|].
  intros Hd _. simpl in Hd, Hx. apply andb_true_iff in Hd. destruct Hd as [Hdx Hdxs].
  destruct (Hx Hdx) as (t & Ht & Ho & Hl & Hp).
  assert (Et : member_text (k, x) = quote k ++ ":" ++ t).
  { unfold member_text, item_text. now rewrite Ht. }
  destruct xs as [|y ys].
  - cbn [map join]. rewrite Et. split; [reflexivity|]. split.
    + rewrite length_append. simpl. lia.
    + intros fuel rest Hf. destruct fuel as [|fuel]; [simpl in Hf; lia|].
      rewrite member_shape, parse_members_step.
      change (skip_ws (String dquote ?r)) with (String dquote r).
      cbn [peek]. rewrite Ascii.eqb_refl, read_string_escape.
      cbn [skip_ws is_ws nat_of_ascii]. simpl peek. cbv beta iota.
      rewrite Hp by (simpl in *; auto; lia). reflexivity.
  - destruct IH as (Ho' & Hl' & Hp'); [assumption|discriminate|].
    set (J := join "," (map member_text (y :: ys))) in *.
    change (join "," (map member_text ((k, x) :: y :: ys)))
      with (member_text (k, x) ++ "," ++ J).
    rewrite Et. split; [reflexivity|]. split.
    + rewrite !length_append. simpl in *. lia.
    + intros fuel rest Hf. destruct fuel as [|fuel]; [simpl in Hf; lia|].
      rewrite append_assoc, member_shape, parse_members_step.
      change (skip_ws (String dquote ?r)) with (String dquote r).
      cbn [peek]. rewrite Ascii.eqb_refl, read_string_escape.
      cbn [skip_ws is_ws nat_of_ascii]. simpl peek.
      cbn [fold_right] in Hf. cbn [append]. cbv beta iota.
      rewrite Hp by (simpl; auto; lia). cbv beta iota.
      cbn [skip_ws is_ws nat_of_ascii]. simpl peek. cbv beta iota.
      rewrite Hp' by (simpl; lia). reflexivity.
Qed.

Lemma obj_set_new {A : Type} (o : obj A) (k : string) (v : A) :
  ~ In k (keys o) -> obj_set o k v = (o ++ [(k, v)])%list.
Proof.
  induction o as [|[k1 v1] o IH]; simpl; [reflexivity|].
  intros Hnin. destruct (String.eqb k1 k) eqn:E.
  - apply String.eqb_eq in E. tauto.
  - f_equal. apply IH. tauto.
Qed.

Lemma fold_set_distinct {A : Type} (fields : list (string * A)) :
  forall acc,
    NoDup (keys acc ++ map fst fields) ->
    fold_left (fun o kv => obj_set o (fst kv) (snd kv)) fields acc = (acc ++ fields)%list.
Proof.
  induction fields as [|[k v] fields IH]; simpl; intros acc Hnd.
  - now rewrite app_nil_r.
  - assert (Hnin : ~ In k (keys acc)).
    { apply NoDup_remove_2 in Hnd. intros Hin. apply Hnd. rewrite in_app_iff. tauto. }
    rewrite obj_set_new by assumption. rewrite IH.
    + now rewrite <- app_assoc.
    + unfold keys in *. rewrite map_app. simpl. now rewrite <- app_assoc.
Qed.

Lemma nodupb_NoDup (l : list string) : nodupb l = true -> NoDup l.
Proof.
  induction l as [|x l IH]; simpl; intros H; constructor.
  - apply andb_true_iff in H. destruct H as [H _]. apply negb_true_iff in H.
    intros Hin. assert (existsb (String.eqb x) l = true); [|congruence].
    apply existsb_exists. exists x. split; [assumption|apply String.eqb_refl].
  - apply IH. apply andb_true_iff in H. tauto.
Qed.

Lemma members_all_written (fields : list (string * value)) :
  Forall (fun kv => reads_back (snd kv)) fields ->
  forallb (fun kv : string * value => let (_, x) := kv in json_data x) fields = true ->
  flat_map (fun '(k, x) => match json_text x with
                           | Some t => [quote k ++ ":" ++ t]
                           | None => []
                           end) fields
  = map member_text fields.
Proof.
  induction 1 as [|[k x] xs Hx Hxs IH]; [reflexivity|].
  intros Hd. simpl in Hd, Hx. apply andb_true_iff in Hd. destruct Hd as [Hdx Hdxs].
  destruct (Hx Hdx) as (t & Ht & _). cbn [flat_map map].
  rewrite IH by assumption. cbn [member_text]. unfold item_text at 1.
  now rewrite Ht.
Qed.

Lemma json_data_reads_back (v : value) : reads_back v.
Proof.
  induction v using value_induction; unfold reads_back; intros Hd;
    try discriminate.
  - exists "null". repeat split; [simpl; lia|].
    intros [|fuel] rest Hf _; [simpl in Hf; lia|reflexivity].
  - exists (if b then "true" else "false"). destruct b; repeat split; try (simpl; lia);
      intros [|fuel] rest Hf _; (simpl in Hf; lia) || reflexivity.
  - destruct n as [|z]; [discriminate|]. exists (string_of_Z z).
    split; [reflexivity|]. destruct z as [|p|p]; unfold string_of_Z, string_of_N;
      simpl N.to_uint.
    + repeat split; [simpl; lia|].
      intros [|fuel] rest Hf Hr; [simpl in Hf; lia|]. simpl.
      unfold read_json_uint. simpl. destruct rest as [|c r]; [reflexivity|].
      simpl in Hr. simpl. destruct (digit_of c); [discriminate|reflexivity].
    + split; [apply opens_pos|]. split; [apply length_pos|].
      intros [|fuel] rest Hf Hr; [simpl in Hf; lia|]. now apply parse_value_pos.
    + split; [reflexivity|]. split; [simpl; lia|].
      intros [|fuel] rest Hf Hr; [simpl in Hf; lia|]. now apply parse_value_neg.
  - exists (quote s). repeat split; [simpl; lia|].
    intros [|fuel] rest Hf _; [simpl in Hf; lia|]. apply parse_value_string.
  - simpl in Hd. eexists. split; [reflexivity|].
    change (map _ items) with (map item_text items).
    destruct items as [|x xs].
    + repeat split; [simpl; lia|].
      intros [|fuel] rest Hf _; [simpl in Hf; lia|reflexivity].
    + destruct (items_read_back H Hd) as (Ho & Hl & Hp); [discriminate|].
      set (J := join "," (map item_text (x :: xs))) in *.
      split; [reflexivity|]. split.
      * cbn [size]. cbn [append String.length]. rewrite length_append.
        cbn [String.length]. lia.
      * intros fuel rest Hf _. destruct fuel as [|fuel]; [simpl in Hf; lia|].
        cbn [append]. rewrite append_assoc. cbn [append].
        change (parse_value (S fuel) (String "[" ?r))
          with (match peek "]" (skip_ws r) with
                | Some rest0 => Some (VArr [], rest0)
                | None =>
                    match parse_items fuel r with
                    | Some (items, rest0) => Some (VArr items, rest0)
                    | None => None
                    end
                end).
        destruct (opens_app J (String "]" rest) Ho) as (_ & Hs & Hk & _).
        rewrite Hs, Hk, Hp by (cbn [size] in Hf; lia). reflexivity.
  - simpl in Hd. apply andb_true_iff in Hd. destruct Hd as [Hd Hnd].
    exists ("{" ++ join "," (map member_text fields) ++ "}").
    split; [cbn [json_text]; now rewrite (members_all_written H Hd)|].
    destruct fields as [|kv kvs].
    + repeat split; [simpl; lia|].
      intros [|fuel] rest Hf _; [simpl in Hf; lia|reflexivity].
    + destruct (members_read_back H Hd) as (Ho & Hl & Hp); [discriminate|].
      set (J := join "," (map member_text (kv :: kvs))) in *.
      split; [reflexivity|]. split.
      * cbn [size]. cbn [append String.length]. rewrite length_append.
        cbn [String.length]. lia.
      * intros fuel rest Hf _. destruct fuel as [|fuel]; [simpl in Hf; lia|].
        cbn [append]. rewrite append_assoc. cbn [append].
        change (parse_value (S fuel) (String "{" ?r))
          with (match peek "}" (skip_ws r) with
                | Some rest0 => Some (VObj [], rest0)
                | None =>
                    match parse_members fuel r with
                    | Some (fields, rest0) =>
                        Some (VObj (fold_left (fun o kv => obj_set o (fst kv) (snd kv))
                                      fields []), rest0)
                    | None => None
                    end
                end).
        destruct (opens_app J (String "}" rest) Ho) as (_ & Hs & _ & Hk).
        rewrite Hs, Hk, Hp by (cbn [size] in Hf; lia).
        rewrite fold_set_distinct by (simpl; now apply nodupb_NoDup). reflexivity.
Qed.

(** What [JSON.stringify] writes for JSON data, [JSON.parse] reads back as the
    same value. *)
Lemma JSON_parse_stringify (v : value) :
  json_data v = true ->
  exists t, JSON_stringify v = Some t /\ JSON_parse t = Some v.
Proof.
  intros Hd. destruct (json_data_reads_back v Hd) as (t & Ht & _ & Hl & Hp).
  exists t. split; [assumption|]. unfold JSON_parse.
  rewrite <- (append_nil_r t) at 2. rewrite Hp by (auto; lia). reflexivity.
Qed.

(** ** The query string *)

Section QueryFacts.

Variable urlEncode : string -> string.
Variable fn_toString : func -> string.

Lemma filter_entry (a b : string) :
  filter truthy [VStr (a ++ "=" ++ b)] = [VStr (a ++ "=" ++ b)].
Proof. simpl. destruct a; reflexivity. Qed.

Lemma queryEntry_part (props : obj value) (key : string) :
  map (js_toString fn_toString) (filter truthy [queryEntry urlEncode props key])
  = match queryPart urlEncode key (get props key) with
    | Some part => [part]
    | None => []
    end.
Proof.
  unfold queryEntry, queryPart.
  destruct (get props key) as [| |b|n|s|f|items|fields]; try reflexivity.
  - destruct b; [|reflexivity].
    change (negb (truthy (VBool true))) with false. cbv iota.
    now rewrite filter_entry.
  - destruct n as [|z]; [reflexivity|].
    change (truthy (VNum (Num z))) with (negb (Z.eqb z 0)).
    destruct (Z.eqb z 0); [reflexivity|].
    change (negb (negb false)) with false. cbv iota. now rewrite filter_entry.
  - change (truthy (VStr s)) with (negb (String.eqb s "")).
    destruct (String.eqb s ""); [reflexivity|].
    change (negb (negb false)) with false. cbv iota. now rewrite filter_entry.
  - change (negb (truthy (VArr items))) with false. cbv iota.
    now rewrite filter_entry.
  - change (negb (truthy (VObj fields))) with false. cbv iota.
    now rewrite filter_entry.
Qed.

Lemma queryEntries_parts (props : obj value) (ks : list string) :
  map (js_toString fn_toString) (filter truthy (map (queryEntry urlEncode props) ks))
  = flat_map (fun key => match queryPart urlEncode key (get props key) with
                         | Some part => [part]
                         | None => []
                         end) ks.
Proof.
  induction ks as [|k ks IH]; [reflexivity|].
  cbn [map flat_map]. rewrite <- IH, <- queryEntry_part.
  cbn [filter]. destruct (truthy (queryEntry urlEncode props k)); reflexivity.
Qed.

Lemma obj_get_filter_keys {A : Type} (p : string -> bool) (o : obj A) (k : string) :
  obj_get (filter (fun kv => p (fst kv)) o) k = if p k then obj_get o k else None.
Proof.
  induction o as [|[k1 v1] o IH]; simpl; [now destruct (p k)|].
  destruct (p k1) eqn:E1; simpl.
  - destruct (String.eqb k1 k) eqn:E; [|assumption].
    apply String.eqb_eq in E. subst. now rewrite E1.
  - rewrite IH. destruct (String.eqb k1 k) eqn:E; [|reflexivity].
    apply String.eqb_eq in E. subst. now rewrite E1.
Qed.

Lemma parts_without_functions (props : obj value) :
  let kept := filter (fun kv => not_function props (fst kv)) props in
  flat_map (fun key => match queryPart urlEncode key (get props key) with
                       | Some part => [part]
                       | None => []
                       end) (keys props)
  = flat_map (fun key => match queryPart urlEncode key (get kept key) with
                         | Some part => [part]
                         | None => []
                         end) (keys kept).
Proof.
  intros kept.
  assert (Hget : forall k, not_function props k = true -> get kept k = get props k).
  { intros k Hk. unfold get, kept. rewrite obj_get_filter_keys. now rewrite Hk. }
  unfold kept at 2. generalize props at 2 4 as l.
  induction l as [|[k v] l IH]; [reflexivity|].
  cbn [keys map flat_map filter fst]. fold (keys l). rewrite IH.
  destruct (not_function props k) eqn:Hk.
  - cbn [keys map flat_map fst]. now rewrite Hget.
  - unfold not_function in Hk. destruct (get props k); try discriminate. reflexivity.
Qed.


End QueryFacts.

(** ** The render context *)

Section ContextFacts.

Variable urlEncode : string -> string.
Variable fn_toString : func -> string.
Variable call0 : func -> value.

(** C3, as amended. With no context given: a target element selects iframe, or
    throws when iframe is not allowed; without an element a declared default
    of lightbox or popup is used; otherwise (no default, or iframe as the
    default) lightbox is chosen if allowed, else popup if allowed, else an
    error is thrown. And for a component that allows iframe, maps [prod] to
    [https://x.example/run] and declares the one string prop [env], the prop
    env = prod and a target element give iframe and the URL
    [https://x.example/run?env=prod]. *)
Theorem getRenderContext_priority (c : component) (el : option string) :
  (given el = true -> c_contexts c Iframe = true -> getRenderContext c el = Ok Iframe)
  /\ (given el = true -> c_contexts c Iframe = false ->
      exists msg, getRenderContext c el = Throw (Error msg))
  /\ (given el = false -> c_defaultContext c = Some Lightbox ->
      getRenderContext c el = Ok Lightbox)
  /\ (given el = false -> c_defaultContext c = Some Popup ->
      getRenderContext c el = Ok Popup)
  /\ (given el = false ->
      c_defaultContext c = None \/ c_defaultContext c = Some Iframe ->
      (c_contexts c Lightbox = true -> getRenderContext c el = Ok Lightbox)
      /\ (c_contexts c Lightbox = false -> c_contexts c Popup = true ->
          getRenderContext c el = Ok Popup)
      /\ (c_contexts c Lightbox = false -> c_contexts c Popup = false ->
          exists msg, getRenderContext c el = Throw (Error msg)))
  /\ (forall self prop,
        urlEncode "env" = "env" -> urlEncode "prod" = "prod" ->
        given el = true -> c_contexts c Iframe = true ->
        obj_get (c_envUrls c) "prod" = Some "https://x.example/run" ->
        c_props c = [("env", prop)] -> ptype prop = "string" ->
        getRenderContext c el = Ok Iframe
        /\ (p <- normalizeProps fn_toString call0 c self (Some [("env", VStr "prod")]) ;;
            buildUrl urlEncode fn_toString c p)
           = Ok (VStr "https://x.example/run?env=prod")).
Proof.
  unfold getRenderContext.
  split; [|split; [|split; [|split; [|split]]]].
  - intros -> ->. reflexivity.
  - intros -> ->. eexists. reflexivity.
  - intros -> ->. reflexivity.
  - intros -> ->. reflexivity.
  - intros -> Hdef. split; [|split].
    + intros ->. destruct Hdef as [-> | ->]; reflexivity.
    + intros -> ->. destruct Hdef as [-> | ->]; reflexivity.
    + intros -> ->. destruct Hdef as [-> | ->]; eexists; reflexivity.
  - intros self prop Henv Hprod -> -> Hurl Hprops Htype. split; [reflexivity|].
    assert (Hn : normalizeProps fn_toString call0 c self (Some [("env", VStr "prod")])
                 = Ok [("env", VStr "prod")]).
    { unfold normalizeProps. rewrite Hprops. cbn [keys map fst normalizeKeys].
      unfold normalizeProp, normalizeValue. rewrite Hprops.
      cbn [obj_get String.eqb Ascii.eqb Bool.eqb].
      unfold coerce. rewrite Htype. reflexivity. }
    assert (Hq : propsToQuery urlEncode fn_toString [("env", VStr "prod")] = "env=prod").
    { unfold propsToQuery. cbn [keys map fst]. unfold queryEntry.
      cbn [get obj_get String.eqb Ascii.eqb Bool.eqb truthy negb].
      rewrite Henv, Hprod. reflexivity. }
    rewrite Hn. cbn [bind]. unfold buildUrl. rewrite Hq.
    cbn [get obj_get String.eqb Ascii.eqb Bool.eqb truthy negb js_toString].
    rewrite Hurl. reflexivity.
Qed.

End ContextFacts.

(** [framed] declares iframe as its default; without an element the default
    is passed over and lightbox is chosen. *)
Lemma getRenderContext_skips_iframe_default :
  c_defaultContext framed = Some Iframe
  /\ getRenderContext framed None = Ok Lightbox
  /\ getRenderContext framed None <> Ok Iframe.
Proof. repeat split. discriminate. Qed.

(** The runner rendered into an element: iframe, and the URL of [prod] with
    the query string [env=prod]. *)
Lemma getRenderContext_priority_witness :
  getRenderContext runner (Some "#container") = Ok Iframe
  /\ (p <- normalizeProps nativeSource returnsUndefined runner 0
             (Some [("env", VStr "prod")]) ;;
      buildUrl noEncoding nativeSource runner p)
     = Ok (VStr "https://x.example/run?env=prod").
Proof.
  apply (proj2 (proj2 (proj2 (proj2 (proj2
           (getRenderContext_priority noEncoding nativeSource returnsUndefined runner
              (Some "#container")))))) 0 (plainProp "string" VUndefined));
    reflexivity.
Defined.

(** ** The heap *)

Lemma lookup_store_same (self : nat) (inst : instance) (h : list (nat * instance)) :
  lookup self (store self inst h) = Some inst.
Proof.
  induction h as [|[j old] h IH]; simpl.
  - now rewrite Nat.eqb_refl.
  - destruct (Nat.eqb j self) eqn:E; simpl.
    + now rewrite Nat.eqb_refl.
    + now rewrite E.
Qed.

Lemma lookup_store_other (self j : nat) (inst : instance) (h : list (nat * instance)) :
  j <> self -> lookup j (store self inst h) = lookup j h.
Proof.
  intros Hne. induction h as [|[k old] h IH]; simpl.
  - destruct (Nat.eqb self j) eqn:E; [|reflexivity].
    apply Nat.eqb_eq in E. congruence.
  - destruct (Nat.eqb k self) eqn:E; simpl.
    + apply Nat.eqb_eq in E. subst k.
      destruct (Nat.eqb self j) eqn:E'; [|reflexivity].
      apply Nat.eqb_eq in E'. congruence.
    + now rewrite IH.
Qed.

Lemma store_store (self : nat) (a b : instance) (h : list (nat * instance)) :
  store self a (store self b h) = store self a h.
Proof.
  induction h as [|[k old] h IH]; simpl.
  - now rewrite Nat.eqb_refl.
  - destruct (Nat.eqb k self) eqn:E; simpl.
    + now rewrite Nat.eqb_refl.
    + now rewrite E, IH.
Qed.

Lemma store_same (self : nat) (inst : instance) (h : list (nat * instance)) :
  lookup self h = Some inst -> store self inst h = h.
Proof.
  induction h as [|[k old] h IH]; simpl; [discriminate|].
  destruct (Nat.eqb k self) eqn:E.
  - apply Nat.eqb_eq in E. now intros [= ->]; subst.
  - intros H. now rewrite IH.
Qed.

(** ** Rejected renders *)

Section RenderFacts.

Variable overlay : context -> bool.
Variable hasRenderHook : context -> bool.

(** C2. A render of an instance that already has its child surface, or with
    an explicit context that the component does not allow, throws at once and
    leaves the whole state as it was: nothing is opened, acquired, registered
    or logged, whatever the element and the other arguments are. *)
Theorem render_rejected_state_unchanged (w : world) (self : nat) (inst : instance)
    (element : option string) (ctx : option context) :
  lookup self (heap w) = Some inst ->
  i_window inst <> None
  \/ (exists x, ctx = Some x /\ c_contexts (i_component inst) x = false) ->
  exists msg, render overlay hasRenderHook self element ctx w = (w, Throw (Error msg)).
Proof.
  intros Hl Hbad. unfold render, bindA, this. rewrite Hl.
  unfold lift, validateRender.
  destruct (i_window inst) as [win|].
  - eexists. reflexivity.
  - destruct Hbad as [Hw | (x & -> & Hx)]; [congruence|].
    rewrite Hx. eexists. reflexivity.
Qed.

End RenderFacts.

(** ** Destruction *)

Lemma runTask_eq (self : nat) (t : task) (inst : instance) (w : world) :
  lookup self (heap w) = Some inst ->
  runTask self t w = (after_tasks self [t] inst w, Ok tt).
Proof.
  intros Hl. unfold runTask, bindA, emit, after_tasks. cbn [fold_left map].
  destruct t as [|[]|rs]; simpl.
  - unfold setActive. simpl. now rewrite (@store_same self inst (heap w) Hl).
  - unfold update. simpl. now rewrite Hl.
  - unfold update. simpl. now rewrite Hl.
  - unfold update. simpl. now rewrite Hl.
Qed.

Lemma runTasks_eq (self : nat) (ts : list task) :
  forall (inst : instance) (w : world),
    lookup self (heap w) = Some inst ->
    runTasks self ts w = (after_tasks self ts inst w, Ok tt).
Proof.
  induction ts as [|t ts IH]; intros inst w Hl.
  - unfold after_tasks. simpl. rewrite app_nil_r, (@store_same self inst (heap w) Hl).
    destruct w; reflexivity.
  - cbn [runTasks]. unfold bindA. rewrite (@runTask_eq self t inst w Hl).
    rewrite (IH (task_instance t inst)).
    + unfold after_tasks. simpl. now rewrite store_store, <- app_assoc.
    + simpl. apply lookup_store_same.
Qed.

Lemma destroy_eq (self : nat) (inst : instance) (w : world) :
  lookup self (heap w) = Some inst ->
  destroy self w = (destroyed self inst w, Ok tt).
Proof.
  intros Hl. unfold destroy, cleanup, bindA, this. rewrite Hl.
  rewrite (@runTasks_eq self (i_cleanupTasks inst) inst w Hl). unfold update, destroyed.
  simpl. rewrite lookup_store_same, store_store. reflexivity.
Qed.

Lemma resource_eqb_eq (a b : resource) : resource_eqb a b = true <-> a = b.
Proof.
  destruct a, b; simpl; try (split; [discriminate|congruence]);
    try (rewrite Nat.eqb_eq; split; congruence); tauto.
Qed.

Lemma fold_window (ts : list task) (i : instance) :
  i_window (fold_left (fun i t => task_instance t i) ts i)
  = if existsb (task_eqb (TDelete FWindow)) ts then None else i_window i.
Proof.
  revert i. induction ts as [|t ts IH]; intros i; [reflexivity|].
  cbn [fold_left existsb]. rewrite IH.
  destruct t as [|[]|rs]; simpl; try reflexivity.
  now destruct (existsb _ ts).
Qed.

Lemma fold_context (ts : list task) (i : instance) :
  i_context (fold_left (fun i t => task_instance t i) ts i)
  = if existsb (task_eqb (TDelete FContext)) ts then None else i_context i.
Proof.
  revert i. induction ts as [|t ts IH]; intros i; [reflexivity|].
  cbn [fold_left existsb]. rewrite IH.
  destruct t as [|[]|rs]; simpl; try reflexivity.
  now destruct (existsb _ ts).
Qed.

Lemma fold_resources (ts : list task) (i : instance) :
  i_resources (fold_left (fun i t => task_instance t i) ts i)
  = filter (fun r => negb (existsb (covers r) ts)) (i_resources i).
Proof.
  revert i. induction ts as [|t ts IH]; intros i.
  - simpl. induction (i_resources i) as [|r rs IHr]; [reflexivity|].
    simpl. now rewrite <- IHr.
  - cbn [fold_left]. rewrite IH.
    destruct t as [|[]|rs]; simpl; try reflexivity.
    induction (i_resources i) as [|r l IHl]; [reflexivity|].
    simpl. destruct (held r rs); simpl; [assumption|].
    destruct (existsb (covers r) ts); simpl; [assumption|]. now rewrite IHl.
Qed.

Lemma fold_kept (ts : list task) (i : instance) :
  let i' := fold_left (fun i t => task_instance t i) ts i in
  i_component i' = i_component i /\ i_props i' = i_props i /\ i_url i' = i_url i
  /\ i_onInit i' = i_onInit i /\ i_cleanupTasks i' = i_cleanupTasks i.
Proof.
  revert i. induction ts as [|t ts IH]; intros i; [simpl; tauto|].
  cbn [fold_left]. cbv zeta in *.
  destruct (IH (task_instance t i)) as (H1 & H2 & H3 & H4 & H5).
  rewrite H1, H2, H3, H4, H5. destruct t as [|[]|rs]; simpl; tauto.
Qed.

Lemma nodup_nat_NoDup (l : list nat) : nodup_nat l = true <-> NoDup l.
Proof.
  induction l as [|x l IH]; simpl.
  - split; [constructor|reflexivity].
  - rewrite andb_true_iff, negb_true_iff, IH. split.
    + intros [Hx Hl]. constructor; [|assumption]. intros Hin.
      assert (existsb (Nat.eqb x) l = true); [|congruence].
      apply existsb_exists. exists x. split; [assumption|apply Nat.eqb_refl].
    + intros Hnd. inversion Hnd as [|? ? Hx Hl]; subst. split; [|assumption].
      destruct (existsb (Nat.eqb x) l) eqn:E; [|reflexivity].
      apply existsb_exists in E. destruct E as (y & Hy & Hxy).
      apply Nat.eqb_eq in Hxy. now subst.
Qed.

Lemma remove_at_incl (n : nat) (l : list nat) (x : nat) :
  In x (remove_at n l) -> In x l.
Proof.
  revert n. induction l as [|y l IH]; intros n; simpl; [destruct n; tauto|].
  destruct n; simpl; [tauto|]. intros [->|H]; [tauto|]. right. eapply IH, H.
Qed.

Lemma removelast_incl (l : list nat) (x : nat) : In x (removelast l) -> In x l.
Proof.
  induction l as [|y l IH]; simpl; [tauto|].
  destruct l; simpl in *; [tauto|]. intros [->|H]; tauto.
Qed.

Lemma splice1_incl (i : option nat) (l : list nat) (x : nat) :
  In x (splice1 i l) -> In x l.
Proof. destruct i; [apply remove_at_incl|apply removelast_incl]. Qed.

Lemma indexOf_None (x : nat) (l : list nat) : indexOf x l = None -> ~ In x l.
Proof.
  induction l as [|y l IH]; simpl; [tauto|].
  destruct (Nat.eqb y x) eqn:E; [discriminate|].
  destruct (indexOf x l); [discriminate|]. intros _ [->|H].
  - now rewrite Nat.eqb_refl in E.
  - now apply IH.
Qed.

Lemma remove_at_indexOf (x : nat) (l : list nat) (n : nat) :
  NoDup l -> indexOf x l = Some n -> ~ In x (remove_at n l).
Proof.
  revert n. induction l as [|y l IH]; intros n Hnd; simpl; [discriminate|].
  inversion Hnd as [|? ? Hy Hl]; subst.
  destruct (Nat.eqb y x) eqn:E.
  - intros [= <-]. apply Nat.eqb_eq in E. now subst.
  - destruct (indexOf x l) as [m|]; [|discriminate]. intros [= <-]. simpl.
    intros [->|H]; [now rewrite Nat.eqb_refl in E|]. now apply (IH m).
Qed.

Lemma splice1_removes (x : nat) (l : list nat) :
  NoDup l -> ~ In x (splice1 (indexOf x l) l).
Proof.
  intros Hnd. destruct (indexOf x l) as [n|] eqn:E; simpl.
  - now apply remove_at_indexOf.
  - intros H. apply removelast_incl in H. now apply indexOf_None in E.
Qed.

Lemma fold_active_incl (self : nat) (ts : list task) (l : list nat) (x : nat) :
  In x (fold_left (fun l t => task_active self t l) ts l) -> In x l.
Proof.
  revert l. induction ts as [|t ts IH]; intros l; [tauto|].
  cbn [fold_left]. intros H. apply IH in H.
  destruct t; simpl in H; try assumption. eapply splice1_incl, H.
Qed.

Lemma fold_active_removes (self : nat) (ts : list task) (l : list nat) :
  NoDup l -> existsb (task_eqb TUnregister) ts = true ->
  ~ In self (fold_left (fun l t => task_active self t l) ts l).
Proof.
  revert l. induction ts as [|t ts IH]; intros l Hnd; [discriminate|].
  cbn [fold_left existsb]. destruct t as [|f|rs].
  - intros _ H. apply fold_active_incl in H. simpl in H.
    now apply splice1_removes in H.
  - simpl. destruct f; now apply IH.
  - simpl. now apply IH.
Qed.

Lemma destroyed_torn_down (self : nat) (inst : instance) (w : world) :
  tidy w self inst = true -> torn_down (destroyed self inst w) self.
Proof.
  unfold tidy. rewrite !andb_true_iff. intros ((((Hw & Hc) & Hr) & Ha) & Hn).
  unfold torn_down, destroyed. cbn [heap activeComponents after_tasks].
  eexists. split; [apply lookup_store_same|].
  cbn [with_tasks i_cleanupTasks i_window i_context i_resources].
  rewrite fold_window, fold_context, fold_resources.
  split; [reflexivity|]. split; [|split; [|split]].
  - destruct (i_window inst); [now rewrite Hw|].
    destruct (existsb (task_eqb (TDelete FWindow)) (i_cleanupTasks inst)); reflexivity.
  - destruct (i_context inst); [now rewrite Hc|].
    destruct (existsb (task_eqb (TDelete FContext)) (i_cleanupTasks inst)); reflexivity.
  - intros r Hin. apply filter_In in Hin. destruct Hin as [Hin Hcov].
    rewrite forallb_forall in Hr. specialize (Hr r Hin).
    apply negb_true_iff in Hcov. rewrite Hcov, orb_false_r in Hr.
    now apply resource_eqb_eq.
  - apply nodup_nat_NoDup in Hn. apply orb_true_iff in Ha.
    destruct Ha as [Ha|Ha].
    + intros H. apply fold_active_incl in H. apply negb_true_iff in Ha.
      assert (existsb (Nat.eqb self) (activeComponents w) = true); [|congruence].
      apply existsb_exists. exists self. split; [assumption|apply Nat.eqb_refl].
    + now apply fold_active_removes.
Qed.

(** ** Callbacks, close and timeout *)

Section CallbackFacts.

Variable invoke : func -> option js_error -> res unit.

Lemma callProp_eq (self : nat) (name : string) (arg : option js_error)
    (inst : instance) (f : func) (w : world) :
  lookup self (heap w) = Some inst ->
  get (i_props inst) name = VFun f ->
  callProp invoke self name arg w = (logged [Call self name f arg] w, invoke f arg).
Proof.
  intros Hl Hf. unfold callProp, bindA, this. rewrite Hl, Hf. reflexivity.
Qed.

Lemma callProp_missing (self : nat) (name : string) (arg : option js_error)
    (inst : instance) (w : world) :
  lookup self (heap w) = Some inst ->
  (forall f, get (i_props inst) name <> VFun f) ->
  callProp invoke self name arg w
  = (w, Throw (TypeError ("this.props." ++ name ++ " is not a function"))).
Proof.
  intros Hl Hf. unfold callProp, bindA, this. rewrite Hl.
  destruct (get (i_props inst) name) as [| | | | |f| |]; try reflexivity.
  now destruct (Hf f).
Qed.

Lemma tidy_logged (es : list event) (w : world) (self : nat) (inst : instance) :
  tidy (logged es w) self inst = tidy w self inst.
Proof. reflexivity. Qed.

Lemma callback_destroy_eq (self : nat) (name : string) (arg : option js_error)
    (inst : instance) (f : func) (w : world) :
  lookup self (heap w) = Some inst ->
  get (i_props inst) name = VFun f ->
  (callProp invoke self name arg ;;; destroy self) w
  = match invoke f arg with
    | Ok _ => (destroyed self inst (logged [Call self name f arg] w), Ok tt)
    | Throw e => (logged [Call self name f arg] w, Throw e)
    end.
Proof.
  intros Hl Hf. unfold bindA. rewrite (@callProp_eq self name arg inst f w Hl Hf).
  destruct (invoke f arg) as [[]|e]; [|reflexivity].
  now rewrite (@destroy_eq self inst (logged _ w) Hl).
Qed.

Lemma close_eq (self : nat) (inst : instance) (f : func) (w : world) :
  lookup self (heap w) = Some inst ->
  get (i_props inst) "onClose" = VFun f ->
  close invoke self w
  = match invoke f None with
    | Ok _ =>
        (logged [Send (i_window inst) CLOSE None] (logged [Call self "onClose" f None] w),
         Ok tt)
    | Throw e => (logged [Call self "onClose" f None] w, Throw e)
    end.
Proof.
  intros Hl Hf. unfold close, bindA.
  rewrite (@callProp_eq self "onClose" None inst f w Hl Hf).
  destruct (invoke f None) as [[]|e]; [|reflexivity].
  unfold this. cbn [heap logged]. now rewrite Hl.
Qed.

Lemma closeSettled_eq (self : nat) (inst : instance) (delivery : res unit) (w : world) :
  lookup self (heap w) = Some inst ->
  closeSettled self delivery w
  = (destroyed self inst
       match delivery with
       | Ok _ => w
       | Throw e => logged [Warn "Error sending message to child" e] w
       end, Ok tt).
Proof.
  intros Hl. unfold closeSettled, bindA. destruct delivery as [[]|e].
  - unfold ret. now rewrite (@destroy_eq self inst w Hl).
  - unfold emit. erewrite destroy_eq by exact Hl. reflexivity.
Qed.

(** C9, as amended. On a rendered instance whose [onClose] prop is a function,
    [close()] calls the close callback first. When the callback returns,
    [close()] sends CLOSE to the child surface, and whatever the delivery
    comes to, the continuation destroys the instance and the returned future
    resolves: a failed delivery adds one warning to the log and nothing else.
    When the callback throws, [close()] throws what it threw: nothing is
    sent and the instance is as it was. When the prop is no function,
    [close()] throws before the call, and the state is unchanged. The
    continuation destroys the instance in any later state as well. *)
Theorem close_destroys_whatever_the_delivery (w : world) (self : nat)
    (inst : instance) (win : nat) (delivery : res unit) :
  lookup self (heap w) = Some inst ->
  i_window inst = Some win ->
  tidy w self inst = true ->
  (forall f,
     get (i_props inst) "onClose" = VFun f -> invoke f None = Ok tt ->
     exists w1 w2,
       close invoke self w = (w1, Ok tt)
       /\ log w1 = (log w ++ [Call self "onClose" f None; Send (Some win) CLOSE None])%list
       /\ closeSettled self delivery w1 = (w2, Ok tt)
       /\ log w2 = (log w1
                    ++ match delivery with
                       | Ok _ => []
                       | Throw e => [Warn "Error sending message to child" e]
                       end
                    ++ map (Cleanup self) (i_cleanupTasks inst))%list
       /\ torn_down w2 self)
  /\ (forall f e,
        get (i_props inst) "onClose" = VFun f -> invoke f None = Throw e ->
        close invoke self w = (logged [Call self "onClose" f None] w, Throw e))
  /\ ((forall f, get (i_props inst) "onClose" <> VFun f) ->
      close invoke self w
      = (w, Throw (TypeError "this.props.onClose is not a function")))
  /\ (forall w' inst',
        lookup self (heap w') = Some inst' -> tidy w' self inst' = true ->
        exists w2, closeSettled self delivery w' = (w2, Ok tt) /\ torn_down w2 self).
Proof.
  intros Hl Hw Ht. split; [|split; [|split]].
  - intros f Hf Hr. rewrite (@close_eq self inst f w Hl Hf), Hr, Hw.
    set (w1 := logged [Send (Some win) CLOSE None] (logged [Call self "onClose" f None] w)).
    assert (Hl1 : lookup self (heap w1) = Some inst) by exact Hl.
    exists w1. eexists. split; [reflexivity|]. split.
    { cbn [log logged w1]. now rewrite <- app_assoc. }
    rewrite (@closeSettled_eq self inst delivery w1 Hl1).
    split; [reflexivity|]. split.
    + destruct delivery as [[]|e]; cbn [log destroyed after_tasks logged app].
      * reflexivity.
      * now rewrite <- app_assoc.
    + apply destroyed_torn_down. now destruct delivery.
  - intros f e Hf Hr. now rewrite (@close_eq self inst f w Hl Hf), Hr.
  - intros Hf. unfold close, bindA.
    now rewrite (@callProp_missing self "onClose" None inst w Hl Hf).
  - intros w' inst' Hl' Ht'. rewrite (@closeSettled_eq self inst' delivery w' Hl').
    eexists. split; [reflexivity|]. apply destroyed_torn_down. now destruct delivery.
Qed.

End CallbackFacts.

Section TimeoutFacts.

Variable urlEncode : string -> string.
Variable fn_toString : func -> string.
Variable call0 : func -> value.
Variable stringifyWithFunctions : obj value -> string.
Variable validateProps : component -> obj value -> res unit.
Variable invoke : func -> option js_error -> res unit.

Lemma timeoutExpired_eq (self : nat) (inst : instance) (w : world) :
  lookup self (heap w) = Some inst ->
  settled (i_onInit inst) = Pending ->
  timeoutExpired fn_toString invoke self w
  = (fst ((callProp invoke self "onTimeout" (Some (timeoutError fn_toString inst)) ;;;
           destroy self) (put self (rejected (timeoutError fn_toString inst) inst) w)),
     Ok tt).
Proof.
  intros Hl Hp. unfold timeoutExpired. unfold bindA at 1. unfold this at 1. rewrite Hl, Hp.
  unfold bindA at 1. unfold update. rewrite Hl. reflexivity.
Qed.

(** C1, as amended. [runTimeout] arms one check when the [timeout] prop is
    truthy, and none otherwise. When the check expires on a pending init
    future, the future is rejected with the timing error, which names the
    component, the URL and the delay (written out where the numbers in them
    are safe integers). If [onTimeout] is a function it is
    then called with that error, once; if the call returns, the instance is
    destroyed: its cleanup actions run and it is fully torn down. If the
    call throws, or [onTimeout] is no function, the future swallows the
    error and the instance is not destroyed: it is the instance it was, with
    the init future rejected. When the init future is resolved, the expiry
    changes nothing and calls nothing. A settled future stays settled: a
    later [resolve] changes nothing. *)
Theorem timeout_rejects_pending_init_once (w : world) (self : nat) (inst : instance) :
  lookup self (heap w) = Some inst ->
  runTimeout self w
  = (if truthy (get (i_props inst) "timeout")
     then armed self (get (i_props inst) "timeout") w
     else w, Ok tt)
  /\ (safe_value (i_url inst) = true -> safe_value (get (i_props inst) "timeout") = true ->
      timeoutError fn_toString inst
      = Error ("[" ++ c_tag (i_component inst) ++ "] Loading component "
                   ++ c_tag (i_component inst) ++ " at "
                   ++ js_toString fn_toString (i_url inst) ++ " timed out after "
                   ++ js_toString fn_toString (get (i_props inst) "timeout")
                   ++ " milliseconds"))
  /\ (forall f,
        settled (i_onInit inst) = Pending ->
        get (i_props inst) "onTimeout" = VFun f ->
        invoke f (Some (timeoutError fn_toString inst)) = Ok tt ->
        tidy w self inst = true ->
        exists w' inst',
          timeoutExpired fn_toString invoke self w = (w', Ok tt)
          /\ log w' = (log w ++ Call self "onTimeout" f (Some (timeoutError fn_toString inst))
                             :: map (Cleanup self) (i_cleanupTasks inst))%list
          /\ lookup self (heap w') = Some inst'
          /\ settled (i_onInit inst') = Rejected (timeoutError fn_toString inst)
          /\ torn_down w' self)
  /\ (forall f e,
        settled (i_onInit inst) = Pending ->
        get (i_props inst) "onTimeout" = VFun f ->
        invoke f (Some (timeoutError fn_toString inst)) = Throw e ->
        timeoutExpired fn_toString invoke self w
        = (logged [Call self "onTimeout" f (Some (timeoutError fn_toString inst))]
             (put self (rejected (timeoutError fn_toString inst) inst) w), Ok tt))
  /\ (settled (i_onInit inst) = Pending ->
      (forall f, get (i_props inst) "onTimeout" <> VFun f) ->
      timeoutExpired fn_toString invoke self w
      = (put self (rejected (timeoutError fn_toString inst) inst) w, Ok tt))
  /\ (settled (i_onInit inst) = Resolved ->
      timeoutExpired fn_toString invoke self w = (w, Ok tt))
  /\ (settled (i_onInit inst) <> Pending ->
      resolveInit urlEncode fn_toString call0 stringifyWithFunctions validateProps self w
      = (w, Ok tt)).
Proof.
  intros Hl.
  set (err := timeoutError fn_toString inst).
  set (inst1 := rejected err inst).
  assert (Hl1 : lookup self (heap (put self inst1 w)) = Some inst1)
    by apply lookup_store_same.
  split; [|split; [reflexivity|split; [|split; [|split; [|split]]]]].
  - unfold runTimeout, bindA, this. rewrite Hl.
    destruct (truthy (get (i_props inst) "timeout")); reflexivity.
  - intros f Hp Hf Hr Ht. rewrite (@timeoutExpired_eq self inst w Hl Hp).
    fold err inst1.
    rewrite (@callback_destroy_eq invoke self "onTimeout" (Some err) inst1 f _ Hl1 Hf), Hr.
    cbn [fst]. eexists. eexists. split; [reflexivity|]. split; [|split; [|split]].
    + cbn [log destroyed after_tasks logged put i_cleanupTasks inst1 rejected with_onInit].
      now rewrite <- app_assoc.
    + cbn [heap destroyed]. apply lookup_store_same.
    + cbn [with_tasks i_onInit].
      destruct (fold_kept (i_cleanupTasks inst1) inst1) as (_ & _ & _ & Hk & _).
      rewrite Hk. reflexivity.
    + apply destroyed_torn_down. exact Ht.
  - intros f e Hp Hf Hr. rewrite (@timeoutExpired_eq self inst w Hl Hp).
    fold err inst1.
    now rewrite (@callback_destroy_eq invoke self "onTimeout" (Some err) inst1 f _ Hl1 Hf), Hr.
  - intros Hp Hf. rewrite (@timeoutExpired_eq self inst w Hl Hp).
    fold err inst1. unfold bindA.
    now rewrite (@callProp_missing invoke self "onTimeout" (Some err) inst1 _ Hl1 Hf).
  - intros Hr. unfold timeoutExpired, bindA, this. now rewrite Hl, Hr.
  - intros Hs. unfold resolveInit, bindA, this. rewrite Hl.
    destruct (settled (i_onInit inst)); [congruence|reflexivity|reflexivity].
Qed.

End TimeoutFacts.
(** ** Singletons *)

Lemma splice1_last (x : nat) (l : list nat) :
  ~ In x l -> splice1 (indexOf x (l ++ [x])) (l ++ [x]) = l.
Proof.
  induction l as [|y l IH]; simpl; intros Hnin.
  - now rewrite Nat.eqb_refl.
  - destruct (Nat.eqb y x) eqn:E.
    + apply Nat.eqb_eq in E. tauto.
    + assert (Hl : ~ In x l) by tauto. specialize (IH Hl).
      destruct (indexOf x (l ++ [x])) as [n|] eqn:En; simpl in *.
      * now rewrite IH.
      * apply indexOf_None in En. exfalso. apply En.
        rewrite in_app_iff. simpl. tauto.
Qed.

Lemma existsb_agree {A : Type} (f g : A -> bool) (l : list A) :
  (forall x, In x l -> f x = g x) -> existsb f l = existsb g l.
Proof.
  induction l as [|x l IH]; simpl; intros H; [reflexivity|].
  rewrite (H x) by now left. rewrite IH; [reflexivity|].
  intros y Hy. apply H. now right.
Qed.

Section ConstructorFacts.

Variable urlEncode : string -> string.
Variable fn_toString : func -> string.
Variable call0 : func -> value.
Variable validate : component -> options -> res unit.
Variable validateProps : component -> obj value -> res unit.

Local Abbreviation construct :=
  (constructor urlEncode fn_toString call0 validate validateProps).

Lemma alloc_eq (c : component) (w : world) :
  alloc c w = (allocated c w, Ok (counter w)).
Proof. reflexivity. Qed.

Lemma update_eq (self : nat) (f : instance -> instance) (inst : instance) (w : world) :
  lookup self (heap w) = Some inst ->
  update self f w
  = ({| activeComponents := activeComponents w; heap := store self (f inst) (heap w);
        counter := counter w; timers := timers w; log := log w |}, Ok tt).
Proof. intros Hl. unfold update. now rewrite Hl. Qed.

Lemma this_eq (self : nat) (inst : instance) (w : world) :
  lookup self (heap w) = Some inst -> this self w = (w, Ok inst).
Proof. intros Hl. unfold this. now rewrite Hl. Qed.

Lemma constructor_unfold (c : component) (o : options) (w : world) :
  construct c o w
  = match validate c o with
    | Throw e => (allocated c w, Throw e)
    | Ok _ =>
        if occupied c w
        then (allocated c w,
              Throw (Error (c_tag c ++ " is a singleton, and an only be instantiated once")))
        else
          (setProps urlEncode fn_toString call0 validateProps (counter w) (props_of o) ;;;
           acquire (counter w) ParentStyle ;;;
           update (counter w) (with_onInit {| settled := Pending; handlers := [] |}) ;;;
           ret (counter w)) (registered c w)
    end.
Proof.
  unfold constructor. unfold bindA at 1. rewrite alloc_eq.
  unfold bindA at 1. unfold lift. destruct (validate c o) as [[]|e]; [|reflexivity].
  unfold bindA at 1. unfold occupied. cbn [heap activeComponents allocated].
  destruct (c_singleton c && _); [reflexivity|].
  unfold setActive. unfold bindA at 1. unfold registerForCleanup.
  erewrite update_eq by apply lookup_store_same.
  cbn [heap activeComponents counter timers log allocated]. rewrite store_store.
  reflexivity.
Qed.

Lemma setProps_unfold (self : nat) (props : obj value) (inst : instance) (w : world) :
  lookup self (heap w) = Some inst ->
  setProps urlEncode fn_toString call0 validateProps self props w
  = match validateProps (i_component inst) props with
    | Throw e => (w, Throw e)
    | Ok _ =>
        match normalizeProps fn_toString call0 (i_component inst) self (Some props) with
        | Throw e => (w, Throw e)
        | Ok p =>
            let w1 := {| activeComponents := activeComponents w;
                         heap := store self (with_props p inst) (heap w);
                         counter := counter w; timers := timers w; log := log w |} in
            match buildUrl urlEncode fn_toString (i_component inst) p with
            | Throw e => (w1, Throw e)
            | Ok u =>
                ({| activeComponents := activeComponents w;
                    heap := store self (with_url u (with_props p inst)) (heap w);
                    counter := counter w; timers := timers w; log := log w |}, Ok tt)
            end
        end
    end.
Proof.
  intros Hl. unfold setProps. unfold bindA at 1. rewrite (@this_eq self inst w Hl).
  unfold bindA at 1. unfold lift.
  destruct (validateProps (i_component inst) props) as [[]|e]; [|reflexivity].
  unfold bindA at 1.
  destruct (normalizeProps fn_toString call0 (i_component inst) self (Some props))
    as [p|e]; [|reflexivity].
  unfold bindA at 1. rewrite (@update_eq self _ inst w Hl).
  unfold bindA at 1.
  destruct (buildUrl urlEncode fn_toString (i_component inst) p) as [u|e];
    [|reflexivity].
  erewrite update_eq by apply lookup_store_same.
  cbn [heap activeComponents counter timers log]. now rewrite store_store.
Qed.

Lemma constructor_blocked (c : component) (o : options) (w : world) :
  occupied c w = true -> exists w' e, construct c o w = (w', Throw e).
Proof.
  intros Hocc. rewrite constructor_unfold, Hocc.
  destruct (validate c o) as [[]|e]; eauto.
Qed.

Lemma constructor_succeeds (c : component) (o : options) (w : world)
    (p : obj value) (u : value) :
  validate c o = Ok tt -> occupied c w = false ->
  validateProps c (props_of o) = Ok tt ->
  normalizeProps fn_toString call0 c (counter w) (Some (props_of o)) = Ok p ->
  buildUrl urlEncode fn_toString c p = Ok u ->
  construct c o w = (constructed c p u w, Ok (counter w)).
Proof.
  intros Hv Hocc Hvp Hn Hb. rewrite constructor_unfold, Hv, Hocc.
  unfold bindA at 1.
  erewrite setProps_unfold by apply lookup_store_same.
  cbn [i_component with_tasks new_instance]. rewrite Hvp, Hn. cbv zeta. rewrite Hb.
  unfold bindA at 1. unfold acquire.
  erewrite update_eq by apply lookup_store_same.
  unfold bindA at 1.
  erewrite update_eq by apply lookup_store_same.
  unfold ret, constructed, registered.
  cbn [heap activeComponents counter timers log]. rewrite !store_store. reflexivity.
Qed.

Lemma constructor_ok (c : component) (o : options) (w w1 : world) (self : nat) :
  construct c o w = (w1, Ok self) ->
  self = counter w /\ occupied c w = false
  /\ exists p u, w1 = constructed c p u w.
Proof.
  intros H. pose proof H as H0. rewrite constructor_unfold in H.
  destruct (validate c o) as [[]|e] eqn:Hv; [|discriminate].
  destruct (occupied c w) eqn:Hocc; [discriminate|].
  unfold bindA at 1 in H.
  erewrite setProps_unfold in H by apply lookup_store_same.
  cbn [i_component with_tasks new_instance] in H.
  destruct (validateProps c (props_of o)) as [[]|e] eqn:Hvp; [|discriminate].
  destruct (normalizeProps fn_toString call0 c (counter w) (Some (props_of o)))
    as [p|e] eqn:Hn; [|discriminate].
  cbv zeta in H.
  destruct (buildUrl urlEncode fn_toString c p) as [u|e] eqn:Hb; [|discriminate].
  rewrite (@constructor_succeeds c o w p u Hv Hocc Hvp Hn Hb) in H0.
  injection H0 as <- <-. eauto.
Qed.

Lemma fresh_ids_lt (w : world) (j : nat) :
  fresh_ids w = true -> In j (activeComponents w) -> j < counter w.
Proof.
  unfold fresh_ids. rewrite forallb_forall. intros H Hin.
  apply Nat.ltb_lt. now apply H.
Qed.

Lemma fresh_ids_destroyed (self : nat) (inst : instance) (w : world) :
  fresh_ids w = true -> fresh_ids (destroyed self inst w) = true.
Proof.
  unfold fresh_ids. rewrite !forallb_forall. intros H j Hj. apply H.
  cbn [activeComponents destroyed after_tasks] in Hj.
  eapply fold_active_incl. exact Hj.
Qed.

(** The singleton check passes where the active list holds no instance of
    the component. *)
Lemma not_occupied_free (c : component) (w : world) :
  fresh_ids w = true ->
  (forall j inst,
     In j (activeComponents w) -> lookup j (heap w) = Some inst ->
     c_ref (i_component inst) <> c_ref c) ->
  occupied c w = false.
Proof.
  intros Hfresh Hfree. unfold occupied. apply andb_false_iff. right.
  apply not_true_is_false. intros He. apply existsb_exists in He.
  destruct He as (j & Hin & Hsame). unfold same_component in Hsame.
  cbn [heap allocated] in Hsame.
  pose proof (fresh_ids_lt w j Hfresh Hin) as Hlt.
  rewrite lookup_store_other in Hsame by lia.
  destruct (lookup j (heap w)) as [inst|] eqn:Hl; [|discriminate].
  apply Nat.eqb_eq in Hsame. exact (Hfree j inst Hin Hl Hsame).
Qed.

Lemma occupied_taken (c : component) (w : world) (j : nat) (inst : instance) :
  c_singleton c = true -> fresh_ids w = true ->
  In j (activeComponents w) -> lookup j (heap w) = Some inst ->
  c_ref (i_component inst) = c_ref c ->
  occupied c w = true.
Proof.
  intros Hs Hfresh Hin Hl Href. unfold occupied. rewrite Hs. cbn [andb allocated heap].
  apply existsb_exists. exists j. split; [assumption|].
  unfold same_component. rewrite lookup_store_other.
  - rewrite Hl. now apply Nat.eqb_eq.
  - pose proof (fresh_ids_lt w j Hfresh Hin). lia.
Qed.

(** C5. For a singleton component, in any state whose active list holds an
    instance of the component, the constructor throws: the singleton error,
    unless [validate] already refuses the options. In any state whose
    active list holds no instance of the component, whatever else it holds,
    a construction whose options validate and normalize succeeds and enters
    the new instance in the list, so a second construction throws. And
    destroying a tidy instance of the component, rendered or not, takes it
    out of the list: when it was the only instance of the component there,
    a construction succeeds in the state [destroy] leaves. *)
Theorem singleton_one_live_instance (c : component) (o : options) (w : world) :
  c_singleton c = true -> fresh_ids w = true ->
  ((exists j inst,
      In j (activeComponents w) /\ lookup j (heap w) = Some inst
      /\ c_ref (i_component inst) = c_ref c) ->
   construct c o w
   = (allocated c w,
      Throw match validate c o with
            | Throw e => e
            | Ok _ => Error (c_tag c ++ " is a singleton, and an only be instantiated once")
            end))
  /\ ((forall j inst,
         In j (activeComponents w) -> lookup j (heap w) = Some inst ->
         c_ref (i_component inst) <> c_ref c) ->
      forall p u,
        validate c o = Ok tt -> validateProps c (props_of o) = Ok tt ->
        normalizeProps fn_toString call0 c (counter w) (Some (props_of o)) = Ok p ->
        buildUrl urlEncode fn_toString c p = Ok u ->
        construct c o w = (constructed c p u w, Ok (counter w))
        /\ In (counter w) (activeComponents (constructed c p u w))
        /\ forall o2, exists w' e, construct c o2 (constructed c p u w) = (w', Throw e))
  /\ (forall self inst,
        lookup self (heap w) = Some inst -> tidy w self inst = true ->
        (forall j inst',
           In j (activeComponents w) -> lookup j (heap w) = Some inst' ->
           c_ref (i_component inst') = c_ref c -> j = self) ->
        exists w',
          destroy self w = (w', Ok tt)
          /\ ~ In self (activeComponents w')
          /\ forall o2 p2 u2,
               validate c o2 = Ok tt -> validateProps c (props_of o2) = Ok tt ->
               normalizeProps fn_toString call0 c (counter w') (Some (props_of o2)) = Ok p2 ->
               buildUrl urlEncode fn_toString c p2 = Ok u2 ->
               construct c o2 w' = (constructed c p2 u2 w', Ok (counter w'))).
Proof.
  intros Hs Hfresh. split; [|split].
  - intros (j & inst & Hin & Hl & Href). rewrite constructor_unfold.
    rewrite (@occupied_taken c w j inst Hs Hfresh Hin Hl Href).
    destruct (validate c o) as [[]|e]; reflexivity.
  - intros Hfree p u Hv Hvp Hn Hb. split; [|split].
    + apply constructor_succeeds; try assumption. now apply not_occupied_free.
    + cbn [activeComponents constructed]. rewrite in_app_iff. simpl. tauto.
    + intros o2. apply constructor_blocked.
      apply (@occupied_taken c (constructed c p u w) (counter w)
               {| i_component := c; i_props := p; i_url := u; i_window := None;
                  i_context := None;
                  i_onInit := {| settled := Pending; handlers := [] |};
                  i_cleanupTasks := [TUnregister]; i_resources := [ParentStyle] |} Hs).
      * unfold fresh_ids in *. cbn [activeComponents constructed counter].
        rewrite forallb_app. apply andb_true_iff. split.
        -- rewrite forallb_forall in *. intros j Hj. apply Nat.ltb_lt.
           specialize (Hfresh j Hj). apply Nat.ltb_lt in Hfresh. lia.
        -- cbn [forallb]. rewrite andb_true_r. apply Nat.ltb_lt. lia.
      * cbn [activeComponents constructed]. rewrite in_app_iff. simpl. tauto.
      * apply lookup_store_same.
      * reflexivity.
  - intros self inst Hl Ht Honly. rewrite (@destroy_eq self inst w Hl).
    destruct (@destroyed_torn_down self inst w Ht) as (i1 & _ & _ & _ & _ & _ & Hout).
    eexists. split; [reflexivity|]. split; [exact Hout|].
    intros o2 p2 u2 Hv Hvp Hn Hb.
    apply constructor_succeeds; try assumption.
    apply not_occupied_free; [now apply fresh_ids_destroyed|].
    intros j inst' Hj Hl' Href.
    assert (Hne : j <> self) by (intros ->; exact (Hout Hj)).
    assert (Hjw : In j (activeComponents w)).
    { cbn [activeComponents destroyed after_tasks] in Hj.
      eapply fold_active_incl. exact Hj. }
    cbn [heap destroyed] in Hl'. rewrite lookup_store_other in Hl' by congruence.
    exact (Hne (Honly j inst' Hjw Hl' Href)).
Qed.

End ConstructorFacts.

(** ** Updated props *)

Section UpdateFacts.

Variable urlEncode : string -> string.
Variable fn_toString : func -> string.
Variable call0 : func -> value.
Variable stringifyWithFunctions : obj value -> string.
Variable validateProps : component -> obj value -> res unit.
Variable invoke : func -> option js_error -> res unit.

Local Abbreviation apply_props :=
  (applyProps urlEncode fn_toString call0 stringifyWithFunctions validateProps).
Local Abbreviation update_props :=
  (updateProps urlEncode fn_toString call0 stringifyWithFunctions validateProps).
Local Abbreviation resolve_init :=
  (resolveInit urlEncode fn_toString call0 stringifyWithFunctions validateProps).
Local Abbreviation on_init :=
  (onInitMessage urlEncode fn_toString call0 stringifyWithFunctions validateProps invoke).
Local Abbreviation queue_applied :=
  (applied urlEncode fn_toString call0 stringifyWithFunctions validateProps).

Lemma applyProps_unfold (self : nat) (props : obj value) (inst : instance) (w : world) :
  lookup self (heap w) = Some inst ->
  apply_props self props w
  = match validateProps (i_component inst) (merged inst props) with
    | Throw e => (w, Throw e)
    | Ok _ =>
        match normalizeProps fn_toString call0 (i_component inst) self
                (Some (merged inst props)) with
        | Throw e => (w, Throw e)
        | Ok p =>
            match buildUrl urlEncode fn_toString (i_component inst) p with
            | Throw e => (put self (with_props p inst) w, Throw e)
            | Ok u =>
                (logged (propsMessage stringifyWithFunctions inst p)
                   (put self (with_url u (with_props p inst)) w), Ok tt)
            end
        end
    end.
Proof.
  intros Hl. unfold applyProps. unfold bindA at 1.
  rewrite (@this_eq self inst w Hl). fold (merged inst props).
  unfold bindA at 1.
  rewrite (@setProps_unfold urlEncode fn_toString call0 validateProps self _ inst w Hl).
  destruct (validateProps (i_component inst) (merged inst props)) as [[]|e];
    [|reflexivity].
  destruct (normalizeProps fn_toString call0 (i_component inst) self
              (Some (merged inst props))) as [p|e]; [|reflexivity].
  cbv zeta.
  destruct (buildUrl urlEncode fn_toString (i_component inst) p) as [u|e];
    [|reflexivity].
  unfold bindA at 1. erewrite this_eq by apply lookup_store_same.
  unfold propsMessage, logged, put. cbn [i_window i_props with_url with_props].
  destruct (i_window inst) as [win|].
  - destruct (negb _); [reflexivity|].
    unfold ret. cbn [activeComponents heap counter timers log]. now rewrite app_nil_r.
  - unfold ret. cbn [activeComponents heap counter timers log]. now rewrite app_nil_r.
Qed.

Lemma applyProps_ok (self : nat) (props : obj value) (inst : instance) (w : world)
    (p : obj value) (u : value) :
  lookup self (heap w) = Some inst ->
  validateProps (i_component inst) (merged inst props) = Ok tt ->
  normalizeProps fn_toString call0 (i_component inst) self (Some (merged inst props)) = Ok p ->
  buildUrl urlEncode fn_toString (i_component inst) p = Ok u ->
  exists w',
    apply_props self props w = (w', Ok tt)
    /\ lookup self (heap w') = Some (with_url u (with_props p inst))
    /\ log w' = (log w ++ propsMessage stringifyWithFunctions inst p)%list.
Proof.
  intros Hl Hv Hn Hb. rewrite (@applyProps_unfold self props inst w Hl), Hv, Hn, Hb.
  eexists. split; [reflexivity|]. split; [apply lookup_store_same|reflexivity].
Qed.

Lemma applyProps_log (self : nat) (props : obj value) (inst : instance) (w : world) :
  lookup self (heap w) = Some inst ->
  exists sent inst',
    log (fst (apply_props self props w)) = (log w ++ sent)%list
    /\ List.length sent <= 1
    /\ lookup self (heap (fst (apply_props self props w))) = Some inst'
    /\ (stringifyWithFunctions (i_props inst') = stringifyWithFunctions (i_props inst) ->
        sent = [])
    /\ i_onInit inst' = i_onInit inst /\ i_window inst' = i_window inst.
Proof.
  intros Hl. rewrite (@applyProps_unfold self props inst w Hl).
  destruct (validateProps (i_component inst) (merged inst props)) as [[]|e].
  2:{ exists [], inst. cbn [fst]. rewrite app_nil_r. repeat split; simpl; auto. }
  destruct (normalizeProps fn_toString call0 (i_component inst) self
              (Some (merged inst props))) as [p|e].
  2:{ exists [], inst. cbn [fst]. rewrite app_nil_r. repeat split; simpl; auto. }
  destruct (buildUrl urlEncode fn_toString (i_component inst) p) as [u|e].
  2:{ exists [], (with_props p inst). cbn [fst log heap put].
      rewrite app_nil_r, lookup_store_same. repeat split; simpl; auto. }
  exists (propsMessage stringifyWithFunctions inst p), (with_url u (with_props p inst)).
  cbn [fst log heap logged put].
  split; [reflexivity|]. split; [|split; [apply lookup_store_same|split; [|split; reflexivity]]].
  - unfold propsMessage. destruct (i_window inst); [|simpl; lia].
    destruct (negb _); simpl; lia.
  - cbn [i_props with_url with_props]. intros Heq. unfold propsMessage.
    destruct (i_window inst); [|reflexivity].
    rewrite Heq, String.eqb_refl. reflexivity.
Qed.

Lemma dispatch_eq (self : nat) (queue : list (obj value)) :
  forall w,
    dispatch urlEncode fn_toString call0 stringifyWithFunctions validateProps self queue w
    = (queue_applied self queue w, Ok tt).
Proof.
  induction queue as [|props rest IH]; intros w; [reflexivity|].
  cbn [dispatch]. unfold bindA, swallow. rewrite IH. reflexivity.
Qed.

Lemma resolveInit_eq (self : nat) (inst : instance) (w : world) :
  lookup self (heap w) = Some inst ->
  settled (i_onInit inst) = Pending ->
  resolve_init self w
  = (queue_applied self (handlers (i_onInit inst)) (put self (resolved inst) w), Ok tt).
Proof.
  intros Hl Hp. unfold resolveInit. unfold bindA at 1.
  rewrite (@this_eq self inst w Hl), Hp. unfold bindA.
  rewrite (@update_eq self _ inst w Hl). apply dispatch_eq.
Qed.

(** C4, as amended. While the init future is not resolved, [updateProps]
    sends nothing: pending, it queues its callback; rejected, it drops it.
    When [resolve] settles the pending future, as the listener of INIT does
    once the enter callback has returned, the queued callbacks run, in
    order. The callback merges the new props over the existing ones and
    calls [setProps]. When [setProps] returns (the merged props valid and
    normalized, the URL built), it sends one PROPS message carrying the
    normalized props exactly when the instance has a child surface and the
    serialized props changed. When [setProps] throws, it sends nothing,
    though a failure in [buildUrl] comes after the props are replaced. In
    every case one run of the callback sends at most one message, and none
    when the props end up serialized as before; so two runs in a row whose
    second leaves the props as the first left them send at most one. *)
Theorem updateProps_sends_on_change_after_init (w : world) (self : nat)
    (inst : instance) (props : obj value) :
  lookup self (heap w) = Some inst ->
  (settled (i_onInit inst) <> Resolved -> log (fst (update_props self props w)) = log w)
  /\ (settled (i_onInit inst) = Pending ->
      validateProps (i_component inst) props = Ok tt ->
      exists w',
        update_props self props w = (w', Ok tt) /\ log w' = log w
        /\ lookup self (heap w')
           = Some (with_onInit {| settled := Pending;
                                  handlers := (handlers (i_onInit inst) ++ [props])%list |}
                     inst))
  /\ (settled (i_onInit inst) = Pending ->
      resolve_init self w
      = (queue_applied self (handlers (i_onInit inst)) (put self (resolved inst) w), Ok tt)
      /\ forall f,
           get (i_props inst) "onEnter" = VFun f -> invoke f None = Ok tt ->
           fst (on_init self w)
           = queue_applied self (handlers (i_onInit inst))
               (put self (resolved inst) (logged [Call self "onEnter" f None] w)))
  /\ (settled (i_onInit inst) = Resolved ->
      validateProps (i_component inst) props = Ok tt ->
      update_props self props w = swallow (apply_props self props) w)
  /\ (forall p u,
        validateProps (i_component inst) (merged inst props) = Ok tt ->
        normalizeProps fn_toString call0 (i_component inst) self
          (Some (merged inst props)) = Ok p ->
        buildUrl urlEncode fn_toString (i_component inst) p = Ok u ->
        exists w',
          apply_props self props w = (w', Ok tt)
          /\ lookup self (heap w') = Some (with_url u (with_props p inst))
          /\ log w' = (log w ++ propsMessage stringifyWithFunctions inst p)%list)
  /\ (forall e,
        validateProps (i_component inst) (merged inst props) = Throw e
        \/ (validateProps (i_component inst) (merged inst props) = Ok tt
            /\ normalizeProps fn_toString call0 (i_component inst) self
                 (Some (merged inst props)) = Throw e) ->
        apply_props self props w = (w, Throw e))
  /\ (forall p e,
        validateProps (i_component inst) (merged inst props) = Ok tt ->
        normalizeProps fn_toString call0 (i_component inst) self
          (Some (merged inst props)) = Ok p ->
        buildUrl urlEncode fn_toString (i_component inst) p = Throw e ->
        apply_props self props w = (put self (with_props p inst) w, Throw e))
  /\ (forall props2 inst1 inst2,
        let w1 := fst (apply_props self props w) in
        let w2 := fst (apply_props self props2 w1) in
        lookup self (heap w1) = Some inst1 ->
        lookup self (heap w2) = Some inst2 ->
        stringifyWithFunctions (i_props inst2) = stringifyWithFunctions (i_props inst1) ->
        exists sent, log w2 = (log w ++ sent)%list /\ List.length sent <= 1).
Proof.
  intros Hl. split; [|split; [|split; [|split; [|split; [|split; [|split]]]]]].
  - intros Hs. unfold updateProps. unfold bindA at 1. rewrite (@this_eq self inst w Hl).
    unfold bindA at 1. unfold lift.
    destruct (validateProps (i_component inst) props) as [[]|e]; [|reflexivity].
    destruct (settled (i_onInit inst)); [|congruence|reflexivity].
    rewrite (@update_eq self _ inst w Hl). reflexivity.
  - intros Hs Hv. unfold updateProps. unfold bindA at 1. rewrite (@this_eq self inst w Hl).
    unfold bindA at 1. unfold lift. rewrite Hv, Hs.
    rewrite (@update_eq self _ inst w Hl). eexists. split; [reflexivity|].
    split; [reflexivity|]. apply lookup_store_same.
  - intros Hs. split; [now apply resolveInit_eq|].
    intros f Hf Hr. unfold onInitMessage. unfold bindA at 1.
    rewrite (@callProp_eq invoke self "onEnter" None inst f w Hl Hf), Hr.
    unfold bindA at 1.
    rewrite (@resolveInit_eq self inst (logged [Call self "onEnter" f None] w) Hl Hs).
    unfold bindA, this.
    destruct (lookup self (heap (queue_applied self _ _))); reflexivity.
  - intros Hs Hv. unfold updateProps. unfold bindA at 1. rewrite (@this_eq self inst w Hl).
    unfold bindA at 1. unfold lift. now rewrite Hv, Hs.
  - intros p u Hv Hn Hb. now apply applyProps_ok.
  - intros e [Hv|[Hv Hn]]; rewrite (@applyProps_unfold self props inst w Hl), Hv;
      [reflexivity|now rewrite Hn].
  - intros p e Hv Hn Hb. now rewrite (@applyProps_unfold self props inst w Hl), Hv, Hn, Hb.
  - intros props2 inst1 inst2 w1 w2 Hl1 Hl2 Heq.
    destruct (@applyProps_log self props inst w Hl) as (s1 & i1 & Hlog1 & Hlen1 & Hi1 & _).
    fold w1 in Hlog1, Hi1.
    destruct (@applyProps_log self props2 inst1 w1 Hl1)
      as (s2 & i2 & Hlog2 & _ & Hi2 & Hsame & _).
    fold w2 in Hlog2, Hi2. rewrite Hl2 in Hi2. injection Hi2 as <-.
    rewrite (Hsame Heq), app_nil_r in Hlog2.
    exists s1. split; [congruence|assumption].
Qed.

End UpdateFacts.
(** ** The example page *)




(** When the error callback of the rendered checkout returns, the instance
    still has its surface, its overlay, its cleanup actions and its place in
    the active list. *)
Lemma error_callback_returns_before_teardown :
  let w1 := fst (callProp callbackReturns 0 "onError" (Some childFailed)
                   rendered_checkout) in
  log w1 = (log rendered_checkout ++ [Call 0 "onError" FNoop (Some childFailed)])%list
  /\ i_window (instance_in w1 0) = Some 1
  /\ In (Surface 1) (i_resources (instance_in w1 0))
  /\ In Overlay (i_resources (instance_in w1 0))
  /\ List.length (i_cleanupTasks (instance_in w1 0)) = 8
  /\ In 0 (activeComponents w1)
  /\ ~ torn_down w1 0.
Proof.
  cbv zeta. split; [reflexivity|]. split; [reflexivity|].
  split; [vm_compute; tauto|]. split; [vm_compute; tauto|].
  split; [reflexivity|]. split; [vm_compute; tauto|].
  intros (inst & Hl & Ht & _). vm_compute in Hl.
  injection Hl as Hl. subst inst. discriminate.
Qed.

(** The rendered checkout is torn down after [close()] although the CLOSE
    request failed. *)
Lemma close_witness :
  exists w2,
    closeSettled 0 (Throw (Error "no reply"))
      (fst (close callbackReturns 0 rendered_checkout)) = (w2, Ok tt)
    /\ torn_down w2 0.
Proof.
  destruct (proj1 (@close_destroys_whatever_the_delivery callbackReturns
                     rendered_checkout 0 (instance_in rendered_checkout 0) 1
                     (Throw (Error "no reply")) eq_refl eq_refl eq_refl)
              FNoop eq_refl eq_refl)
    as (w1 & w2 & Hc & _ & Hs & _ & Ht).
  exists w2. rewrite Hc. split; assumption.
Defined.

(** The rendered runner declares no close callback: [close()] throws, sends
    nothing and leaves the runner rendered and in the active list. *)
Lemma close_without_callback_throws :
  i_window (instance_in rendered_runner 0) = Some 1
  /\ get (i_props (instance_in rendered_runner 0)) "onClose" = VUndefined
  /\ close callbackReturns 0 rendered_runner
     = (rendered_runner, Throw (TypeError "this.props.onClose is not a function"))
  /\ In 0 (activeComponents rendered_runner)
  /\ List.length (i_cleanupTasks (instance_in rendered_runner 0)) = 7.
Proof.
  split; [reflexivity|]. split; [reflexivity|]. split; [reflexivity|].
  split; [vm_compute; tauto|reflexivity].
Qed.

(** The check that expires on the rendered checkout, whose child never sent
    INIT, calls the timeout callback with the timing error and leaves the
    checkout torn down. *)
Lemma timeout_witness :
  exists w',
    timeoutExpired nativeSource callbackReturns 0 rendered_checkout = (w', Ok tt)
    /\ log w'
       = (log rendered_checkout
          ++ Call 0 "onTimeout" FNoop
               (Some (Error ("[checkout] Loading component checkout at "
                             ++ "https://x.example/pay?timeout=5000"
                             ++ " timed out after 5000 milliseconds")))
          :: map (Cleanup 0) (i_cleanupTasks (instance_in rendered_checkout 0)))%list
    /\ torn_down w' 0.
Proof.
  destruct (proj1 (proj2 (proj2
              (@timeout_rejects_pending_init_once noEncoding nativeSource
                 returnsUndefined jsonOfProps acceptProps callbackReturns
                 rendered_checkout 0 (instance_in rendered_checkout 0) eq_refl)))
              FNoop eq_refl eq_refl eq_refl eq_refl)
    as (w' & inst' & He & Hlog & _ & _ & Ht).
  exists w'. split; [exact He|]. split; [exact Hlog|exact Ht].
Defined.

(** The timed component has a timeout and no timeout callback: the check
    that expires on it rejects the init future and leaves the instance
    rendered, with its surface, its cleanup actions and its entry in the
    active list; nothing is called. *)
Lemma timeout_without_callback_leaves_instance :
  let w' := fst (timeoutExpired nativeSource callbackReturns 0 rendered_timed) in
  get (i_props (instance_in rendered_timed 0)) "timeout" = VNum (Num 3000)
  /\ settled (i_onInit (instance_in rendered_timed 0)) = Pending
  /\ settled (i_onInit (instance_in w' 0))
     = Rejected (Error ("[timed] Loading component timed at "
                        ++ "https://x.example/timed?timeout=3000"
                        ++ " timed out after 3000 milliseconds"))
  /\ log w' = log rendered_timed
  /\ i_window (instance_in w' 0) = Some 1
  /\ i_cleanupTasks (instance_in w' 0) = i_cleanupTasks (instance_in rendered_timed 0)
  /\ List.length (i_cleanupTasks (instance_in w' 0)) = 8
  /\ In 0 (activeComponents w').
Proof.
  cbv zeta. repeat (split; [reflexivity|]). vm_compute. tauto.
Qed.

(** A second render of the rendered checkout throws and changes nothing. *)
Lemma render_twice_witness :
  exists msg,
    render overlayOf noHook 0 (Some "#again") (Some Popup) rendered_checkout
    = (rendered_checkout, Throw (Error msg)).
Proof.
  apply (@render_rejected_state_unchanged overlayOf noHook rendered_checkout 0
           (instance_in rendered_checkout 0)).
  - reflexivity.
  - left. simpl. discriminate.
Defined.

(** A second checkout cannot be constructed next to the rendered first, and
    can once the first is destroyed. *)
Lemma singleton_witness :
  build checkout None rendered_checkout
  = (allocated checkout rendered_checkout,
     Throw (Error "checkout is a singleton, and an only be instantiated once"))
  /\ (exists w' w3,
        destroy 0 rendered_checkout = (w', Ok tt)
        /\ build checkout None w' = (w3, Ok (counter rendered_checkout))).
Proof.
  destruct (@singleton_one_live_instance noEncoding nativeSource returnsUndefined
              accept acceptProps checkout {| o_props := None |} rendered_checkout
              eq_refl eq_refl) as (Hblock & _ & Hagain).
  split.
  - apply Hblock. exists 0, (instance_in rendered_checkout 0).
    split; [now left|]. split; reflexivity.
  - destruct (Hagain 0 (instance_in rendered_checkout 0) eq_refl eq_refl)
      as (w' & Hd & _ & Hc).
    + intros j inst' [<-|[]] _ _. reflexivity.
    + pose proof Hd as Hw. vm_compute in Hw. injection Hw as <-.
      eexists. eexists. split; [exact Hd|].
      apply (Hc {| o_props := None |}); reflexivity.
Defined.

(** A runner in the active list does not stand in the way of a checkout. *)
Lemma singleton_among_others :
  exists w',
    build checkout None started_runner = (w', Ok 1)
    /\ activeComponents w' = [0; 1].
Proof.
  eexists. split; reflexivity.
Qed.

(** On the checkout destroyed after its init, an update that changes the
    serialized props sends nothing: there is no child surface left. *)
Lemma updateProps_silent_after_destroy :
  let w' := fst (updateProps noEncoding nativeSource returnsUndefined jsonOfProps
                   acceptProps 0 [("amount", VNum (Num 5))] closed_checkout) in
  settled (i_onInit (instance_in closed_checkout 0)) = Resolved
  /\ get (i_props (instance_in closed_checkout 0)) "amount" = VNum (Num 0)
  /\ get (i_props (instance_in w' 0)) "amount" = VNum (Num 5)
  /\ jsonOfProps (i_props (instance_in w' 0))
     <> jsonOfProps (i_props (instance_in closed_checkout 0))
  /\ log w' = log closed_checkout.
Proof.
  cbv zeta. split; [reflexivity|]. split; [reflexivity|]. split; [reflexivity|].
  split; [vm_compute; discriminate|reflexivity].
Qed.

(** On the checkout whose child sent INIT, an update of [amount] sends the
    new props. *)
Lemma updateProps_witness :
  exists w' p,
    applyProps noEncoding nativeSource returnsUndefined jsonOfProps acceptProps 0
      [("amount", VNum (Num 5))] active_checkout = (w', Ok tt)
    /\ log w' = (log active_checkout ++ [Send (Some 1) PROPS (Some p)])%list
    /\ get p "amount" = VNum (Num 5).
Proof.
  destruct (proj1 (proj2 (proj2 (proj2 (proj2
              (@updateProps_sends_on_change_after_init noEncoding nativeSource
                 returnsUndefined jsonOfProps acceptProps callbackReturns active_checkout 0
                 (instance_in active_checkout 0) [("amount", VNum (Num 5))] eq_refl)))))
              _ _ eq_refl eq_refl eq_refl)
    as (w' & He & _ & Hlog).
  exists w'. eexists. split; [exact He|]. split; [exact Hlog|reflexivity].
Defined.

(** ** Every reachable state is tidy *)

Lemma tidy_same (w w' : world) (j : nat) (i i' : instance) :
  same_holdings i i' -> activeComponents w = activeComponents w' ->
  tidy w j i = tidy w' j i'.
Proof.
  intros (Hw & Hc & Ht & Hr) Ha. unfold tidy. now rewrite Hw, Hc, Ht, Hr, Ha.
Qed.

Lemma keeps_ret {A : Type} (a : A) : keeps (ret a).
Proof. intros w H. exact H. Qed.

Lemma keeps_throw {A : Type} (e : js_error) : keeps (@throw A e).
Proof. intros w H. exact H. Qed.

Lemma keeps_lift {A : Type} (r : res A) : keeps (lift r).
Proof. intros w H. exact H. Qed.

Lemma keeps_this (self : nat) : keeps (this self).
Proof. intros w H. unfold this. now destruct (lookup self (heap w)). Qed.

Lemma keeps_bind {A B : Type} (m : act A) (k : A -> act B) :
  keeps m -> (forall a, keeps (k a)) -> keeps (bindA m k).
Proof.
  intros Hm Hk w H. unfold bindA. specialize (Hm w H).
  destruct (m w) as [w' [a|e]]; simpl in *; [|assumption].
  now apply Hk.
Qed.

Lemma keeps_swallow (m : act unit) : keeps m -> keeps (swallow m).
Proof. intros Hm w H. unfold swallow. simpl. now apply Hm. Qed.

Lemma keeps_emit (e : event) : keeps (emit e).
Proof. intros w H. exact H. Qed.

Lemma keeps_addTimer (self : nat) (delay : value) : keeps (addTimer self delay).
Proof. intros w H. exact H. Qed.

Lemma keeps_fresh : keeps fresh.
Proof.
  intros w (Hf & Hnd & Hi). split; [|split; [exact Hnd|]].
  - unfold fresh_ids in *. simpl. rewrite forallb_forall in *.
    intros j Hj. specialize (Hf j Hj). apply Nat.ltb_lt in Hf. apply Nat.ltb_lt. lia.
  - intros j inst Hl. simpl in *. destruct (Hi j inst Hl) as [Hlt Ht].
    split; [lia|exact Ht].
Qed.

Lemma keeps_update (self : nat) (f : instance -> instance) :
  (forall i, same_holdings i (f i)) -> keeps (update self f).
Proof.
  intros Hf w (Hfr & Hnd & Hi). unfold update.
  destruct (lookup self (heap w)) as [inst|] eqn:Hl;
    [|exact (conj Hfr (conj Hnd Hi))].
  split; [exact Hfr|]. split; [exact Hnd|]. intros j i Hj. cbn [fst heap counter] in *.
  destruct (Nat.eq_dec j self) as [->|Hne].
  - rewrite lookup_store_same in Hj. injection Hj as <-.
    destruct (Hi self inst Hl) as [Hlt Ht]. split; [assumption|].
    rewrite <- Ht. symmetry. apply tidy_same; [apply Hf|reflexivity].
  - rewrite lookup_store_other in Hj by assumption.
    destruct (Hi j i Hj) as [Hlt Ht]. split; [assumption|].
    rewrite <- Ht. apply tidy_same; [repeat split|reflexivity].
Qed.

Lemma tidy_parts (w : world) (self : nat) (inst : instance) :
  tidy w self inst = true <->
  (i_window inst <> None -> existsb (task_eqb (TDelete FWindow)) (i_cleanupTasks inst) = true)
  /\ (i_context inst <> None ->
      existsb (task_eqb (TDelete FContext)) (i_cleanupTasks inst) = true)
  /\ (forall r, In r (i_resources inst) ->
        r = ParentStyle \/ existsb (covers r) (i_cleanupTasks inst) = true)
  /\ (In self (activeComponents w) ->
      existsb (task_eqb TUnregister) (i_cleanupTasks inst) = true)
  /\ NoDup (activeComponents w).
Proof.
  unfold tidy. rewrite !andb_true_iff, forallb_forall, nodup_nat_NoDup. split.
  - intros ((((Hw & Hc) & Hr) & Ha) & Hn). repeat split; try assumption.
    + intros Hx. destruct (i_window inst); [assumption|congruence].
    + intros Hx. destruct (i_context inst); [assumption|congruence].
    + intros r Hin. specialize (Hr r Hin). apply orb_true_iff in Hr.
      destruct Hr as [Hr|Hr]; [left; now apply resource_eqb_eq|now right].
    + intros Hin. apply orb_true_iff in Ha. destruct Ha as [Ha|Ha]; [|assumption].
      apply negb_true_iff in Ha.
      assert (existsb (Nat.eqb self) (activeComponents w) = true); [|congruence].
      apply existsb_exists. exists self. split; [assumption|apply Nat.eqb_refl].
  - intros (Hw & Hc & Hr & Ha & Hn). repeat split; try assumption.
    + destruct (i_window inst); [apply Hw; discriminate|reflexivity].
    + destruct (i_context inst); [apply Hc; discriminate|reflexivity].
    + intros r Hin. apply orb_true_iff. destruct (Hr r Hin) as [->|H]; [left|now right].
      reflexivity.
    + apply orb_true_iff.
      destruct (existsb (Nat.eqb self) (activeComponents w)) eqn:E; [right|now left].
      apply Ha. apply existsb_exists in E. destruct E as (x & Hx & Hxe).
      apply Nat.eqb_eq in Hxe. now subst.
Qed.

Lemma existsb_app_r {A : Type} (f : A -> bool) (l : list A) (x : A) :
  f x = true -> existsb f (l ++ [x]) = true.
Proof. intros H. rewrite existsb_app. simpl. rewrite H. apply orb_true_iff. right. reflexivity. Qed.

Lemma existsb_app_l {A : Type} (f : A -> bool) (l l' : list A) :
  existsb f l = true -> existsb f (l ++ l') = true.
Proof. intros H. rewrite existsb_app, H. reflexivity. Qed.

Lemma keeps_update_tidy (self : nat) (f : instance -> instance) :
  (forall w i, tidy w self i = true -> tidy w self (f i) = true) ->
  keeps (update self f).
Proof.
  intros Hf w (Hfr & Hnd & Hi). unfold update.
  destruct (lookup self (heap w)) as [inst|] eqn:Hl;
    [|exact (conj Hfr (conj Hnd Hi))].
  split; [exact Hfr|]. split; [exact Hnd|]. intros j i Hj. cbn [fst heap counter] in *.
  destruct (Nat.eq_dec j self) as [->|Hne].
  - rewrite lookup_store_same in Hj. injection Hj as <-.
    destruct (Hi self inst Hl) as [Hlt Ht]. split; [assumption|].
    rewrite <- (Hf w inst Ht). apply tidy_same; [repeat split|reflexivity].
  - rewrite lookup_store_other in Hj by assumption.
    destruct (Hi j i Hj) as [Hlt Ht]. split; [assumption|].
    rewrite <- Ht. apply tidy_same; [repeat split|reflexivity].
Qed.

Lemma update_twice (self : nat) (f g : instance -> instance) (w : world) :
  (update self f ;;; update self g) w = update self (fun i => g (f i)) w.
Proof.
  unfold bindA, update. destruct (lookup self (heap w)) as [inst|] eqn:Hl; [|reflexivity].
  cbn [heap]. rewrite lookup_store_same, store_store. reflexivity.
Qed.

Lemma keeps_update2 (self : nat) (f g : instance -> instance) :
  (forall w i, tidy w self i = true -> tidy w self (g (f i)) = true) ->
  keeps (update self f ;;; update self g).
Proof.
  intros H w Hs. rewrite update_twice. now apply keeps_update_tidy.
Qed.

Lemma keeps_update2_then {B : Type} (self : nat) (f g : instance -> instance)
    (rest : act B) :
  (forall w i, tidy w self i = true -> tidy w self (g (f i)) = true) ->
  keeps rest ->
  keeps (update self f ;;; update self g ;;; rest).
Proof.
  intros H Hrest w Hs.
  assert (E : (update self f ;;; update self g ;;; rest) w
              = ((update self f ;;; update self g) ;;; rest) w).
  { unfold bindA. destruct (update self f w) as [w1 [[]|e]]; [|reflexivity].
    destruct (update self g w1) as [w2 [[]|e]]; reflexivity. }
  rewrite E. apply keeps_bind; [now apply keeps_update2|intros _; exact Hrest|exact Hs].
Qed.

Lemma keeps_update3 (self : nat) (f g h : instance -> instance) :
  (forall w i, tidy w self i = true -> tidy w self (h (g (f i))) = true) ->
  keeps (update self f ;;; update self g ;;; update self h).
Proof.
  intros H w Hs.
  assert (E : (update self f ;;; update self g ;;; update self h) w
              = update self (fun i => h (g (f i))) w).
  { unfold bindA at 1. unfold update at 1.
    destruct (lookup self (heap w)) as [inst|] eqn:Hl.
    - rewrite update_twice. unfold update. cbn [heap].
      rewrite lookup_store_same, store_store, Hl. reflexivity.
    - unfold update. now rewrite Hl. }
  rewrite E. now apply keeps_update_tidy.
Qed.

(** Holding more, with the release registered, keeps an instance tidy. *)
Lemma tidy_hold (w : world) (self : nat) (i : instance) (rs : list resource) :
  tidy w self i = true ->
  tidy w self
    (with_tasks (i_cleanupTasks i ++ [TRelease rs])
       (with_resources (i_resources i ++ rs) i)) = true.
Proof.
  rewrite !tidy_parts. cbn [i_window i_context i_cleanupTasks i_resources
                            with_tasks with_resources].
  intros (Hw & Hc & Hr & Ha & Hn). repeat split; try assumption.
  - intros H. apply existsb_app_l. now apply Hw.
  - intros H. apply existsb_app_l. now apply Hc.
  - intros r Hin. apply in_app_iff in Hin. destruct Hin as [Hin|Hin].
    + destruct (Hr r Hin) as [->|H]; [now left|right]. now apply existsb_app_l.
    + right. apply existsb_app_r. simpl. apply existsb_exists.
      exists r. split; [assumption|]. now apply resource_eqb_eq.
  - intros H. apply existsb_app_l. now apply Ha.
Qed.

Lemma tidy_set_field (w : world) (self : nat) (i : instance) (f : field)
    (win : option nat) (ctx : option context) :
  tidy w self i = true ->
  tidy w self
    (with_tasks (i_cleanupTasks i ++ [TDelete f])
       match f with
       | FWindow => with_window win i
       | FContext => with_context ctx i
       end) = true.
Proof.
  rewrite !tidy_parts. intros (Hw & Hc & Hr & Ha & Hn).
  destruct f; cbn [i_window i_context i_cleanupTasks i_resources
                   with_tasks with_window with_context];
    repeat split; try assumption.
  - intros H. apply existsb_app_l. now apply Hw.
  - intros _. now apply existsb_app_r.
  - intros r Hin. destruct (Hr r Hin) as [->|H]; [now left|right].
    now apply existsb_app_l.
  - intros H. apply existsb_app_l. now apply Ha.
  - intros _. now apply existsb_app_r.
  - intros H. apply existsb_app_l. now apply Hc.
  - intros r Hin. destruct (Hr r Hin) as [->|H]; [now left|right].
    now apply existsb_app_l.
  - intros H. apply existsb_app_l. now apply Ha.
Qed.

Lemma keeps_setForCleanup_window (self win : nat) :
  keeps (setForCleanup self FWindow (with_window (Some win))).
Proof.
  unfold setForCleanup, registerForCleanup. apply keeps_update2.
  intros w i Ht. apply (tidy_set_field w self i FWindow (Some win) None Ht).
Qed.

Lemma keeps_setForCleanup_context (self : nat) (ctx : context) :
  keeps (setForCleanup self FContext (with_context (Some ctx))).
Proof.
  unfold setForCleanup, registerForCleanup. apply keeps_update2.
  intros w i Ht. apply (tidy_set_field w self i FContext None (Some ctx) Ht).
Qed.

Lemma keeps_watchForClose (self : nat) : keeps (watchForClose self).
Proof.
  unfold watchForClose. apply keeps_bind; [apply keeps_fresh|]. intros k.
  unfold acquire, registerForCleanup. apply keeps_update3.
  intros w i Ht.
  pose proof (tidy_hold w self i [CloseWatcher k; UnloadWatcher k] Ht) as H.
  cbn [i_cleanupTasks i_resources with_resources with_tasks] in *.
  now rewrite <- app_assoc.
Qed.

Lemma keeps_createOverlayTemplate (self : nat) : keeps (createOverlayTemplate self).
Proof.
  unfold createOverlayTemplate, acquire, registerForCleanup. apply keeps_update3.
  intros w i Ht. pose proof (tidy_hold w self i [Overlay; OverlayStyle] Ht) as H.
  cbn [i_cleanupTasks i_resources with_resources with_tasks] in *.
  now rewrite <- app_assoc.
Qed.

Lemma keeps_listen (self : nat) : keeps (listen self).
Proof.
  unfold listen. apply keeps_bind; [apply keeps_this|]. intros inst.
  destruct (i_window inst) as [win|]; [|apply keeps_throw].
  unfold acquire, registerForCleanup. apply keeps_update2.
  intros w i Ht. exact (tidy_hold w self i [MessageListener win] Ht).
Qed.

Lemma keeps_driverOpen (self : nat) (ctx : context) (element : option string) :
  keeps (driverOpen self ctx element).
Proof.
  unfold driverOpen. apply keeps_bind; [apply keeps_fresh|]. intros win.
  apply keeps_bind; [apply keeps_emit|]. intros _.
  unfold acquire, registerForCleanup at 1. apply keeps_update2_then.
  - intros w i Ht. exact (tidy_hold w self i [Surface win] Ht).
  - apply keeps_setForCleanup_window.
Qed.

Lemma keeps_runTimeout (self : nat) : keeps (runTimeout self).
Proof.
  unfold runTimeout. apply keeps_bind; [apply keeps_this|]. intros inst.
  destruct (truthy _); [apply keeps_addTimer|apply keeps_ret].
Qed.

Lemma keeps_render (overlay hasRenderHook : context -> bool) (self : nat)
    (element : option string) (ctx : option context) :
  keeps (render overlay hasRenderHook self element ctx).
Proof.
  unfold render. apply keeps_bind; [apply keeps_this|]. intros inst.
  apply keeps_bind; [apply keeps_lift|]. intros _.
  apply keeps_bind; [destruct ctx; [apply keeps_ret|apply keeps_lift]|]. intros context.
  apply keeps_bind; [destruct (hasRenderHook context); [apply keeps_emit|apply keeps_ret]|].
  intros _. apply keeps_bind; [apply keeps_setForCleanup_context|]. intros _.
  apply keeps_bind.
  { unfold open. apply keeps_bind; [apply keeps_driverOpen|]. intros _.
    apply keeps_watchForClose. }
  intros _. apply keeps_bind; [apply keeps_listen|]. intros _.
  apply keeps_bind.
  { unfold loadUrl. apply keeps_bind; [apply keeps_this|]. intros i. apply keeps_emit. }
  intros _. apply keeps_bind; [apply keeps_runTimeout|]. intros _.
  apply keeps_bind;
    [destruct (overlay context); [apply keeps_createOverlayTemplate|apply keeps_ret]|].
  intros _. apply keeps_watchForClose.
Qed.

Lemma NoDup_remove_at (n : nat) (l : list nat) : NoDup l -> NoDup (remove_at n l).
Proof.
  revert n. induction l as [|y l IH]; intros n Hnd; [destruct n; constructor|].
  inversion Hnd as [|? ? Hy Hl]; subst. destruct n; simpl; [assumption|].
  constructor; [|now apply IH]. intros H. apply remove_at_incl in H. tauto.
Qed.

Lemma NoDup_removelast (l : list nat) : NoDup l -> NoDup (removelast l).
Proof.
  induction l as [|y l IH]; intros Hnd; [constructor|].
  inversion Hnd as [|? ? Hy Hl]; subst. simpl. destruct l as [|z l]; [constructor|].
  constructor; [|now apply IH]. intros H. apply removelast_incl in H. tauto.
Qed.

Lemma NoDup_fold_active (self : nat) (ts : list task) (l : list nat) :
  NoDup l -> NoDup (fold_left (fun l t => task_active self t l) ts l).
Proof.
  revert l. induction ts as [|t ts IH]; intros l Hnd; [assumption|].
  cbn [fold_left]. apply IH. destruct t; simpl; try assumption.
  destruct (indexOf self l); simpl; [now apply NoDup_remove_at|now apply NoDup_removelast].
Qed.

Lemma sound_destroyed (self : nat) (inst : instance) (w : world) :
  sound w -> lookup self (heap w) = Some inst -> sound (destroyed self inst w).
Proof.
  intros (Hfr & Hnd & Hi) Hl. destruct (Hi self inst Hl) as [Hlt Ht].
  pose proof (@destroyed_torn_down self inst w Ht) as (i' & Hl' & Htasks & Hw & Hc & Hr & Ha).
  assert (Hn : NoDup (activeComponents w)) by (now apply nodup_nat_NoDup).
  split; [|split].
  - unfold fresh_ids in *. rewrite forallb_forall in *. intros j Hj.
    cbn [activeComponents counter destroyed after_tasks] in *.
    apply fold_active_incl in Hj. now apply Hfr.
  - apply nodup_nat_NoDup. cbn [activeComponents destroyed after_tasks].
    now apply NoDup_fold_active.
  - intros j i Hj. cbn [counter destroyed after_tasks].
    destruct (Nat.eq_dec j self) as [->|Hne].
    + rewrite Hl' in Hj. injection Hj as <-. split; [assumption|].
      apply tidy_parts. rewrite Hw, Hc, Htasks.
      split; [congruence|]. split; [congruence|]. split; [|split].
      * intros r Hin. left. now apply Hr.
      * intros Hin. contradiction.
      * cbn [activeComponents destroyed after_tasks]. now apply NoDup_fold_active.
    + cbn [heap destroyed] in Hj. rewrite lookup_store_other in Hj by assumption.
      destruct (Hi j i Hj) as [Hjlt Hjt]. split; [assumption|].
      apply tidy_parts in Hjt. destruct Hjt as (H1 & H2 & H3 & H4 & H5).
      apply tidy_parts. split; [assumption|]. split; [assumption|].
      split; [assumption|]. split.
      * intros Hin. apply H4. cbn [activeComponents destroyed after_tasks] in Hin.
        now apply fold_active_incl in Hin.
      * cbn [activeComponents destroyed after_tasks]. now apply NoDup_fold_active.
Qed.

Lemma keeps_destroy (self : nat) : keeps (destroy self).
Proof.
  intros w Hs. destruct (lookup self (heap w)) as [inst|] eqn:Hl.
  - rewrite (@destroy_eq self inst w Hl). now apply sound_destroyed.
  - unfold destroy, cleanup, bindA, this. now rewrite Hl.
Qed.

Section CallbackSound.

Variable invoke : func -> option js_error -> res unit.

Lemma keeps_callProp (self : nat) (name : string) (arg : option js_error) :
  keeps (callProp invoke self name arg).
Proof.
  unfold callProp. apply keeps_bind; [apply keeps_this|]. intros inst.
  destruct (get (i_props inst) name); try apply keeps_throw.
  apply keeps_bind; [apply keeps_emit|]. intros _. apply keeps_lift.
Qed.

Lemma keeps_error (self : nat) (err : js_error) : keeps (error invoke self err).
Proof.
  unfold error. apply keeps_bind; [apply keeps_callProp|]. intros _. apply keeps_destroy.
Qed.

Lemma keeps_close (self : nat) : keeps (close invoke self).
Proof.
  unfold close. apply keeps_bind; [apply keeps_callProp|]. intros _.
  apply keeps_bind; [apply keeps_this|]. intros inst. apply keeps_emit.
Qed.

End CallbackSound.

Lemma keeps_closeSettled (self : nat) (delivery : res unit) :
  keeps (closeSettled self delivery).
Proof.
  unfold closeSettled. apply keeps_bind; [|intros _; apply keeps_destroy].
  destruct delivery; [apply keeps_ret|apply keeps_emit].
Qed.

Section SoundFacts.

Variable urlEncode : string -> string.
Variable fn_toString : func -> string.
Variable call0 : func -> value.
Variable stringifyWithFunctions : obj value -> string.
Variable validate : component -> options -> res unit.
Variable validateProps : component -> obj value -> res unit.
Variable overlay : context -> bool.
Variable hasRenderHook : context -> bool.
Variable invoke : func -> option js_error -> res unit.

Lemma keeps_setProps (self : nat) (props : obj value) :
  keeps (setProps urlEncode fn_toString call0 validateProps self props).
Proof.
  unfold setProps. apply keeps_bind; [apply keeps_this|]. intros inst.
  apply keeps_bind; [apply keeps_lift|]. intros _.
  apply keeps_bind; [apply keeps_lift|]. intros p.
  apply keeps_bind; [apply keeps_update; intros i; repeat split|]. intros _.
  apply keeps_bind; [apply keeps_lift|]. intros u.
  apply keeps_update. intros i. repeat split.
Qed.

Lemma keeps_applyProps (self : nat) (props : obj value) :
  keeps (applyProps urlEncode fn_toString call0 stringifyWithFunctions validateProps
           self props).
Proof.
  unfold applyProps. apply keeps_bind; [apply keeps_this|]. intros inst.
  apply keeps_bind; [apply keeps_setProps|]. intros _.
  apply keeps_bind; [apply keeps_this|]. intros inst'.
  destruct (i_window inst'); [|apply keeps_ret].
  destruct (negb _); [apply keeps_emit|apply keeps_ret].
Qed.

Lemma keeps_updateProps (self : nat) (props : obj value) :
  keeps (updateProps urlEncode fn_toString call0 stringifyWithFunctions validateProps
           self props).
Proof.
  unfold updateProps. apply keeps_bind; [apply keeps_this|]. intros inst.
  apply keeps_bind; [apply keeps_lift|]. intros _.
  destruct (settled (i_onInit inst)).
  - apply keeps_update. intros i. repeat split.
  - apply keeps_swallow, keeps_applyProps.
  - apply keeps_ret.
Qed.

Lemma keeps_dispatch (self : nat) (queued : list (obj value)) :
  keeps (dispatch urlEncode fn_toString call0 stringifyWithFunctions validateProps
           self queued).
Proof.
  induction queued as [|props rest IH]; [apply keeps_ret|].
  cbn [dispatch]. apply keeps_bind; [apply keeps_swallow, keeps_applyProps|].
  intros _. exact IH.
Qed.

Lemma keeps_resolveInit (self : nat) :
  keeps (resolveInit urlEncode fn_toString call0 stringifyWithFunctions validateProps self).
Proof.
  unfold resolveInit. apply keeps_bind; [apply keeps_this|]. intros inst.
  destruct (settled (i_onInit inst)); try apply keeps_ret.
  apply keeps_bind; [apply keeps_update; intros i; repeat split|].
  intros _. apply keeps_dispatch.
Qed.

Lemma keeps_onInitMessage (self : nat) :
  keeps (onInitMessage urlEncode fn_toString call0 stringifyWithFunctions validateProps
           invoke self).
Proof.
  unfold onInitMessage. apply keeps_bind; [apply keeps_callProp|]. intros _.
  apply keeps_bind; [apply keeps_resolveInit|]. intros _.
  apply keeps_bind; [apply keeps_this|]. intros inst. apply keeps_ret.
Qed.

Lemma keeps_timeoutExpired (self : nat) : keeps (timeoutExpired fn_toString invoke self).
Proof.
  unfold timeoutExpired. apply keeps_bind; [apply keeps_this|]. intros inst.
  assert (Hr : forall err,
             keeps (swallow (callProp invoke self "onTimeout" (Some err) ;;; destroy self))).
  { intros err. apply keeps_swallow. apply keeps_bind; [apply keeps_callProp|].
    intros _. apply keeps_destroy. }
  destruct (settled (i_onInit inst)); [|apply keeps_ret|apply Hr].
  apply keeps_bind; [apply keeps_update; intros i; repeat split|]. intros _. apply Hr.
Qed.

Lemma lookup_below (w : world) (j : nat) :
  sound w -> counter w <= j -> lookup j (heap w) = None.
Proof.
  intros (_ & _ & Hi) Hle. destruct (lookup j (heap w)) as [inst|] eqn:Hl; [|reflexivity].
  destruct (Hi j inst Hl). lia.
Qed.

Lemma sound_allocated (c : component) (w : world) : sound w -> sound (allocated c w).
Proof.
  intros Hs. pose proof Hs as (Hfr & Hnd & Hi). split; [|split; [exact Hnd|]].
  - unfold fresh_ids in *. cbn [activeComponents counter allocated].
    rewrite forallb_forall in *. intros j Hj. specialize (Hfr j Hj).
    apply Nat.ltb_lt in Hfr. apply Nat.ltb_lt. lia.
  - intros j i Hj. cbn [heap counter allocated] in *.
    destruct (Nat.eq_dec j (counter w)) as [->|Hne].
    + rewrite lookup_store_same in Hj. injection Hj as <-. split; [lia|].
      apply tidy_parts. cbn [i_window i_context i_cleanupTasks i_resources new_instance
                             activeComponents allocated].
      split; [congruence|]. split; [congruence|]. split; [intros r []|]. split.
      * intros Hin. pose proof (@fresh_ids_lt w _ Hfr Hin). lia.
      * now apply nodup_nat_NoDup.
    + rewrite lookup_store_other in Hj by assumption.
      destruct (Hi j i Hj) as [Hlt Ht]. split; [lia|].
      rewrite <- Ht. apply tidy_same; [repeat split|reflexivity].
Qed.

Lemma sound_registered (c : component) (w : world) : sound w -> sound (registered c w).
Proof.
  intros Hs. pose proof Hs as (Hfr & Hnd & Hi).
  assert (Hnew : ~ In (counter w) (activeComponents w)).
  { intros Hin. pose proof (@fresh_ids_lt w _ Hfr Hin). lia. }
  assert (Hnd' : NoDup (activeComponents w ++ [counter w])).
  { apply NoDup_app.
    - now apply nodup_nat_NoDup.
    - constructor; [intros []|constructor].
    - intros a Ha [<-|[]]. now apply Hnew. }
  split; [|split].
  - unfold fresh_ids in *. cbn [activeComponents counter registered].
    rewrite forallb_forall in *. intros j Hj. apply Nat.ltb_lt.
    apply in_app_iff in Hj. destruct Hj as [Hj|[<-|[]]]; [|lia].
    specialize (Hfr j Hj). apply Nat.ltb_lt in Hfr. lia.
  - cbn [activeComponents registered]. now apply nodup_nat_NoDup.
  - intros j i Hj. cbn [heap counter registered] in *.
    destruct (Nat.eq_dec j (counter w)) as [->|Hne].
    + rewrite lookup_store_same in Hj. injection Hj as <-. split; [lia|].
      apply tidy_parts. cbn [i_window i_context i_cleanupTasks i_resources new_instance
                             with_tasks activeComponents registered].
      split; [congruence|]. split; [congruence|]. split; [intros r []|].
      split; [reflexivity|exact Hnd'].
    + rewrite lookup_store_other in Hj by assumption.
      destruct (Hi j i Hj) as [Hlt Ht]. split; [lia|].
      apply tidy_parts in Ht. destruct Ht as (H1 & H2 & H3 & H4 & H5).
      apply tidy_parts. cbn [activeComponents registered].
      split; [exact H1|]. split; [exact H2|]. split; [exact H3|].
      split; [|exact Hnd'].
      intros Hin. apply in_app_iff in Hin. destruct Hin as [Hin|[Heq|[]]].
      * now apply H4.
      * congruence.
Qed.

(** The parent style sheet is the one resource held without a release. *)
Lemma keeps_acquire_style (self : nat) : keeps (acquire self ParentStyle).
Proof.
  unfold acquire. apply keeps_update_tidy. intros w i. rewrite !tidy_parts.
  cbn [i_window i_context i_cleanupTasks i_resources with_resources].
  intros (H1 & H2 & H3 & H4 & H5). repeat split; try assumption.
  intros r Hin. apply in_app_iff in Hin. destruct Hin as [Hin|[<-|[]]].
  - now apply H3.
  - now left.
Qed.

Lemma keeps_constructor (c : component) (o : options) :
  keeps (constructor urlEncode fn_toString call0 validate validateProps c o).
Proof.
  intros w Hs. rewrite constructor_unfold.
  destruct (validate c o) as [[]|e]; [|now apply sound_allocated].
  destruct (occupied c w); [now apply sound_allocated|].
  apply keeps_bind; [apply keeps_setProps| |now apply sound_registered].
  intros _. apply keeps_bind; [apply keeps_acquire_style|].
  intros _. apply keeps_bind; [apply keeps_update; intros i; repeat split|].
  intros _. apply keeps_ret.
Qed.

Lemma sound_empty : sound empty_world.
Proof.
  split; [reflexivity|]. split; [reflexivity|]. intros j inst Hl. discriminate.
Qed.

(** Every instance of every reachable state is tidy: what it holds is
    covered by a cleanup action that is still registered. *)
Theorem reachable_tidy (w : world) (self : nat) (inst : instance) :
  reachable urlEncode fn_toString call0 stringifyWithFunctions validate validateProps
    overlay hasRenderHook invoke w ->
  lookup self (heap w) = Some inst -> tidy w self inst = true.
Proof.
  intros Hr Hl. assert (Hs : sound w).
  { clear Hl. induction Hr.
    - apply sound_empty.
    - now apply keeps_constructor.
    - now apply keeps_render.
    - now apply keeps_updateProps.
    - now apply keeps_onInitMessage.
    - now apply keeps_error.
    - unfold onErrorMessage. now apply keeps_error.
    - now apply keeps_timeoutExpired.
    - now apply keeps_close.
    - now apply keeps_closeSettled.
    - now apply keeps_destroy. }
  destruct Hs as (_ & _ & Hi). now destruct (Hi self inst Hl).
Qed.

End SoundFacts.

(** The rendered checkout of the example is reached by a construction and a
    render from the empty page. *)
Lemma reachable_tidy_witness :
  tidy rendered_checkout 0 (instance_in rendered_checkout 0) = true.
Proof.
  apply (@reachable_tidy noEncoding nativeSource returnsUndefined jsonOfProps accept
           acceptProps overlayOf noHook callbackReturns rendered_checkout 0
           (instance_in rendered_checkout 0)).
  - assert (E : rendered_checkout
                = fst (render overlayOf noHook 0 None None
                         (fst (constructor noEncoding nativeSource returnsUndefined accept
                                 acceptProps checkout {| o_props := None |} empty_world))))
      by (vm_compute; reflexivity).
    rewrite E. apply reach_render, reach_constructor, reach_start.
  - vm_compute. reflexivity.
Defined.
(** * Properties of the rest of the class *)

(** ** The position of a popup or lightbox *)

Lemma centered_fits (w d : Z) :
  exists p,
    centered (Num w) (Num d) = Num p
    /\ (0 <= p)%Z
    /\ ((w <= d)%Z -> p = 0%Z)
    /\ ((d < w)%Z -> (p + d <= w)%Z /\ (0 <= (w - d - p) - p <= 1)%Z).
Proof.
  unfold centered. destruct (Z.leb_spec w d) as [Hle|Hlt].
  - exists 0%Z. repeat split; lia.
  - exists ((w - d) / 2)%Z.
    pose proof (Z.div_mod (w - d) 2 ltac:(lia)) as Hdm.
    pose proof (Z.mod_pos_bound (w - d) 2 ltac:(lia)) as Hb.
    repeat split; lia.
Qed.

(** A coordinate given as a number is used as it is, whatever the screen. A
    coordinate that is not given is computed from the sizes: for sizes that
    are integers from 0 to below 2^53, where halving and subtracting are
    exact, the component lies inside the screen when it fits, with margins
    that differ by at most one pixel, and at the origin when it does not
    fit. Each axis depends on its own sizes only, and [x] is set before
    [y]. *)
Theorem getPosition_inside_screen (dims : dimensions) (sw sh : number) :
  keys (getPosition dims sw sh) = ["x"; "y"]
  /\ (forall n, d_x dims = VNum n -> get (getPosition dims sw sh) "x" = VNum n)
  /\ (forall n, d_y dims = VNum n -> get (getPosition dims sw sh) "y" = VNum n)
  /\ (forall w d, typeof (d_x dims) <> "number" -> sw = Num w -> d_width dims = Num d ->
        (0 <= w < 2 ^ 53)%Z -> (0 <= d < 2 ^ 53)%Z ->
        exists p,
          get (getPosition dims sw sh) "x" = VNum (Num p)
          /\ (0 <= p)%Z
          /\ ((w <= d)%Z -> p = 0%Z)
          /\ ((d < w)%Z -> (p + d <= w)%Z /\ (0 <= (w - d - p) - p <= 1)%Z))
  /\ (forall h d, typeof (d_y dims) <> "number" -> sh = Num h -> d_height dims = Num d ->
        (0 <= h < 2 ^ 53)%Z -> (0 <= d < 2 ^ 53)%Z ->
        exists p,
          get (getPosition dims sw sh) "y" = VNum (Num p)
          /\ (0 <= p)%Z
          /\ ((h <= d)%Z -> p = 0%Z)
          /\ ((d < h)%Z -> (p + d <= h)%Z /\ (0 <= (h - d - p) - p <= 1)%Z)).
Proof.
  unfold getPosition.
  split; [|split; [|split; [|split]]].
  - destruct (String.eqb (typeof (d_x dims)) "number"),
             (String.eqb (typeof (d_y dims)) "number"); reflexivity.
  - intros n Hx. rewrite Hx. cbn [typeof]. rewrite String.eqb_refl.
    destruct (String.eqb (typeof (d_y dims)) "number"); reflexivity.
  - intros n Hy. rewrite Hy. cbn [typeof]. rewrite String.eqb_refl.
    destruct (String.eqb (typeof (d_x dims)) "number"); reflexivity.
  - intros w d Hx -> -> _ _. apply String.eqb_neq in Hx. rewrite Hx.
    destruct (centered_fits w d) as (p & Hp & H).
    exists p. split; [|exact H]. rewrite Hp.
    destruct (String.eqb (typeof (d_y dims)) "number"); reflexivity.
  - intros h d Hy -> -> _ _. apply String.eqb_neq in Hy. rewrite Hy.
    destruct (centered_fits h d) as (p & Hp & H).
    exists p. split; [|exact H]. rewrite Hp.
    destruct (String.eqb (typeof (d_x dims)) "number"); reflexivity.
Qed.

(** ** Normalized props and the launch URL *)

Lemma append_eq_not_empty (a b : string) : a ++ "=" ++ b <> "".
Proof. destruct a; discriminate. Qed.

Lemma append_not_empty (a b : string) : a <> "" -> a ++ b <> "".
Proof. destruct a; [congruence|discriminate]. Qed.

Lemma join_not_empty (sep : string) (l : list string) :
  l <> [] -> (forall s, In s l -> s <> "") -> join sep l <> "".
Proof.
  destruct l as [|s l]; [congruence|]. intros _ H.
  assert (Hs : s <> "") by (apply H; now left).
  destruct l; [exact Hs|]. cbn [join]. now apply append_not_empty.
Qed.

Section PropsFacts.

Variable urlEncode : string -> string.
Variable fn_toString : func -> string.
Variable call0 : func -> value.

Lemma normalizeProps_get (c : component) (self : nat) (raw : option (obj value))
    (result : obj value) (k : string) (prop : propDef) :
  normalizeProps fn_toString call0 c self raw = Ok result ->
  obj_get (c_props c) k = Some prop ->
  exists v,
    obj_get result k = Some v
    /\ coerce fn_toString self prop (withDefault call0 prop (raw_of raw) k) = Ok v.
Proof.
  intros Hn Hk. unfold normalizeProps in Hn.
  assert (Hin : In k (keys (c_props c))) by (apply obj_get_in_keys; eauto).
  destruct (proj1 (@normalizeKeys_get fn_toString call0 c self _ _ _ _ Hn k) Hin)
    as (v & Hv & Hp).
  exists v. split; [exact Hv|].
  unfold normalizeProp in Hp. rewrite Hk in Hp. unfold normalizeValue in Hp.
  destruct raw; exact Hp.
Qed.

Lemma withDefault_cases (prop : propDef) (props : obj value) (k : string) :
  withDefault call0 prop props k
  = match supplied props k with
    | Some x => x
    | None => if truthy (def prop) then defaultValue call0 prop else read props k
    end.
Proof.
  unfold withDefault, supplied, read, hasOwnProperty, defaultValue.
  destruct (obj_get props k) as [x|]; [destruct (nonempty x)|];
    cbn [andb negb]; destruct (truthy (def prop)); reflexivity.
Qed.

(** After a normalization of raw props that leave [hasOwnProperty] alone, if
    it returns, a declared boolean prop holds a
    boolean and a number prop a number; a function prop holds a function
    bound to the instance, the no-op, or a falsy value; a string prop holds
    the empty string or a truthy value, which is left as it is and need not be
    a string; an object prop holds the supplied value, or else the default
    when it is truthy, or else what the raw props read at the key: an own
    value that is null, undefined or empty, [undefined], or the member of
    [Object.prototype] that the key names. *)
Theorem normalizeProps_typed (c : component) (self : nat) (raw : option (obj value))
    (result : obj value) (k : string) (prop : propDef) :
  plain_input (raw_of raw) ->
  normalizeProps fn_toString call0 c self raw = Ok result ->
  obj_get (c_props c) k = Some prop ->
  exists v,
    obj_get result k = Some v
    /\ (ptype prop = "boolean" -> exists b, v = VBool b)
    /\ (ptype prop = "number" -> exists n, v = VNum n)
    /\ (ptype prop = "function" ->
        (exists f, v = VFun (FBound f self))
        \/ (noop prop = true /\ v = VFun FNoop)
        \/ truthy v = false)
    /\ (ptype prop = "string" -> truthy v = true \/ v = VStr "")
    /\ (ptype prop = "object" ->
        v = match supplied (raw_of raw) k with
            | Some x => x
            | None =>
                if truthy (def prop) then defaultValue call0 prop
                else read (raw_of raw) k
            end).
Proof.
  intros _ Hn Hk.
  destruct (@normalizeProps_get c self raw result k prop Hn Hk) as (v & Hv & Hc).
  exists v. split; [exact Hv|]. unfold coerce in Hc.
  split; [|split; [|split; [|split]]]; intros Ht; rewrite Ht in Hc; cbn in Hc.
  - injection Hc as <-. eauto.
  - injection Hc as <-. eauto.
  - destruct (truthy (withDefault call0 prop (raw_of raw) k)) eqn:T; cbn in Hc.
    + destruct (withDefault call0 prop (raw_of raw) k); try discriminate.
      injection Hc as <-. left. eauto.
    + destruct (noop prop); injection Hc as <-; [right; left; split; reflexivity|].
      right. right. exact T.
  - injection Hc as <-. unfold or_else.
    destruct (truthy (withDefault call0 prop (raw_of raw) k)) eqn:T; [left|right];
      [exact T|reflexivity].
  - injection Hc as <-. apply withDefault_cases.
Qed.

Lemma propsToQuery_eq (props : obj value) :
  propsToQuery urlEncode fn_toString props = join "&" (queryParts urlEncode props).
Proof. unfold propsToQuery, queryParts. now rewrite queryEntries_parts. Qed.

Lemma queryPart_not_empty (key part : string) (v : value) :
  queryPart urlEncode key v = Some part -> part <> "".
Proof.
  unfold queryPart. intros H.
  assert (E : forall t, Some (urlEncode key ++ "=" ++ urlEncode t) = Some part -> part <> "").
  { intros t Ht. injection Ht as <-. apply append_eq_not_empty. }
  destruct v as [| |[]|[|z]|s|f|items|fields]; try discriminate; eauto.
  - destruct (Z.eqb z 0); [discriminate|eauto].
  - destruct (String.eqb s ""); [discriminate|eauto].
Qed.

Lemma queryPart_some (key : string) (v : value) :
  truthy v = true -> (forall f, v <> VFun f) ->
  exists part, queryPart urlEncode key v = Some part.
Proof.
  unfold queryPart. intros T Hf.
  destruct v as [| |[]|[|z]|s|f|items|fields]; try discriminate; eauto.
  - cbn in T. apply negb_true_iff in T. rewrite T. eauto.
  - cbn in T. apply negb_true_iff in T. rewrite T. eauto.
  - now destruct (Hf f).
Qed.

Lemma queryPart_none (key : string) (v : value) :
  truthy v = false \/ (exists f, v = VFun f) -> queryPart urlEncode key v = None.
Proof.
  unfold queryPart. intros [T|[f ->]]; [|reflexivity].
  destruct v as [| |[]|[|z]|s|f|items|fields]; try discriminate; try reflexivity.
  - cbn in T. apply negb_false_iff in T. now rewrite T.
  - cbn in T. apply negb_false_iff in T. now rewrite T.
Qed.

Lemma queryParts_not_empty (props : obj value) (key : string) :
  In key (keys props) -> truthy (get props key) = true ->
  (forall f, get props key <> VFun f) ->
  propsToQuery urlEncode fn_toString props <> "".
Proof.
  intros Hin T Hf. rewrite propsToQuery_eq.
  destruct (@queryPart_some key (get props key) T Hf) as [part Hp].
  apply join_not_empty.
  - intros E. assert (Hi : In part (queryParts urlEncode props)).
    { unfold queryParts. apply in_flat_map. exists key. split; [exact Hin|].
      rewrite Hp. now left. }
    rewrite E in Hi. destruct Hi.
  - intros s Hs. unfold queryParts in Hs. apply in_flat_map in Hs.
    destruct Hs as (k & _ & Hk).
    destruct (queryPart urlEncode k (get props k)) as [part'|] eqn:E; [|destruct Hk].
    destruct Hk as [<-|[]]. eapply queryPart_not_empty. exact E.
Qed.

Lemma queryParts_empty (props : obj value) :
  (forall key, In key (keys props) ->
     truthy (get props key) = false \/ exists f, get props key = VFun f) ->
  propsToQuery urlEncode fn_toString props = "".
Proof.
  intros H. rewrite propsToQuery_eq. unfold queryParts.
  assert (E : flat_map (fun key => match queryPart urlEncode key (get props key) with
                                   | Some part => [part]
                                   | None => []
                                   end) (keys props) = []).
  { induction (keys props) as [|k ks IH]; [reflexivity|]. cbn [flat_map].
    rewrite queryPart_none by (apply H; now left).
    apply IH. intros key Hin. apply H. now right. }
  rewrite E. reflexivity.
Qed.

(** With no [url] prop and an [env] prop that names no entry of the
    environment table, [buildUrl] throws: the prop itself makes the query
    string non-empty, and the url it is appended to is undefined. *)
Theorem buildUrl_unknown_env (c : component) (props : obj value) :
  truthy (get props "url") = false ->
  truthy (get props "env") = true ->
  (forall f, get props "env" <> VFun f) ->
  obj_get (c_envUrls c) (js_toString fn_toString (get props "env")) = None ->
  exists msg, buildUrl urlEncode fn_toString c props = Throw (TypeError msg).
Proof.
  intros Hu He Hf Hn. unfold buildUrl. rewrite Hu, He, Hn.
  assert (Hin : In "env" (keys props)).
  { apply obj_get_in_keys. unfold get in He.
    destruct (obj_get props "env") as [v|]; [eauto|discriminate]. }
  pose proof (@queryParts_not_empty props "env" Hin He Hf) as Hq.
  apply String.eqb_neq in Hq. rewrite Hq. cbn [negb].
  unfold inherited. destruct (existsb _ _); [eauto|].
  destruct (String.eqb _ "__proto__"); eauto.
Qed.

End PropsFacts.

Section UrlFacts.

Variable urlEncode : string -> string.
Variable fn_toString : func -> string.
Variable call0 : func -> value.

Lemma withDefault_nothing (prop : propDef) (k : string) :
  inherited k = VUndefined ->
  truthy (def prop) = false -> withDefault call0 prop [] k = VUndefined.
Proof.
  intros Hk H. unfold withDefault, read. cbn [obj_get].
  now rewrite Hk, H, andb_false_r.
Qed.

Lemma coerce_nothing (self : nat) (prop : propDef) :
  exists v,
    coerce fn_toString self prop VUndefined = Ok v
    /\ (truthy v = false
        \/ (ptype prop = "function" /\ noop prop = true /\ v = VFun FNoop)).
Proof.
  unfold coerce.
  destruct (String.eqb (ptype prop) "boolean"); [eexists; split; [reflexivity|now left]|].
  destruct (String.eqb (ptype prop) "function") eqn:E.
  - apply String.eqb_eq in E. cbn.
    destruct (noop prop) eqn:N; eexists; (split; [reflexivity|]); [right|left]; auto.
  - destruct (String.eqb (ptype prop) "string"); [eexists; split; [reflexivity|now left]|].
    destruct (String.eqb (ptype prop) "object"); [eexists; split; [reflexivity|now left]|].
    destruct (String.eqb (ptype prop) "number"); eexists; (split; [reflexivity|left]).
    + unfold or_else. cbn [truthy]. now rewrite parseInt_Num.
    + reflexivity.
Qed.

Lemma normalized_nothing (c : component) (self : nat) :
  own_names c ->
  (forall k prop, obj_get (c_props c) k = Some prop -> truthy (def prop) = false) ->
  exists p,
    normalizeKeys fn_toString call0 c self [] (keys (c_props c)) [] = Ok p
    /\ forall key,
         match obj_get (c_props c) key with
         | Some prop =>
             exists v, obj_get p key = Some v
                       /\ coerce fn_toString self prop VUndefined = Ok v
         | None => obj_get p key = None
         end.
Proof.
  intros Hown Hd.
  assert (Hi : forall k prop, obj_get (c_props c) k = Some prop -> inherited k = VUndefined).
  { intros k prop Hk. apply Hown. apply obj_get_in_keys. eauto. }
  destruct (normalizeKeys fn_toString call0 c self [] (keys (c_props c)) [])
    as [p|e] eqn:Hn.
  - exists p. split; [reflexivity|]. intros key.
    pose proof (@normalizeKeys_get fn_toString call0 c self [] _ _ p Hn key) as [Hin Hout].
    destruct (obj_get (c_props c) key) as [prop|] eqn:Hk.
    + destruct Hin as (v & Hv & Hp); [apply obj_get_in_keys; eauto|].
      exists v. split; [exact Hv|].
      unfold normalizeProp in Hp. rewrite Hk in Hp. unfold normalizeValue in Hp.
      now rewrite (@withDefault_nothing prop key (Hi key prop Hk) (Hd key prop Hk)) in Hp.
    + rewrite Hout; [reflexivity|]. intros Hin'. apply obj_get_in_keys in Hin'.
      destruct Hin' as [x Hx]. congruence.
  - exfalso. destruct (@normalizeKeys_throws fn_toString call0 c self [] _ _ e Hn)
      as (k & Hin & Hp).
    apply obj_get_in_keys in Hin. destruct Hin as [prop Hk].
    unfold normalizeProp in Hp. rewrite Hk in Hp. unfold normalizeValue in Hp.
    rewrite (@withDefault_nothing prop k (Hi k prop Hk) (Hd k prop Hk)) in Hp.
    destruct (coerce_nothing self prop) as (v & Hv & _). congruence.
Qed.

(** For a component that declares no prop named like a member of
    [Object.prototype] and no truthy default, and neither [url] nor [env] as
    a function prop with the no-op flag, normalizing no props gives props
    that leave the query string empty, and the launch URL is the URL of the
    component as it is, with no [?] appended. *)
Theorem no_props_plain_url (c : component) (self : nat) (raw : option (obj value)) :
  raw_of raw = [] ->
  own_names c ->
  (forall k prop, obj_get (c_props c) k = Some prop -> truthy (def prop) = false) ->
  (forall k prop, k = "url" \/ k = "env" -> obj_get (c_props c) k = Some prop ->
                  ptype prop = "function" -> noop prop = false) ->
  exists p,
    normalizeProps fn_toString call0 c self raw = Ok p
    /\ propsToQuery urlEncode fn_toString p = ""
    /\ buildUrl urlEncode fn_toString c p = Ok (VStr (c_url c)).
Proof.
  intros Hraw Hown Hd Hf. destruct (@normalized_nothing c self Hown Hd) as (p & Hn & Hp).
  exists p.
  assert (Hfalsy : forall key, truthy (get p key) = false
                               \/ exists f, get p key = VFun f).
  { intros key. specialize (Hp key). unfold get.
    destruct (obj_get (c_props c) key) as [prop|].
    - destruct Hp as (v & -> & Hc).
      destruct (coerce_nothing self prop) as (v' & Hv' & Hcase).
      assert (v' = v) by congruence. subst v'.
      destruct Hcase as [T|(_ & _ & ->)]; [now left|right; eauto].
    - rewrite Hp. now left. }
  assert (Hbase : forall key, key = "url" \/ key = "env" -> truthy (get p key) = false).
  { intros key Hkey. specialize (Hp key). unfold get.
    destruct (obj_get (c_props c) key) as [prop|] eqn:Hk.
    - destruct Hp as (v & -> & Hc).
      destruct (coerce_nothing self prop) as (v' & Hv' & Hcase).
      assert (v' = v) by congruence. subst v'.
      destruct Hcase as [T|(Ht & Hno & _)]; [exact T|].
      rewrite (Hf key prop Hkey Hk Ht) in Hno. discriminate.
    - now rewrite Hp. }
  assert (Hq : propsToQuery urlEncode fn_toString p = "").
  { apply queryParts_empty. intros key _. apply Hfalsy. }
  split; [|split; [exact Hq|]].
  - unfold normalizeProps. unfold raw_of in Hraw. rewrite Hraw. exact Hn.
  - unfold buildUrl. rewrite (Hbase "url"), (Hbase "env"), Hq by tauto. reflexivity.
Qed.

End UrlFacts.

(** ** Failures of [setProps] and of the constructor *)

Section ConstructionFacts.

Variable urlEncode : string -> string.
Variable fn_toString : func -> string.
Variable call0 : func -> value.
Variable validate : component -> options -> res unit.
Variable validateProps : component -> obj value -> res unit.

Local Abbreviation set_props := (setProps urlEncode fn_toString call0 validateProps).
Local Abbreviation construct :=
  (constructor urlEncode fn_toString call0 validate validateProps).

(** [setProps] assigns the props before it builds the URL: when validation or
    normalization throws, nothing has changed; when [buildUrl] throws, the
    instance already has the new props and still has the old URL. *)
Theorem setProps_keeps_new_props_on_url_failure (w : world) (self : nat)
    (inst : instance) (props : obj value) :
  lookup self (heap w) = Some inst ->
  (forall e, validateProps (i_component inst) props = Throw e ->
             set_props self props w = (w, Throw e))
  /\ (forall e,
        validateProps (i_component inst) props = Ok tt ->
        normalizeProps fn_toString call0 (i_component inst) self (Some props) = Throw e ->
        set_props self props w = (w, Throw e))
  /\ (forall p e,
        validateProps (i_component inst) props = Ok tt ->
        normalizeProps fn_toString call0 (i_component inst) self (Some props) = Ok p ->
        buildUrl urlEncode fn_toString (i_component inst) p = Throw e ->
        exists w',
          set_props self props w = (w', Throw e)
          /\ lookup self (heap w') = Some (with_props p inst)
          /\ i_url (with_props p inst) = i_url inst
          /\ log w' = log w
          /\ activeComponents w' = activeComponents w).
Proof.
  intros Hl. rewrite (@setProps_unfold urlEncode fn_toString call0 validateProps
                        self props inst w Hl).
  split; [|split].
  - intros e ->. reflexivity.
  - intros e -> ->. reflexivity.
  - intros p e -> -> Hb. cbv zeta. rewrite Hb. eexists. split; [reflexivity|].
    cbn [heap log activeComponents]. rewrite lookup_store_same. repeat split.
Qed.

Lemma setProps_throws (w w' : world) (self : nat) (inst : instance)
    (props : obj value) (e : js_error) :
  lookup self (heap w) = Some inst ->
  set_props self props w = (w', Throw e) ->
  activeComponents w' = activeComponents w
  /\ counter w' = counter w
  /\ exists i', lookup self (heap w') = Some i' /\ i_component i' = i_component inst.
Proof.
  intros Hl. rewrite (@setProps_unfold urlEncode fn_toString call0 validateProps
                        self props inst w Hl).
  destruct (validateProps (i_component inst) props) as [[]|e1].
  - destruct (normalizeProps fn_toString call0 (i_component inst) self (Some props))
      as [p|e2].
    + cbv zeta. destruct (buildUrl urlEncode fn_toString (i_component inst) p) as [u|e3];
        intros H; [discriminate|]. injection H as <- <-.
      cbn [activeComponents counter heap]. rewrite lookup_store_same.
      repeat split. eexists. split; reflexivity.
    + intros H. injection H as <- <-. repeat split. eauto.
  - intros H. injection H as <- <-. repeat split. eauto.
Qed.

Lemma constructor_fails_in_setProps (c : component) (o : options) (w w1 : world)
    (e : js_error) :
  validate c o = Ok tt -> occupied c w = false ->
  construct c o w = (w1, Throw e) ->
  activeComponents w1 = (activeComponents w ++ [counter w])%list
  /\ counter w1 = S (counter w)
  /\ exists i, lookup (counter w) (heap w1) = Some i /\ i_component i = c.
Proof.
  intros Hv Hocc. rewrite constructor_unfold, Hv, Hocc. unfold bindA at 1.
  assert (Hl : lookup (counter w) (heap (registered c w))
               = Some (with_tasks [TUnregister] (new_instance c)))
    by apply lookup_store_same.
  destruct (set_props (counter w) (props_of o) (registered c w)) as [w' [[]|e']] eqn:Hs.
  - rewrite (@setProps_unfold urlEncode fn_toString call0 validateProps _ _ _ _ Hl) in Hs.
    cbn [i_component with_tasks new_instance] in Hs.
    destruct (validateProps c (props_of o)) as [[]|e1]; [|discriminate].
    destruct (normalizeProps fn_toString call0 c (counter w) (Some (props_of o)))
      as [p|e2]; [|discriminate].
    cbv zeta in Hs. destruct (buildUrl urlEncode fn_toString c p) as [u|e3];
      [|discriminate].
    injection Hs as <-. unfold bindA at 1. unfold acquire.
    erewrite update_eq by apply lookup_store_same.
    unfold bindA at 1. erewrite update_eq by apply lookup_store_same.
    discriminate.
  - intros H. injection H as <- <-.
    destruct (@setProps_throws _ _ _ _ _ _ Hl Hs) as (Ha & Hc & i' & Hi & Hcomp).
    rewrite Ha, Hc. repeat split. exists i'. split; [exact Hi|exact Hcomp].
Qed.

(** The constructor enters the instance in the active list before it sets
    the props. When the construction of a singleton then throws in
    [setProps], the instance stays in the list, and every later construction
    of the component throws: on the singleton check, unless the options are
    already refused by [validate]. *)
Theorem failed_construction_blocks_singleton (c : component) (o : options)
    (w w1 : world) (e : js_error) :
  c_singleton c = true ->
  validate c o = Ok tt -> occupied c w = false ->
  construct c o w = (w1, Throw e) ->
  In (counter w) (activeComponents w1)
  /\ forall o2,
       exists w2,
         construct c o2 w1
         = (w2, Throw match validate c o2 with
                      | Throw e2 => e2
                      | Ok _ =>
                          Error (c_tag c
                                 ++ " is a singleton, and an only be instantiated once")
                      end).
Proof.
  intros Hs Hv Hocc Hc.
  destruct (@constructor_fails_in_setProps c o w w1 e Hv Hocc Hc)
    as (Ha & Hn & i & Hi & Hcomp).
  split; [rewrite Ha; apply in_app_iff; right; now left|].
  intros o2. rewrite constructor_unfold.
  destruct (validate c o2) as [[]|e2]; [|eauto].
  assert (Hblock : occupied c w1 = true).
  { unfold occupied. rewrite Hs. cbn [andb]. apply existsb_exists.
    exists (counter w). split; [rewrite Ha; apply in_app_iff; right; now left|].
    unfold same_component. cbn [heap allocated].
    rewrite lookup_store_other by (rewrite Hn; lia).
    rewrite Hi, Hcomp. apply Nat.eqb_refl. }
  rewrite Hblock. eauto.
Qed.

End ConstructionFacts.

(** The runner whose environment is changed to one that is not in its table:
    the props are the new ones, the URL the old one. *)
Lemma setProps_url_failure_witness :
  exists w' msg,
    setProps noEncoding nativeSource returnsUndefined acceptProps 0
      [("env", VStr "staging")] started_runner = (w', Throw (TypeError msg))
    /\ get (i_props (instance_in w' 0)) "env" = VStr "staging"
    /\ i_url (instance_in w' 0) = VStr "https://x.example/run?env=prod".
Proof.
  destruct (proj2 (proj2 (@setProps_keeps_new_props_on_url_failure noEncoding
                            nativeSource returnsUndefined acceptProps started_runner 0
                            (instance_in started_runner 0) [("env", VStr "staging")]
                            eq_refl))
              [("env", VStr "staging")] (TypeError "url.indexOf is not a function")
              eq_refl eq_refl eq_refl)
    as (w' & Hs & Hl & _).
  exists w', "url.indexOf is not a function". split; [exact Hs|].
  unfold instance_in. rewrite Hl. split; reflexivity.
Defined.

(** A checkout given a string as its [onClose] callback cannot be
    constructed, and after the attempt no checkout can. *)
Lemma failed_construction_witness :
  exists w1 e,
    build checkout (Some [("onClose", VStr "soon")]) empty_world = (w1, Throw e)
    /\ exists w2 e2, build checkout None w1 = (w2, Throw e2).
Proof.
  pose (w1 := fst (build checkout (Some [("onClose", VStr "soon")]) empty_world)).
  assert (Hb : build checkout (Some [("onClose", VStr "soon")]) empty_world
               = (w1, Throw (TypeError "value.bind is not a function")))
    by (vm_compute; reflexivity).
  exists w1, (TypeError "value.bind is not a function"). split; [exact Hb|].
  destruct (proj2 (@failed_construction_blocks_singleton noEncoding nativeSource
                     returnsUndefined accept acceptProps checkout
                     {| o_props := Some [("onClose", VStr "soon")] |} empty_world w1
                     (TypeError "value.bind is not a function")
                     eq_refl eq_refl eq_refl Hb) {| o_props := None |}) as [w2 H2].
  exists w2. eexists. exact H2.
Defined.

(** ** What the operations change *)

Create HintDb changes.
#[local] Hint Constructors tweak : changes.

Lemma changed_one (i j : instance) : change i j -> changed i j.
Proof. intros H. eapply changed_step; [apply changed_refl|exact H]. Qed.

Lemma changed_trans (i j k : instance) : changed i j -> changed j k -> changed i k.
Proof.
  intros Hij Hjk. induction Hjk as [|j k l _ IH Hkl]; [exact Hij|].
  eapply changed_step; [apply IH; exact Hij|exact Hkl].
Qed.

Lemma tweaked_one (i j : instance) : tweak i j -> tweaked i j.
Proof. intros H. eapply tweaked_step; [apply tweaked_refl|exact H]. Qed.

Lemma tweaked_trans (i j k : instance) : tweaked i j -> tweaked j k -> tweaked i k.
Proof.
  intros Hij Hjk. induction Hjk as [|j k l _ IH Hkl]; [exact Hij|].
  eapply tweaked_step; [apply IH; exact Hij|exact Hkl].
Qed.

Lemma tweak_change (i j : instance) : tweak i j -> change i j.
Proof.
  intros H. destruct H; try constructor.
  unfold registrable in H. apply andb_true_iff in H. destruct H as [_ H].
  now apply negb_true_iff in H.
Qed.

Lemma tweaked_changed (i j : instance) : tweaked i j -> changed i j.
Proof.
  induction 1 as [|i j k _ IH Hjk]; [apply changed_refl|].
  eapply changed_step; [exact IH|now apply tweak_change].
Qed.

Lemma tweaked_unregisters (i j : instance) : tweaked i j -> unregisters j = unregisters i.
Proof.
  induction 1 as [|i j k _ IH Hjk]; [reflexivity|]. rewrite <- IH.
  destruct Hjk; try reflexivity.
  unfold unregisters. cbn [i_cleanupTasks with_tasks]. rewrite filter_app, length_app.
  unfold registrable in H. apply andb_true_iff in H. destruct H as [H _].
  apply negb_true_iff in H. cbn [filter]. rewrite H. cbn. lia.
Qed.

Lemma task_instance_tasks (t : task) (i : instance) :
  i_cleanupTasks (task_instance t i) = i_cleanupTasks i.
Proof. destruct t as [|[]|rs]; reflexivity. Qed.

Lemma changed_tasks_run (ts : list task) :
  forall i, incl ts (i_cleanupTasks i) ->
            changed i (fold_left (fun i t => task_instance t i) ts i).
Proof.
  induction ts as [|t ts IH]; intros i Hin; [apply changed_refl|].
  cbn [fold_left]. eapply changed_trans.
  - apply changed_one, change_task. apply Hin. now left.
  - apply IH. rewrite task_instance_tasks. intros x Hx. apply Hin. now right.
Qed.

Lemma changed_component (i j : instance) : changed i j -> i_component j = i_component i.
Proof.
  induction 1 as [|i j k _ IH Hjk]; [reflexivity|]. rewrite <- IH.
  destruct Hjk; try reflexivity. destruct t as [|[]|rs]; reflexivity.
Qed.

Lemma changed_spares_style (i j : instance) :
  changed i j -> spares_style i -> spares_style j.
Proof.
  induction 1 as [|i j k _ IH Hjk]; [tauto|]. intros Hi. specialize (IH Hi).
  destruct Hjk; try exact IH.
  - intros t' Ht'. cbn [i_cleanupTasks with_tasks] in Ht'.
    apply in_app_iff in Ht'. destruct Ht' as [Ht'|[<-|[]]]; [now apply IH|assumption].
  - intros t' Ht'. rewrite task_instance_tasks in Ht'. now apply IH.
  - intros t' [].
Qed.

Lemma changed_keeps_style (i j : instance) :
  changed i j -> spares_style i -> In ParentStyle (i_resources i) ->
  In ParentStyle (i_resources j).
Proof.
  induction 1 as [|i j k Hij IH Hjk]; [tauto|]. intros Hi Hin. specialize (IH Hi Hin).
  pose proof (changed_spares_style Hij Hi) as Hj.
  destruct Hjk; try exact IH.
  - cbn [i_resources with_resources]. apply in_app_iff. now left.
  - destruct t as [|[]|rs]; try exact IH.
    cbn [task_instance i_resources with_resources]. apply filter_In. split; [exact IH|].
    apply negb_true_iff. exact (Hj _ H).
Qed.

(** *** Operations short of a teardown *)

Lemma calmly_refl (w : world) : calmly w w.
Proof.
  split; [reflexivity|]. intros j.
  destruct (lookup j (heap w)); [apply tweaked_refl|exact I].
Qed.

Lemma calmly_trans (w1 w2 w3 : world) : calmly w1 w2 -> calmly w2 w3 -> calmly w1 w3.
Proof.
  intros [Ha Hh] [Ha' Hh']. split; [congruence|].
  intros j. specialize (Hh j). specialize (Hh' j).
  destruct (lookup j (heap w1)), (lookup j (heap w2)), (lookup j (heap w3));
    try contradiction; try exact I.
  eapply tweaked_trans; eassumption.
Qed.

Lemma calmly_same_instances (w w' : world) :
  activeComponents w' = activeComponents w -> heap w' = heap w -> calmly w w'.
Proof.
  intros Ha Hh. split; [exact Ha|]. intros j. rewrite Hh.
  destruct (lookup j (heap w)); [apply tweaked_refl|exact I].
Qed.

Lemma calm_ret {A : Type} (a : A) : calm (ret a).
Proof. intros w. apply calmly_refl. Qed.

Lemma calm_throw {A : Type} (e : js_error) : calm (@throw A e).
Proof. intros w. apply calmly_refl. Qed.

Lemma calm_lift {A : Type} (r : res A) : calm (lift r).
Proof. intros w. apply calmly_refl. Qed.

Lemma calm_this (self : nat) : calm (this self).
Proof. intros w. unfold this. destruct (lookup self (heap w)); apply calmly_refl. Qed.

Lemma calm_bind {A B : Type} (m : act A) (k : A -> act B) :
  calm m -> (forall a, calm (k a)) -> calm (bindA m k).
Proof.
  intros Hm Hk w. unfold bindA. specialize (Hm w).
  destruct (m w) as [w' [a|e]]; cbn [fst] in *; [|exact Hm].
  eapply calmly_trans; [exact Hm|apply Hk].
Qed.

Lemma calm_swallow (m : act unit) : calm m -> calm (swallow m).
Proof. intros Hm w. apply Hm. Qed.

Lemma calm_emit (e : event) : calm (emit e).
Proof. intros w. now apply calmly_same_instances. Qed.

Lemma calm_addTimer (self : nat) (delay : value) : calm (addTimer self delay).
Proof. intros w. now apply calmly_same_instances. Qed.

Lemma calm_fresh : calm fresh.
Proof. intros w. now apply calmly_same_instances. Qed.

Lemma calm_update (self : nat) (f : instance -> instance) :
  (forall i, tweaked i (f i)) -> calm (update self f).
Proof.
  intros Hf w. unfold update. destruct (lookup self (heap w)) as [inst|] eqn:Hl;
    [|apply calmly_refl].
  split; [reflexivity|]. intros j. cbn [fst heap].
  destruct (Nat.eq_dec j self) as [->|Hne].
  - rewrite Hl, lookup_store_same. apply Hf.
  - rewrite lookup_store_other by assumption.
    destruct (lookup j (heap w)); [apply tweaked_refl|exact I].
Qed.

(** The steps of a proof that an operation is calm. *)
Ltac calm_step :=
  lazymatch goal with
  | |- calm (ret _) => apply calm_ret
  | |- calm (throw _) => apply calm_throw
  | |- calm (lift _) => apply calm_lift
  | |- calm (this _) => apply calm_this
  | |- calm (emit _) => apply calm_emit
  | |- calm (addTimer _ _) => apply calm_addTimer
  | |- calm fresh => apply calm_fresh
  | |- calm (swallow _) => apply calm_swallow
  | |- calm (update _ _) =>
      apply calm_update; intros ?; apply tweaked_one; cbv beta;
      solve [eauto with changes | apply tweak_register; reflexivity]
  | |- calm (bindA _ _) => apply calm_bind; [|intros ?]
  | |- calm (match ?x with _ => _ end) => destruct x
  end.

Ltac calm_steps := repeat calm_step.

Lemma calm_registerForCleanup (self : nat) (t : task) :
  registrable t = true -> calm (registerForCleanup self t).
Proof.
  intros H. unfold registerForCleanup. apply calm_update. intros i.
  apply tweaked_one. now apply tweak_register.
Qed.

Lemma calm_acquire (self : nat) (r : resource) : calm (acquire self r).
Proof. unfold acquire. calm_steps. Qed.

Lemma calm_callProp (invoke : func -> option js_error -> res unit)
    (self : nat) (name : string) (arg : option js_error) :
  calm (callProp invoke self name arg).
Proof. unfold callProp. calm_steps. Qed.

Lemma calm_watchForClose (self : nat) : calm (watchForClose self).
Proof.
  unfold watchForClose. calm_steps; try apply calm_acquire.
  now apply calm_registerForCleanup.
Qed.

Lemma calm_driverOpen (self : nat) (ctx : context) (element : option string) :
  calm (driverOpen self ctx element).
Proof.
  unfold driverOpen, setForCleanup. calm_steps; try apply calm_acquire;
    now apply calm_registerForCleanup.
Qed.

Lemma calm_listen (self : nat) : calm (listen self).
Proof.
  unfold listen. calm_steps; try apply calm_acquire.
  now apply calm_registerForCleanup.
Qed.

Lemma calm_runTimeout (self : nat) : calm (runTimeout self).
Proof. unfold runTimeout. calm_steps. Qed.

Lemma calm_createOverlayTemplate (self : nat) : calm (createOverlayTemplate self).
Proof.
  unfold createOverlayTemplate. calm_steps; try apply calm_acquire.
  now apply calm_registerForCleanup.
Qed.

Lemma calm_render (overlay hasRenderHook : context -> bool) (self : nat)
    (element : option string) (ctx : option context) :
  calm (render overlay hasRenderHook self element ctx).
Proof.
  unfold render, setForCleanup, open, loadUrl.
  calm_steps;
    first [ apply calm_driverOpen | apply calm_watchForClose | apply calm_listen
          | apply calm_runTimeout | apply calm_createOverlayTemplate
          | now apply calm_registerForCleanup ].
Qed.

Lemma calm_close (invoke : func -> option js_error -> res unit)
    (self : nat) : calm (close invoke self).
Proof. unfold close. calm_steps. apply calm_callProp. Qed.

Section CalmFacts.

Variable urlEncode : string -> string.
Variable fn_toString : func -> string.
Variable call0 : func -> value.
Variable stringifyWithFunctions : obj value -> string.
Variable validateProps : component -> obj value -> res unit.
Variable invoke : func -> option js_error -> res unit.

Lemma calm_setProps (self : nat) (props : obj value) :
  calm (setProps urlEncode fn_toString call0 validateProps self props).
Proof. unfold setProps. calm_steps. Qed.

Lemma calm_applyProps (self : nat) (props : obj value) :
  calm (applyProps urlEncode fn_toString call0 stringifyWithFunctions validateProps
          self props).
Proof. unfold applyProps. calm_steps. apply calm_setProps. Qed.

Lemma calm_updateProps (self : nat) (props : obj value) :
  calm (updateProps urlEncode fn_toString call0 stringifyWithFunctions validateProps
          self props).
Proof. unfold updateProps. calm_steps. apply calm_applyProps. Qed.

Lemma calm_dispatch (self : nat) (queued : list (obj value)) :
  calm (dispatch urlEncode fn_toString call0 stringifyWithFunctions validateProps
          self queued).
Proof.
  induction queued as [|props rest IH]; [apply calm_ret|].
  cbn [dispatch]. apply calm_bind; [apply calm_swallow, calm_applyProps|].
  intros _. exact IH.
Qed.

Lemma calm_resolveInit (self : nat) :
  calm (resolveInit urlEncode fn_toString call0 stringifyWithFunctions validateProps self).
Proof. unfold resolveInit. calm_steps. apply calm_dispatch. Qed.

Lemma calm_onInitMessage (self : nat) :
  calm (onInitMessage urlEncode fn_toString call0 stringifyWithFunctions validateProps
          invoke self).
Proof.
  unfold onInitMessage. calm_steps; [apply calm_callProp|apply calm_resolveInit].
Qed.

End CalmFacts.

(** *** Teardowns *)

Lemma calmly_evolves (w w' : world) : calmly w w' -> evolves w w'.
Proof.
  intros [Ha Hh]. split; [rewrite Ha; apply incl_refl|]. intros j. specialize (Hh j).
  destruct (lookup j (heap w)), (lookup j (heap w')); try exact Hh.
  now apply tweaked_changed.
Qed.

Lemma calm_quiet {A : Type} (m : act A) : calm m -> quiet m.
Proof. intros H w. apply calmly_evolves, H. Qed.

Lemma evolves_refl (w : world) : evolves w w.
Proof. apply calmly_evolves, calmly_refl. Qed.

Lemma evolves_trans (w1 w2 w3 : world) : evolves w1 w2 -> evolves w2 w3 -> evolves w1 w3.
Proof.
  intros [Ha Hh] [Ha' Hh']. split; [eapply incl_tran; eassumption|].
  intros j. specialize (Hh j). specialize (Hh' j).
  destruct (lookup j (heap w1)), (lookup j (heap w2)), (lookup j (heap w3));
    try contradiction; try exact I.
  eapply changed_trans; eassumption.
Qed.

Lemma evolves_grows (w w' : world) : evolves w w' -> grows w w'.
Proof.
  intros [_ Hh] j i Hl. specialize (Hh j). rewrite Hl in Hh.
  destruct (lookup j (heap w')) as [i'|]; [eauto|contradiction].
Qed.

Lemma grows_trans (w1 w2 w3 : world) : grows w1 w2 -> grows w2 w3 -> grows w1 w3.
Proof.
  intros H12 H23 j i Hl. destruct (H12 j i Hl) as (i2 & Hl2 & Hc2).
  destruct (H23 j i2 Hl2) as (i3 & Hl3 & Hc3). exists i3. split; [exact Hl3|].
  eapply changed_trans; eassumption.
Qed.

Lemma quiet_bind {A B : Type} (m : act A) (k : A -> act B) :
  quiet m -> (forall a, quiet (k a)) -> quiet (bindA m k).
Proof.
  intros Hm Hk w. unfold bindA. specialize (Hm w).
  destruct (m w) as [w' [a|e]]; cbn [fst] in *; [|exact Hm].
  eapply evolves_trans; [exact Hm|apply Hk].
Qed.

Lemma quiet_swallow (m : act unit) : quiet m -> quiet (swallow m).
Proof. intros Hm w. apply Hm. Qed.

Lemma evolves_store (w : world) (self : nat) (inst inst' : instance) (l : list nat)
    (n : nat) (ts : list (nat * value)) (es : list event) :
  lookup self (heap w) = Some inst -> changed inst inst' ->
  incl l (activeComponents w) ->
  evolves w {| activeComponents := l; heap := store self inst' (heap w);
               counter := n; timers := ts; log := es |}.
Proof.
  intros Hl Hc Hi. split; [exact Hi|]. intros j. cbn [heap].
  destruct (Nat.eq_dec j self) as [->|Hne].
  - now rewrite Hl, lookup_store_same.
  - rewrite lookup_store_other by assumption.
    destruct (lookup j (heap w)); [apply changed_refl|exact I].
Qed.

Lemma quiet_destroy (self : nat) : quiet (destroy self).
Proof.
  intros w. destruct (lookup self (heap w)) as [inst|] eqn:Hl.
  - rewrite (@destroy_eq self inst w Hl). unfold destroyed. cbn [fst].
    apply evolves_store with (inst := inst); [exact Hl| |].
    + eapply changed_step; [apply changed_tasks_run, incl_refl|].
      apply change_clear.
    + intros x Hx. cbn [activeComponents after_tasks] in Hx.
      eapply fold_active_incl. exact Hx.
  - unfold destroy, cleanup, bindA, this. rewrite Hl. apply evolves_refl.
Qed.

Lemma quiet_callback_destroy (invoke : func -> option js_error -> res unit)
    (self : nat) (name : string) (arg : option js_error) :
  quiet (callProp invoke self name arg ;;; destroy self).
Proof.
  apply quiet_bind; [apply calm_quiet, calm_callProp|]. intros _. apply quiet_destroy.
Qed.

Lemma quiet_error (invoke : func -> option js_error -> res unit)
    (self : nat) (err : js_error) : quiet (error invoke self err).
Proof. apply quiet_callback_destroy. Qed.

Lemma quiet_windowClosed (invoke : func -> option js_error -> res unit)
    (self : nat) : quiet (windowClosed invoke self).
Proof. apply quiet_callback_destroy. Qed.

Lemma quiet_closeSettled (self : nat) (delivery : res unit) :
  quiet (closeSettled self delivery).
Proof.
  unfold closeSettled. apply quiet_bind; [|intros _; apply quiet_destroy].
  apply calm_quiet. calm_steps.
Qed.

Lemma quiet_timeoutExpired (invoke : func -> option js_error -> res unit)
    (fn_toString : func -> string) (self : nat) :
  quiet (timeoutExpired fn_toString invoke self).
Proof.
  unfold timeoutExpired. apply quiet_bind; [apply calm_quiet, calm_this|]. intros inst.
  destruct (settled (i_onInit inst)).
  - apply quiet_bind; [apply calm_quiet; calm_steps|]. intros _.
    apply quiet_swallow, quiet_callback_destroy.
  - apply calm_quiet, calm_ret.
  - apply quiet_swallow, quiet_callback_destroy.
Qed.

(** ** Histories *)

Lemma keeps_windowClosed (invoke : func -> option js_error -> res unit)
    (self : nat) : keeps (windowClosed invoke self).
Proof.
  unfold windowClosed. apply keeps_bind; [apply keeps_callProp|]. intros _.
  apply keeps_destroy.
Qed.

Lemma one_per_singleton_evolves (w w' : world) :
  evolves w w' -> one_per_singleton w -> one_per_singleton w'.
Proof.
  intros [Ha Hh] Hone j1 j2 i1 i2 H1 H2 L1 L2 Hs Hr.
  pose proof (Hh j1) as E1. pose proof (Hh j2) as E2. rewrite L1 in E1. rewrite L2 in E2.
  destruct (lookup j1 (heap w)) as [k1|] eqn:K1; [|contradiction].
  destruct (lookup j2 (heap w)) as [k2|] eqn:K2; [|contradiction].
  apply changed_component in E1, E2.
  apply (Hone j1 j2 k1 k2); auto; congruence.
Qed.

Section HistoryFacts.

Variable urlEncode : string -> string.
Variable fn_toString : func -> string.
Variable call0 : func -> value.
Variable stringifyWithFunctions : obj value -> string.
Variable validate : component -> options -> res unit.
Variable validateProps : component -> obj value -> res unit.
Variable overlay : context -> bool.
Variable hasRenderHook : context -> bool.
Variable invoke : func -> option js_error -> res unit.

Local Abbreviation construct :=
  (constructor urlEncode fn_toString call0 validate validateProps).
Local Abbreviation run :=
  (perform urlEncode fn_toString call0 stringifyWithFunctions validate validateProps
     overlay hasRenderHook invoke).
Local Abbreviation state :=
  (after urlEncode fn_toString call0 stringifyWithFunctions validate validateProps
     overlay hasRenderHook invoke).

Lemma after_snoc (calls : list call) (k : call) :
  state (calls ++ [k]) = run k (state calls).
Proof. unfold after. now rewrite fold_left_app. Qed.

Lemma after_app (calls more : list call) :
  state (calls ++ more)
  = fold_left (fun w k => run k w) more (state calls).
Proof. unfold after. now rewrite fold_left_app. Qed.

Lemma sound_perform (k : call) (w : world) : sound w -> sound (run k w).
Proof.
  intros Hs. destruct k; cbn [perform].
  - now apply keeps_constructor.
  - now apply keeps_render.
  - now apply keeps_updateProps.
  - now apply keeps_onInitMessage.
  - unfold onErrorMessage. now apply keeps_error.
  - now apply keeps_close.
  - now apply keeps_error.
  - now apply keeps_timeoutExpired.
  - now apply keeps_close.
  - now apply keeps_closeSettled.
  - now apply keeps_windowClosed.
  - now apply keeps_destroy.
Qed.

Lemma sound_after (calls : list call) : sound (state calls).
Proof.
  induction calls as [|k calls IH] using rev_ind; [apply sound_empty|].
  rewrite after_snoc. now apply sound_perform.
Qed.

(** A call that is not a construction changes instances only. *)
Lemma perform_evolves (k : call) (w : world) :
  (forall c o, k <> New c o) -> evolves w (run k w).
Proof.
  intros Hk. destruct k; cbn [perform].
  - now destruct (Hk c o).
  - apply calm_quiet, calm_render.
  - apply calm_quiet, calm_updateProps.
  - apply calm_quiet, calm_onInitMessage.
  - unfold onErrorMessage. apply quiet_error.
  - apply calm_quiet, calm_close.
  - apply quiet_error.
  - apply quiet_timeoutExpired.
  - apply calm_quiet, calm_close.
  - apply quiet_closeSettled.
  - apply quiet_windowClosed.
  - apply quiet_destroy.
Qed.

(** A construction stops after the allocation, or goes on from the state in
    which the new instance is registered. *)
Lemma constructor_calm (c : component) (o : options) (w : world) :
  fst (construct c o w) = allocated c w
  \/ (occupied c w = false /\ calmly (registered c w) (fst (construct c o w))).
Proof.
  rewrite constructor_unfold. destruct (validate c o) as [[]|e]; [|now left].
  destruct (occupied c w); [now left|]. right. split; [reflexivity|].
  apply calm_bind; [apply calm_setProps|]. intros _.
  apply calm_bind; [apply calm_acquire|]. intros _.
  apply calm_bind; [|intros _; apply calm_ret].
  apply calm_update. intros i. apply tweaked_one. constructor.
Qed.

Lemma constructor_state (c : component) (o : options) (w : world) :
  fst (construct c o w) = allocated c w
  \/ (occupied c w = false /\ evolves (registered c w) (fst (construct c o w))).
Proof.
  destruct (constructor_calm c o w) as [E|[Hocc E]]; [now left|right].
  split; [exact Hocc|now apply calmly_evolves].
Qed.

Lemma lookup_allocated (c : component) (w : world) (j : nat) :
  sound w ->
  lookup j (heap (allocated c w))
  = if Nat.eqb j (counter w) then Some (new_instance c) else lookup j (heap w).
Proof.
  intros Hs. cbn [heap allocated]. destruct (Nat.eqb_spec j (counter w)) as [->|Hne].
  - apply lookup_store_same.
  - now apply lookup_store_other.
Qed.

Lemma lookup_registered (c : component) (w : world) (j : nat) :
  sound w ->
  lookup j (heap (registered c w))
  = if Nat.eqb j (counter w) then Some (with_tasks [TUnregister] (new_instance c))
    else lookup j (heap w).
Proof.
  intros Hs. cbn [heap registered]. destruct (Nat.eqb_spec j (counter w)) as [->|Hne].
  - apply lookup_store_same.
  - now apply lookup_store_other.
Qed.

Lemma changed_registered (c : component) :
  changed (new_instance c) (with_tasks [TUnregister] (new_instance c)).
Proof.
  apply changed_one.
  exact (@change_register (new_instance c) TUnregister eq_refl).
Qed.

(** Where the instances of the state after a call come from. *)
Lemma perform_origin (k : call) (w : world) (j : nat) (i' : instance) :
  sound w ->
  lookup j (heap (run k w)) = Some i' ->
  (exists i, lookup j (heap w) = Some i /\ changed i i')
  \/ (exists c o, k = New c o /\ j = counter w /\ changed (new_instance c) i').
Proof.
  intros Hs Hl.
  assert (Hev : forall w0, evolves w0 (run k w) ->
                  exists i0, lookup j (heap w0) = Some i0 /\ changed i0 i').
  { intros w0 [_ Hh]. specialize (Hh j). rewrite Hl in Hh.
    destruct (lookup j (heap w0)) as [i0|]; [eauto|contradiction]. }
  destruct k as [c o| | | | | | | | | | |];
    try (left; apply Hev; apply perform_evolves; discriminate).
  cbn [perform] in *.
  destruct (constructor_state c o w) as [E|[_ E]].
  - rewrite E, lookup_allocated in Hl by assumption.
    destruct (Nat.eqb_spec j (counter w)) as [->|Hne].
    + injection Hl as <-. right. exists c, o. repeat split. apply changed_refl.
    + left. exists i'. split; [exact Hl|apply changed_refl].
  - destruct (Hev _ E) as (i0 & Hl0 & Hc). rewrite lookup_registered in Hl0 by assumption.
    destruct (Nat.eqb_spec j (counter w)) as [->|Hne].
    + injection Hl0 as <-. right. exists c, o. repeat split.
      eapply changed_trans; [apply changed_registered|exact Hc].
    + left. eauto.
Qed.

Lemma perform_grows (k : call) (w : world) : sound w -> grows w (run k w).
Proof.
  intros Hs.
  assert (Hnew : forall c, grows w (allocated c w) /\ grows w (registered c w)).
  { intros c. split; intros j i Hl; exists i; (split; [|apply changed_refl]).
    - rewrite lookup_allocated by assumption.
      destruct (Nat.eqb_spec j (counter w)) as [->|Hne]; [|exact Hl].
      rewrite (@lookup_below w (counter w) Hs (le_n _)) in Hl. discriminate.
    - rewrite lookup_registered by assumption.
      destruct (Nat.eqb_spec j (counter w)) as [->|Hne]; [|exact Hl].
      rewrite (@lookup_below w (counter w) Hs (le_n _)) in Hl. discriminate. }
  destruct k as [c o| | | | | | | | | | |];
    try (apply evolves_grows, perform_evolves; discriminate).
  cbn [perform]. destruct (constructor_state c o w) as [E|[_ E]].
  - rewrite E. apply Hnew.
  - eapply grows_trans; [apply (Hnew c)|apply evolves_grows, E].
Qed.

Lemma grows_after (calls more : list call) : grows (state calls) (state (calls ++ more)).
Proof.
  induction more as [|k more IH] using rev_ind.
  - rewrite app_nil_r. intros j i Hl. exists i. split; [exact Hl|apply changed_refl].
  - rewrite app_assoc, after_snoc. eapply grows_trans; [exact IH|].
    apply perform_grows, sound_after.
Qed.

Lemma spares_after (calls : list call) (j : nat) (i : instance) :
  lookup j (heap (state calls)) = Some i -> spares_style i.
Proof.
  revert j i. induction calls as [|k calls IH] using rev_ind; intros j i Hl.
  - discriminate.
  - rewrite after_snoc in Hl.
    destruct (@perform_origin k _ j i (sound_after calls) Hl)
      as [(i0 & Hl0 & Hc)|(c & o & _ & _ & Hc)].
    + eapply changed_spares_style; [exact Hc|]. eapply IH. exact Hl0.
    + eapply changed_spares_style; [exact Hc|]. intros t [].
Qed.

Lemma constructed_after (calls : list call) : constructed_by calls (state calls).
Proof.
  induction calls as [|k calls IH] using rev_ind; intros j i Hl.
  - discriminate.
  - rewrite after_snoc in Hl.
    destruct (@perform_origin k _ j i (sound_after calls) Hl)
      as [(i0 & Hl0 & Hc)|(c & o & -> & _ & Hc)].
    + destruct (IH j i0 Hl0) as [o Ho]. exists o.
      rewrite (changed_component Hc). apply in_app_iff. now left.
    + exists o. rewrite (changed_component Hc). cbn [i_component new_instance].
      apply in_app_iff. right. now left.
Qed.

Lemma active_below (w : world) (j : nat) :
  sound w -> In j (activeComponents w) -> j <> counter w.
Proof.
  intros (Hfr & _) Hin. pose proof (@fresh_ids_lt w j Hfr Hin). lia.
Qed.

Lemma not_occupied (c : component) (w : world) (j : nat) (i : instance) :
  sound w -> occupied c w = false -> c_singleton c = true ->
  In j (activeComponents w) -> lookup j (heap w) = Some i ->
  c_ref (i_component i) <> c_ref c.
Proof.
  intros Hs Hocc Hsing Hin Hl Hr. unfold occupied in Hocc. rewrite Hsing in Hocc.
  cbn [andb] in Hocc.
  assert (E : existsb (same_component (heap (allocated c w)) c) (activeComponents w)
              = true); [|congruence].
  apply existsb_exists. exists j. split; [exact Hin|]. unfold same_component.
  rewrite lookup_allocated by assumption.
  destruct (Nat.eqb_spec j (counter w)) as [E|_];
    [now destruct (@active_below w j Hs Hin)|].
  rewrite Hl. now apply Nat.eqb_eq.
Qed.

Lemma one_per_singleton_allocated (c : component) (w : world) :
  sound w -> one_per_singleton w -> one_per_singleton (allocated c w).
Proof.
  intros Hs Hone j1 j2 i1 i2 H1 H2 L1 L2. cbn [activeComponents allocated] in H1, H2.
  rewrite lookup_allocated in L1, L2 by assumption.
  destruct (Nat.eqb_spec j1 (counter w)) as [E|_];
    [now destruct (@active_below w j1 Hs H1)|].
  destruct (Nat.eqb_spec j2 (counter w)) as [E|_];
    [now destruct (@active_below w j2 Hs H2)|].
  now apply (Hone j1 j2 i1 i2).
Qed.

Lemma one_per_singleton_registered (calls : list call) (c : component) (o : options) :
  let w := state calls in
  distinct_definitions (calls ++ [New c o]) ->
  occupied c w = false -> one_per_singleton w -> one_per_singleton (registered c w).
Proof.
  intros w Hd Hocc Hone j1 j2 i1 i2 H1 H2 L1 L2 Hsing Hr.
  pose proof (sound_after calls) as Hs. fold w in Hs.
  cbn [activeComponents registered] in H1, H2.
  rewrite lookup_registered in L1, L2 by assumption.
  apply in_app_iff in H1, H2.
  destruct (Nat.eqb_spec j1 (counter w)) as [E1|N1],
           (Nat.eqb_spec j2 (counter w)) as [E2|N2].
  - congruence.
  - exfalso. injection L1 as <-. cbn [i_component with_tasks new_instance] in *.
    destruct H2 as [H2|[H2|[]]]; [|congruence].
    apply (@not_occupied c w j2 i2 Hs Hocc Hsing H2 L2). congruence.
  - exfalso. injection L2 as <-. cbn [i_component with_tasks new_instance] in *.
    destruct H1 as [H1|[H1|[]]]; [|congruence].
    destruct (@constructed_after calls j1 i1 L1) as [o1 Ho1].
    assert (Hc : i_component i1 = c).
    { apply (Hd (i_component i1) o1 c o); [apply in_app_iff; now left| |exact Hr].
      apply in_app_iff. right. now left. }
    apply (@not_occupied c w j1 i1 Hs Hocc); [congruence|exact H1|exact L1|congruence].
  - destruct H1 as [H1|[H1|[]]]; [|congruence].
    destruct H2 as [H2|[H2|[]]]; [|congruence].
    now apply (Hone j1 j2 i1 i2).
Qed.

(** After any history of calls that tells its definitions apart by their
    identity, the active list holds at most one instance of a singleton
    component. *)
Theorem singleton_unique_in_every_history (calls : list call) :
  distinct_definitions calls -> one_per_singleton (state calls).
Proof.
  induction calls as [|k calls IH] using rev_ind; intros Hd.
  - intros j1 j2 i1 i2 [].
  - assert (Hd' : distinct_definitions calls).
    { intros c o c' o' H1 H2. apply (Hd c o c' o'); apply in_app_iff; now left. }
    specialize (IH Hd'). rewrite after_snoc.
    destruct k as [c o| | | | | | | | | | |];
      try (eapply one_per_singleton_evolves; [apply perform_evolves; discriminate|exact IH]).
    cbn [perform]. destruct (constructor_state c o (state calls)) as [E|[Hocc E]].
    + rewrite E. apply one_per_singleton_allocated; [apply sound_after|exact IH].
    + eapply one_per_singleton_evolves; [exact E|].
      now apply (@one_per_singleton_registered calls c o).
Qed.

(** An instance that holds the parent style sheet holds it after every
    further history of calls, [destroy] included: no cleanup action that the
    class registers removes it. *)
Theorem parent_style_never_released (calls more : list call) (self : nat)
    (inst : instance) :
  lookup self (heap (state calls)) = Some inst ->
  In ParentStyle (i_resources inst) ->
  exists inst',
    lookup self (heap (state (calls ++ more))) = Some inst'
    /\ In ParentStyle (i_resources inst').
Proof.
  intros Hl Hin. destruct (@grows_after calls more self inst Hl) as (inst' & Hl' & Hc).
  exists inst'. split; [exact Hl'|].
  eapply changed_keeps_style; [exact Hc| |exact Hin].
  eapply spares_after. exact Hl.
Qed.

End HistoryFacts.

(** ** The other entries of the active list *)

Lemma existsb_eqb_In (j : nat) (l : list nat) : existsb (Nat.eqb j) l = true <-> In j l.
Proof.
  rewrite existsb_exists. split.
  - intros (x & Hx & E). apply Nat.eqb_eq in E. now subst.
  - intros H. exists j. split; [exact H|apply Nat.eqb_refl].
Qed.

Lemma existsb_eqb_same (j : nat) (l l' : list nat) :
  (In j l' <-> In j l) -> existsb (Nat.eqb j) l' = existsb (Nat.eqb j) l.
Proof.
  intros H. destruct (existsb (Nat.eqb j) l) eqn:E.
  - apply existsb_eqb_In, H, existsb_eqb_In, E.
  - destruct (existsb (Nat.eqb j) l') eqn:E'; [|reflexivity].
    apply existsb_eqb_In, H, existsb_eqb_In in E'. congruence.
Qed.

Lemma remove_at_keeps (x j : nat) (l : list nat) (n : nat) :
  indexOf x l = Some n -> j <> x -> In j l -> In j (remove_at n l).
Proof.
  revert n. induction l as [|y l IH]; intros n; simpl; [discriminate|].
  destruct (Nat.eqb y x) eqn:E.
  - intros [= <-] Hne [->|H]; [|exact H]. apply Nat.eqb_eq in E. congruence.
  - destruct (indexOf x l) as [m|]; [|discriminate]. intros [= <-] Hne [->|H].
    + now left.
    + right. now apply IH.
Qed.

Lemma indexOf_In (x : nat) (l : list nat) : In x l -> exists n, indexOf x l = Some n.
Proof.
  intros H. destruct (indexOf x l) as [n|] eqn:E; [eauto|].
  now apply indexOf_None in E.
Qed.

Lemma fold_active_unlisted (self : nat) (ts : list task) (l : list nat) :
  List.length (filter (task_eqb TUnregister) ts) = 0 ->
  fold_left (fun l t => task_active self t l) ts l = l.
Proof.
  revert l. induction ts as [|t ts IH]; intros l H; [reflexivity|].
  cbn [fold_left]. destruct t as [|f|rs]; cbn in H; [discriminate| |]; now apply IH.
Qed.

Lemma fold_active_listed (self : nat) (ts : list task) (l : list nat) (j : nat) :
  NoDup l -> In self l ->
  List.length (filter (task_eqb TUnregister) ts) = 1 ->
  In j (fold_left (fun l t => task_active self t l) ts l) <-> In j l /\ j <> self.
Proof.
  revert l. induction ts as [|t ts IH]; intros l Hnd Hin H; [discriminate|].
  cbn [fold_left]. destruct t as [|f|rs]; cbn in H.
  - injection H as H. rewrite fold_active_unlisted by exact H. cbn [task_active].
    destruct (indexOf_In self l Hin) as [n Hn]. rewrite Hn. cbn [splice1]. split.
    + intros Hj. split; [eapply remove_at_incl, Hj|].
      intros ->. now apply (@remove_at_indexOf self l n Hnd Hn).
    + intros [Hj Hne]. now apply (@remove_at_keeps self j l n).
  - now apply IH.
  - now apply IH.
Qed.

Lemma polite_calm {A : Type} (self : nat) (m : act A) : calm m -> polite self m.
Proof.
  intros Hc w Hs HJ. destruct (Hc w) as [Ha Hh]. split.
  - intros j i' Hl'. specialize (Hh j). rewrite Hl' in Hh.
    destruct (lookup j (heap w)) as [i|] eqn:Hl; [|contradiction].
    rewrite (tweaked_unregisters Hh), Ha. now apply HJ.
  - intros j _. now rewrite Ha.
Qed.

Lemma polite_bind {A B : Type} (self : nat) (m : act A) (k : A -> act B) :
  keeps m -> polite self m -> (forall a, polite self (k a)) -> polite self (bindA m k).
Proof.
  intros Hk Hm Hka w Hs HJ. unfold bindA. specialize (Hk w Hs).
  destruct (Hm w Hs HJ) as [HJ' Hin']. destruct (m w) as [w' [a|e]]; cbn [fst] in *.
  - destruct (Hka a w' Hk HJ') as [HJ'' Hin'']. split; [exact HJ''|].
    intros j Hj. rewrite Hin'' by exact Hj. now apply Hin'.
  - split; assumption.
Qed.

Lemma polite_swallow (self : nat) (m : act unit) : polite self m -> polite self (swallow m).
Proof. intros Hm w Hs HJ. apply (Hm w Hs HJ). Qed.

Lemma polite_destroy (self : nat) : polite self (destroy self).
Proof.
  intros w Hs HJ. destruct (lookup self (heap w)) as [inst|] eqn:Hl.
  - rewrite (@destroy_eq self inst w Hl). cbn [fst].
    assert (Ha : activeComponents (destroyed self inst w)
                 = fold_left (fun l t => task_active self t l) (i_cleanupTasks inst)
                     (activeComponents w)) by reflexivity.
    assert (Hh : heap (destroyed self inst w)
                 = store self
                     (with_tasks []
                        (fold_left (fun i t => task_instance t i) (i_cleanupTasks inst)
                           inst))
                     (heap w)) by reflexivity.
    unfold listed_once. rewrite Ha, Hh. clear Ha Hh.
    pose proof Hs as (_ & Hnd & _). apply nodup_nat_NoDup in Hnd.
    pose proof (HJ self inst Hl) as Hn. unfold unregisters in Hn.
    assert (Hmem : forall j,
               In j (fold_left (fun l t => task_active self t l) (i_cleanupTasks inst)
                       (activeComponents w))
               <-> In j (activeComponents w) /\ j <> self).
    { intros j. destruct (existsb (Nat.eqb self) (activeComponents w)) eqn:E.
      - apply existsb_eqb_In in E. now apply fold_active_listed.
      - rewrite fold_active_unlisted by exact Hn. split; [|tauto].
        intros Hj. split; [exact Hj|]. intros ->.
        apply existsb_eqb_In in Hj. congruence. }
    split.
    + intros j i Hj. destruct (Nat.eq_dec j self) as [->|Hne].
      * rewrite lookup_store_same in Hj. injection Hj as <-.
        assert (E : existsb (Nat.eqb self)
                      (fold_left (fun l t => task_active self t l) (i_cleanupTasks inst)
                         (activeComponents w)) = false).
        { apply not_true_is_false. rewrite existsb_eqb_In, Hmem. tauto. }
        rewrite E. reflexivity.
      * rewrite lookup_store_other in Hj by assumption. rewrite (HJ j i Hj).
        rewrite (@existsb_eqb_same j
                   (fold_left (fun l t => task_active self t l) (i_cleanupTasks inst)
                      (activeComponents w)) (activeComponents w)); [reflexivity|].
        rewrite Hmem. tauto.
    + intros j Hne. rewrite Hmem. tauto.
  - unfold destroy, cleanup, bindA, this. rewrite Hl. split; [exact HJ|tauto].
Qed.

Lemma polite_callback_destroy (invoke : func -> option js_error -> res unit)
    (self : nat) (name : string) (arg : option js_error) :
  polite self (callProp invoke self name arg ;;; destroy self).
Proof.
  apply polite_bind; [apply keeps_callProp|apply polite_calm, calm_callProp|].
  intros _. apply polite_destroy.
Qed.

Lemma polite_closeSettled (self : nat) (delivery : res unit) :
  polite self (closeSettled self delivery).
Proof.
  unfold closeSettled. apply polite_bind; [| |intros _; apply polite_destroy].
  - destruct delivery; [apply keeps_ret|apply keeps_emit].
  - apply polite_calm. calm_steps.
Qed.

Lemma polite_timeoutExpired (invoke : func -> option js_error -> res unit)
    (fn_toString : func -> string) (self : nat) :
  polite self (timeoutExpired fn_toString invoke self).
Proof.
  unfold timeoutExpired.
  apply polite_bind; [apply keeps_this|apply polite_calm, calm_this|]. intros inst.
  destruct (settled (i_onInit inst)).
  - apply polite_bind.
    + apply keeps_update. intros i. repeat split.
    + apply polite_calm. calm_steps.
    + intros _. apply polite_swallow, polite_callback_destroy.
  - apply polite_calm, calm_ret.
  - apply polite_swallow, polite_callback_destroy.
Qed.

Lemma listed_once_calmly (w w' : world) : calmly w w' -> listed_once w -> listed_once w'.
Proof.
  intros [Ha Hh] HJ j i' Hl'. specialize (Hh j). rewrite Hl' in Hh.
  destruct (lookup j (heap w)) as [i|] eqn:Hl; [|contradiction].
  rewrite (tweaked_unregisters Hh), Ha. now apply HJ.
Qed.

Section EntryFacts.

Variable urlEncode : string -> string.
Variable fn_toString : func -> string.
Variable call0 : func -> value.
Variable stringifyWithFunctions : obj value -> string.
Variable validate : component -> options -> res unit.
Variable validateProps : component -> obj value -> res unit.
Variable overlay : context -> bool.
Variable hasRenderHook : context -> bool.
Variable invoke : func -> option js_error -> res unit.

Local Abbreviation construct :=
  (constructor urlEncode fn_toString call0 validate validateProps).
Local Abbreviation run :=
  (perform urlEncode fn_toString call0 stringifyWithFunctions validate validateProps
     overlay hasRenderHook invoke).
Local Abbreviation state :=
  (after urlEncode fn_toString call0 stringifyWithFunctions validate validateProps
     overlay hasRenderHook invoke).

Lemma listed_once_allocated (c : component) (w : world) :
  sound w -> listed_once w -> listed_once (allocated c w).
Proof.
  intros Hs HJ j i Hl. rewrite lookup_allocated in Hl by assumption.
  cbn [activeComponents allocated].
  destruct (Nat.eqb_spec j (counter w)) as [->|Hne]; [|now apply HJ].
  injection Hl as <-. destruct (existsb (Nat.eqb (counter w)) _) eqn:E; [|reflexivity].
  apply existsb_eqb_In in E. now destruct (@active_below w (counter w) Hs E).
Qed.

Lemma listed_once_registered (c : component) (w : world) :
  sound w -> listed_once w -> listed_once (registered c w).
Proof.
  intros Hs HJ j i Hl. rewrite lookup_registered in Hl by assumption.
  cbn [activeComponents registered]. rewrite existsb_app. cbn [existsb].
  destruct (Nat.eqb_spec j (counter w)) as [->|Hne].
  - injection Hl as <-. cbn [orb]. rewrite orb_true_r. reflexivity.
  - cbn [orb]. rewrite orb_false_r. now apply HJ.
Qed.

Lemma perform_polite (k : call) (w : world) :
  sound w -> listed_once w ->
  listed_once (run k w)
  /\ forall j, j <> subject k w ->
       (In j (activeComponents (run k w)) <-> In j (activeComponents w)).
Proof.
  intros Hs HJ. destruct k as [c o|self el ctx|self props|self|self data|self|self err
                               |self|self|self delivery|self|self];
    cbn [perform subject].
  - destruct (constructor_calm urlEncode fn_toString call0 validate validateProps c o w)
      as [E|[_ [Ha Hh]]].
    + rewrite E. split; [now apply listed_once_allocated|]. intros j _. reflexivity.
    + split.
      * eapply listed_once_calmly; [split; [exact Ha|exact Hh]|].
        now apply listed_once_registered.
      * intros j Hne. rewrite Ha. cbn [activeComponents registered].
        rewrite in_app_iff. cbn [In]. intuition congruence.
  - now apply (polite_calm self (@calm_render overlay hasRenderHook self el ctx)).
  - now apply (polite_calm self
                 (@calm_updateProps urlEncode fn_toString call0 stringifyWithFunctions
                    validateProps self props)).
  - now apply (polite_calm self
                 (@calm_onInitMessage urlEncode fn_toString call0 stringifyWithFunctions
                    validateProps invoke self)).
  - now apply (@polite_callback_destroy invoke self "onError" (Some (Error data))).
  - now apply (polite_calm self (@calm_close invoke self)).
  - now apply (@polite_callback_destroy invoke self "onError" (Some err)).
  - now apply polite_timeoutExpired.
  - now apply (polite_calm self (@calm_close invoke self)).
  - now apply polite_closeSettled.
  - now apply (@polite_callback_destroy invoke self "onClose" None).
  - now apply polite_destroy.
Qed.

Lemma listed_once_after (calls : list call) : listed_once (state calls).
Proof.
  induction calls as [|k calls IH] using rev_ind; [intros j i Hl; discriminate|].
  rewrite (@after_snoc urlEncode fn_toString call0 stringifyWithFunctions validate
             validateProps overlay hasRenderHook invoke calls k).
  apply perform_polite; [apply sound_after|exact IH].
Qed.

(** After any history, a call on one instance leaves every other instance
    in the active list, or out of it, as it was: a teardown takes out the
    instance it is made on and no other, and a construction adds at most the
    new instance. *)
Theorem call_leaves_other_entries (calls : list call) (k : call) (j : nat) :
  j <> subject k (state calls) ->
  (In j (activeComponents (state (calls ++ [k])))
   <-> In j (activeComponents (state calls))).
Proof.
  intros Hne.
  rewrite (@after_snoc urlEncode fn_toString call0 stringifyWithFunctions validate
             validateProps overlay hasRenderHook invoke calls k).
  apply perform_polite; [apply sound_after|apply listed_once_after|exact Hne].
Qed.

End EntryFacts.

(** ** Callbacks *)

(** The class calls its callback props without a test. When the prop is not
    a function, [error], [close] and the close watcher throw before they tear
    anything down or send anything, and the state is as it was; the expiry of
    the timeout rejects the init future and then stops in the same way, inside
    the future, so that the instance is left standing. *)
Theorem missing_callback_leaves_instance (fn_toString : func -> string)
    (invoke : func -> option js_error -> res unit) (w : world)
    (self : nat) (inst : instance) :
  lookup self (heap w) = Some inst ->
  ((forall f, get (i_props inst) "onError" <> VFun f) ->
   forall err,
     error invoke self err w = (w, Throw (TypeError "this.props.onError is not a function")))
  /\ ((forall f, get (i_props inst) "onClose" <> VFun f) ->
      close invoke self w = (w, Throw (TypeError "this.props.onClose is not a function"))
      /\ windowClosed invoke self w
         = (w, Throw (TypeError "this.props.onClose is not a function")))
  /\ ((forall f, get (i_props inst) "onTimeout" <> VFun f) ->
      settled (i_onInit inst) = Pending ->
      timeoutExpired fn_toString invoke self w
      = ({| activeComponents := activeComponents w;
            heap := store self
                      (with_onInit {| settled := Rejected (timeoutError fn_toString inst);
                                      handlers := [] |} inst) (heap w);
            counter := counter w; timers := timers w; log := log w |}, Ok tt)).
Proof.
  intros Hl. split; [|split].
  - intros Hf err. unfold error, bindA.
    now rewrite (@callProp_missing invoke self "onError" (Some err) inst w Hl Hf).
  - intros Hf. unfold close, windowClosed, bindA.
    now rewrite (@callProp_missing invoke self "onClose" None inst w Hl Hf).
  - intros Hf Hp. unfold timeoutExpired. unfold bindA at 1.
    rewrite (@this_eq self inst w Hl), Hp. unfold bindA at 1.
    rewrite (@update_eq self _ inst w Hl). unfold swallow, bindA.
    erewrite callProp_missing;
      [reflexivity|cbn [heap]; apply lookup_store_same|exact Hf].
Qed.

(** When the child window is closed from outside and [onClose] is a function
    whose call returns, the close callback is called once and the instance
    is torn down; no CLOSE message is sent. When the call throws, the
    watcher throws what it threw and the instance is not torn down. *)
Theorem window_closed_tears_down (invoke : func -> option js_error -> res unit)
    (w : world) (self : nat) (inst : instance) (f : func) :
  lookup self (heap w) = Some inst ->
  get (i_props inst) "onClose" = VFun f ->
  tidy w self inst = true ->
  (invoke f None = Ok tt ->
   exists w',
     windowClosed invoke self w = (w', Ok tt)
     /\ log w' = (log w ++ Call self "onClose" f None
                       :: map (Cleanup self) (i_cleanupTasks inst))%list
     /\ torn_down w' self)
  /\ (forall e,
        invoke f None = Throw e ->
        windowClosed invoke self w = (logged [Call self "onClose" f None] w, Throw e)).
Proof.
  intros Hl Hf Ht. unfold windowClosed.
  rewrite (@callback_destroy_eq invoke self "onClose" None inst f w Hl Hf). split.
  - intros ->. eexists. split; [reflexivity|]. split.
    + simpl. now rewrite <- app_assoc.
    + now apply destroyed_torn_down.
  - intros e ->. reflexivity.
Qed.
(** ** A render that runs through *)

Lemma world_ext (w w' : world) :
  activeComponents w = activeComponents w' -> heap w = heap w' ->
  counter w = counter w' -> timers w = timers w' -> log w = log w' -> w = w'.
Proof. destruct w, w'; cbn. now intros -> -> -> -> ->. Qed.

Lemma instance_ext (i i' : instance) :
  i_component i = i_component i' -> i_props i = i_props i' -> i_url i = i_url i' ->
  i_window i = i_window i' -> i_context i = i_context i' -> i_onInit i = i_onInit i' ->
  i_cleanupTasks i = i_cleanupTasks i' -> i_resources i = i_resources i' -> i = i'.
Proof. destruct i, i'; cbn. now intros -> -> -> -> -> -> -> ->. Qed.

Lemma lookup_put (self : nat) (i : instance) (w : world) :
  lookup self (heap (put self i w)) = Some i.
Proof. apply lookup_store_same. Qed.

Lemma put_put (self : nat) (i j : instance) (w : world) :
  put self i (put self j w) = put self i w.
Proof. unfold put. cbn [heap]. now rewrite store_store. Qed.

Lemma update_put (self : nat) (f : instance -> instance) (i : instance) (w : world) :
  lookup self (heap w) = Some i -> update self f w = (put self (f i) w, Ok tt).
Proof. apply update_eq. Qed.

Lemma acquire_put (self : nat) (r : resource) (i : instance) (w : world) :
  lookup self (heap w) = Some i ->
  acquire self r w = (put self (with_resources (i_resources i ++ [r]) i) w, Ok tt).
Proof. intros Hl. unfold acquire. now rewrite (@update_put self _ i w Hl). Qed.

Lemma registerForCleanup_put (self : nat) (t : task) (i : instance) (w : world) :
  lookup self (heap w) = Some i ->
  registerForCleanup self t w
  = (put self (with_tasks (i_cleanupTasks i ++ [t]) i) w, Ok tt).
Proof. intros Hl. unfold registerForCleanup. now rewrite (@update_put self _ i w Hl). Qed.

Lemma setForCleanup_put (self : nat) (f : field) (g : instance -> instance)
    (i : instance) (w : world) :
  lookup self (heap w) = Some i ->
  setForCleanup self f g w = (put self (keeping f g i) w, Ok tt).
Proof.
  intros Hl. unfold setForCleanup, bindA. rewrite (@update_put self g i w Hl).
  rewrite (@registerForCleanup_put self (TDelete f) (g i) _ (lookup_put self (g i) w)).
  now rewrite put_put.
Qed.

Lemma hold_one (self : nat) (r : resource) (i : instance) (w : world) :
  lookup self (heap w) = Some i ->
  (acquire self r ;;; registerForCleanup self (TRelease [r])) w
  = (put self (holding [r] i) w, Ok tt).
Proof.
  intros Hl. unfold bindA. rewrite (@acquire_put self r i w Hl).
  rewrite (@registerForCleanup_put self _ _ _ (lookup_put self _ w)).
  now rewrite put_put.
Qed.

Lemma hold_two (self : nat) (r1 r2 : resource) (i : instance) (w : world) :
  lookup self (heap w) = Some i ->
  (acquire self r1 ;;; acquire self r2 ;;; registerForCleanup self (TRelease [r1; r2])) w
  = (put self (holding [r1; r2] i) w, Ok tt).
Proof.
  intros Hl. unfold bindA. rewrite (@acquire_put self r1 i w Hl).
  rewrite (@acquire_put self r2 _ _ (lookup_put self _ w)).
  rewrite (@registerForCleanup_put self _ _ _ (lookup_put self _ _)).
  rewrite !put_put. f_equal. f_equal. unfold holding.
  apply instance_ext; cbn; try reflexivity. now rewrite <- app_assoc.
Qed.

Lemma watchForClose_put (self : nat) (i : instance) (w : world) :
  lookup self (heap w) = Some i ->
  watchForClose self w
  = (put self (holding [CloseWatcher (counter w); UnloadWatcher (counter w)] i) (bump w),
     Ok tt).
Proof.
  intros Hl. unfold watchForClose. unfold bindA at 1. cbn [fresh].
  change {| activeComponents := activeComponents w; heap := heap w;
            counter := S (counter w); timers := timers w; log := log w |}
    with (bump w).
  now rewrite (@hold_two self _ _ i (bump w) Hl).
Qed.

Lemma driverOpen_put (self : nat) (x : context) (element : option string)
    (i : instance) (w : world) :
  lookup self (heap w) = Some i ->
  driverOpen self x element w
  = (put self
       (keeping FWindow (with_window (Some (counter w))) (holding [Surface (counter w)] i))
       (logged [Open self x element (counter w)] (bump w)), Ok tt).
Proof.
  intros Hl. unfold driverOpen. unfold bindA at 1. cbn [fresh].
  unfold bindA at 1. cbn [emit fst snd activeComponents heap counter timers log].
  change {| activeComponents := activeComponents w; heap := heap w;
            counter := S (counter w); timers := timers w;
            log := log w ++ [Open self x element (counter w)] |}
    with (logged [Open self x element (counter w)] (bump w)).
  set (w1 := logged [Open self x element (counter w)] (bump w)).
  assert (Hl1 : lookup self (heap w1) = Some i) by exact Hl.
  assert (E : (acquire self (Surface (counter w)) ;;;
               registerForCleanup self (TRelease [Surface (counter w)]) ;;;
               setForCleanup self FWindow (with_window (Some (counter w)))) w1
              = ((acquire self (Surface (counter w)) ;;;
                  registerForCleanup self (TRelease [Surface (counter w)])) ;;;
                 setForCleanup self FWindow (with_window (Some (counter w)))) w1).
  { unfold bindA. destruct (acquire self (Surface (counter w)) w1) as [w2 [[]|e]];
      [|reflexivity].
    destruct (registerForCleanup self (TRelease [Surface (counter w)]) w2)
      as [w3 [[]|e]]; reflexivity. }
  rewrite E. unfold bindA at 1. rewrite (@hold_one self _ i w1 Hl1).
  rewrite (@setForCleanup_put self _ _ _ _ (lookup_put self _ w1)).
  now rewrite put_put.
Qed.

Lemma listen_put (self : nat) (win : nat) (i : instance) (w : world) :
  lookup self (heap w) = Some i -> i_window i = Some win ->
  listen self w = (put self (holding [MessageListener win] i) w, Ok tt).
Proof.
  intros Hl Hw. unfold listen. unfold bindA at 1. rewrite (@this_eq self i w Hl), Hw.
  now apply hold_one.
Qed.

Lemma createOverlayTemplate_put (self : nat) (i : instance) (w : world) :
  lookup self (heap w) = Some i ->
  createOverlayTemplate self w = (put self (holding [Overlay; OverlayStyle] i) w, Ok tt).
Proof. intros Hl. unfold createOverlayTemplate. now apply hold_two. Qed.

Lemma runTimeout_eq (self : nat) (i : instance) (w : world) :
  lookup self (heap w) = Some i ->
  runTimeout self w
  = (if truthy (get (i_props i) "timeout")
     then armed self (get (i_props i) "timeout") w else w, Ok tt).
Proof.
  intros Hl. unfold runTimeout, bindA. rewrite (@this_eq self i w Hl).
  now destruct (truthy (get (i_props i) "timeout")).
Qed.

Lemma holding_fields (rs : list resource) (i : instance) :
  i_component (holding rs i) = i_component i /\ i_props (holding rs i) = i_props i
  /\ i_url (holding rs i) = i_url i /\ i_window (holding rs i) = i_window i
  /\ i_context (holding rs i) = i_context i /\ i_onInit (holding rs i) = i_onInit i
  /\ i_cleanupTasks (holding rs i) = (i_cleanupTasks i ++ [TRelease rs])%list
  /\ i_resources (holding rs i) = (i_resources i ++ rs)%list.
Proof. repeat split. Qed.

Lemma keeping_context_fields (x : context) (i : instance) :
  let k := keeping FContext (with_context (Some x)) i in
  i_component k = i_component i /\ i_props k = i_props i /\ i_url k = i_url i
  /\ i_window k = i_window i /\ i_context k = Some x /\ i_onInit k = i_onInit i
  /\ i_cleanupTasks k = (i_cleanupTasks i ++ [TDelete FContext])%list
  /\ i_resources k = i_resources i.
Proof. repeat split. Qed.

Lemma keeping_window_fields (n : nat) (i : instance) :
  let k := keeping FWindow (with_window (Some n)) i in
  i_component k = i_component i /\ i_props k = i_props i /\ i_url k = i_url i
  /\ i_window k = Some n /\ i_context k = i_context i /\ i_onInit k = i_onInit i
  /\ i_cleanupTasks k = (i_cleanupTasks i ++ [TDelete FWindow])%list
  /\ i_resources k = i_resources i.
Proof. repeat split. Qed.

(** Reading a field through the steps of an operation. *)
Ltac read_fields :=
  repeat match goal with
         | |- context [?p (holding ?rs ?i)] =>
             first
               [ rewrite (proj1 (holding_fields rs i))
               | rewrite (proj1 (proj2 (holding_fields rs i)))
               | rewrite (proj1 (proj2 (proj2 (holding_fields rs i))))
               | rewrite (proj1 (proj2 (proj2 (proj2 (holding_fields rs i)))))
               | rewrite (proj1 (proj2 (proj2 (proj2 (proj2 (holding_fields rs i))))))
               | rewrite (proj1 (proj2 (proj2 (proj2 (proj2 (proj2
                            (holding_fields rs i)))))))
               | rewrite (proj1 (proj2 (proj2 (proj2 (proj2 (proj2 (proj2
                            (holding_fields rs i))))))))
               | rewrite (proj2 (proj2 (proj2 (proj2 (proj2 (proj2 (proj2
                            (holding_fields rs i)))))))) ]
         | |- context [?p (keeping FContext (with_context (Some ?x)) ?i)] =>
             first
               [ rewrite (proj1 (keeping_context_fields x i))
               | rewrite (proj1 (proj2 (keeping_context_fields x i)))
               | rewrite (proj1 (proj2 (proj2 (keeping_context_fields x i))))
               | rewrite (proj1 (proj2 (proj2 (proj2 (keeping_context_fields x i)))))
               | rewrite (proj1 (proj2 (proj2 (proj2 (proj2
                            (keeping_context_fields x i))))))
               | rewrite (proj1 (proj2 (proj2 (proj2 (proj2 (proj2
                            (keeping_context_fields x i)))))))
               | rewrite (proj1 (proj2 (proj2 (proj2 (proj2 (proj2 (proj2
                            (keeping_context_fields x i))))))))
               | rewrite (proj2 (proj2 (proj2 (proj2 (proj2 (proj2 (proj2
                            (keeping_context_fields x i)))))))) ]
         | |- context [?p (keeping FWindow (with_window (Some ?n)) ?i)] =>
             first
               [ rewrite (proj1 (keeping_window_fields n i))
               | rewrite (proj1 (proj2 (keeping_window_fields n i)))
               | rewrite (proj1 (proj2 (proj2 (keeping_window_fields n i))))
               | rewrite (proj1 (proj2 (proj2 (proj2 (keeping_window_fields n i)))))
               | rewrite (proj1 (proj2 (proj2 (proj2 (proj2
                            (keeping_window_fields n i))))))
               | rewrite (proj1 (proj2 (proj2 (proj2 (proj2 (proj2
                            (keeping_window_fields n i)))))))
               | rewrite (proj1 (proj2 (proj2 (proj2 (proj2 (proj2 (proj2
                            (keeping_window_fields n i))))))))
               | rewrite (proj2 (proj2 (proj2 (proj2 (proj2 (proj2 (proj2
                            (keeping_window_fields n i)))))))) ]
         end.

Section RenderRuns.

Variable overlay : context -> bool.
Variable hasRenderHook : context -> bool.

(** The render from the point where the context is resolved. *)
Lemma render_steps (self : nat) (x : context) (element : option string)
    (inst : instance) (w : world) :
  lookup self (heap w) = Some inst ->
  ((if hasRenderHook x then emit (Hook self x) else ret tt) ;;;
   setForCleanup self FContext (with_context (Some x)) ;;;
   open self element x ;;;
   listen self ;;;
   loadUrl self ;;;
   runTimeout self ;;;
   (if overlay x then createOverlayTemplate self else ret tt) ;;;
   watchForClose self) w
  = (rendered overlay hasRenderHook self x element inst w, Ok tt).
Proof.
  intros Hl.
  set (w0 := if hasRenderHook x then logged [Hook self x] w else w).
  assert (H0 : (if hasRenderHook x then emit (Hook self x) else ret tt) w = (w0, Ok tt))
    by (subst w0; now destruct (hasRenderHook x)).
  assert (Hl0 : lookup self (heap w0) = Some inst)
    by (subst w0; now destruct (hasRenderHook x)).
  assert (Hc0 : counter w0 = counter w) by (subst w0; now destruct (hasRenderHook x)).
  unfold bindA at 1. rewrite H0.
  unfold bindA at 1. rewrite (@setForCleanup_put self _ _ inst w0 Hl0).
  set (i1 := keeping FContext (with_context (Some x)) inst).
  unfold bindA at 1. unfold open. unfold bindA at 1.
  rewrite (@driverOpen_put self x element i1 _ (lookup_put self i1 w0)).
  set (n := counter (put self i1 w0)).
  set (i2 := keeping FWindow (with_window (Some n)) (holding [Surface n] i1)).
  set (w2 := put self i2 (logged [Open self x element n] (bump (put self i1 w0)))).
  rewrite (@watchForClose_put self i2 w2 (lookup_put self i2 _)).
  set (i3 := holding [CloseWatcher (counter w2); UnloadWatcher (counter w2)] i2).
  set (w3 := put self i3 (bump w2)).
  unfold bindA at 1.
  rewrite (@listen_put self n i3 w3 (lookup_put self i3 _) eq_refl).
  set (i4 := holding [MessageListener n] i3). set (w4 := put self i4 w3).
  unfold bindA at 1. unfold loadUrl. unfold bindA at 1.
  rewrite (@this_eq self i4 w4 (lookup_put self i4 _)).
  cbn [emit fst snd].
  set (w5 := {| activeComponents := activeComponents w4; heap := heap w4;
                counter := counter w4; timers := timers w4;
                log := log w4 ++ [LoadUrl self (i_url i4)] |}).
  assert (Hl5 : lookup self (heap w5) = Some i4) by apply lookup_put.
  unfold bindA at 1. rewrite (@runTimeout_eq self i4 w5 Hl5).
  set (w6 := if truthy (get (i_props i4) "timeout")
             then armed self (get (i_props i4) "timeout") w5 else w5).
  assert (Hl6 : lookup self (heap w6) = Some i4)
    by (subst w6; now destruct (truthy (get (i_props i4) "timeout"))).
  set (i7 := if overlay x then holding [Overlay; OverlayStyle] i4 else i4).
  set (w7 := if overlay x then put self i7 w6 else w6).
  assert (H7 : (if overlay x then createOverlayTemplate self else ret tt) w6
               = (w7, Ok tt)).
  { subst w7 i7. destruct (overlay x); [|reflexivity].
    now apply createOverlayTemplate_put. }
  assert (Hl7 : lookup self (heap w7) = Some i7).
  { subst w7 i7. destruct (overlay x); [apply lookup_put|exact Hl6]. }
  unfold bindA at 1. rewrite H7.
  rewrite (@watchForClose_put self i7 w7 Hl7).
  f_equal.
  assert (Hc6 : counter w6 = S (S (counter w))).
  { subst w6. destruct (truthy (get (i_props i4) "timeout")); cbn; now rewrite Hc0. }
  assert (Hc7 : counter w7 = S (S (counter w))).
  { subst w7. destruct (overlay x); exact Hc6. }
  assert (Hn : n = counter w) by exact Hc0.
  assert (Hc2 : counter w2 = S (counter w)) by (cbn; now rewrite Hc0).
  apply world_ext; unfold rendered; cbn [activeComponents heap counter timers log put bump].
  - subst w7 w6. destruct (overlay x), (truthy (get (i_props i4) "timeout"));
      cbn; subst w0; now destruct (hasRenderHook x).
  - rewrite Hc7. subst w7 w6.
    assert (Hh6 : heap (if truthy (get (i_props i4) "timeout")
                        then armed self (get (i_props i4) "timeout") w5 else w5)
                  = heap w5) by now destruct (truthy (get (i_props i4) "timeout")).
    assert (Hh0 : heap w0 = heap w) by (subst w0; now destruct (hasRenderHook x)).
    destruct (overlay x) eqn:Ho; cbn [heap put]; rewrite Hh6; cbn [heap put bump w5 w4 w3 w2 logged];
      rewrite ?store_store, Hh0; f_equal; subst i7;
      apply instance_ext; cbn [i_component i_props i_url i_window i_context i_onInit
                               i_cleanupTasks i_resources];
      subst i4 i3 i2 i1; read_fields; rewrite ?Hc2, ?Hn, <- ?app_assoc; reflexivity.
  - now rewrite Hc7.
  - subst w7 w6. assert (Hp : i_props i4 = i_props inst) by reflexivity. rewrite Hp.
    destruct (overlay x), (truthy (get (i_props inst) "timeout"));
      cbn; subst w0; destruct (hasRenderHook x); cbn; now rewrite ?app_nil_r.
  - subst w7 w6.
    destruct (overlay x), (truthy (get (i_props i4) "timeout"));
      cbn; rewrite ?Hn; subst w0; destruct (hasRenderHook x); cbn;
      rewrite <- ?app_assoc; reflexivity.
Qed.

Lemma render_resolved (self : nat) (x : context) (element : option string)
    (ctx : option context) (inst : instance) (w : world) :
  lookup self (heap w) = Some inst ->
  validateRender inst ctx = Ok tt ->
  match ctx with
  | Some x0 => Ok x0
  | None => getRenderContext (i_component inst) element
  end = Ok x ->
  render overlay hasRenderHook self element ctx w
  = (rendered overlay hasRenderHook self x element inst w, Ok tt).
Proof.
  intros Hl Hv Hx. unfold render. unfold bindA at 1. rewrite (@this_eq self inst w Hl).
  unfold bindA at 1. unfold lift at 1. rewrite Hv. unfold bindA at 1.
  assert (E : match ctx with
              | Some x0 => ret x0
              | None => lift (getRenderContext (i_component inst) element)
              end w = (w, Ok x)).
  { destruct ctx; [now injection Hx as ->|]. unfold lift. now rewrite Hx. }
  rewrite E. now apply render_steps.
Qed.

(** On an instance without a child surface, a render with an allowed
    context, or with none when one can be resolved, returns and leaves the
    state [rendered]: the render hook of the driver if it has one, the surface
    opened and then the URL of the instance loaded into it; the window and
    the context recorded; the timeout armed if the prop is set; the overlay
    made if the driver asks for one; the message listener and two pairs of
    close watchers attached; every acquisition with its release registered. *)
Theorem render_runs_through (self : nat) (x : context) (element : option string)
    (ctx : option context) (inst : instance) (w : world) :
  lookup self (heap w) = Some inst ->
  i_window inst = None ->
  (ctx = Some x /\ c_contexts (i_component inst) x = true)
  \/ (ctx = None /\ getRenderContext (i_component inst) element = Ok x) ->
  render overlay hasRenderHook self element ctx w
  = (rendered overlay hasRenderHook self x element inst w, Ok tt).
Proof.
  intros Hl Hw Hctx. apply render_resolved; [exact Hl| |].
  - unfold validateRender. rewrite Hw.
    destruct Hctx as [[-> Hc]|[-> _]]; [now rewrite Hc|reflexivity].
  - destruct Hctx as [[-> _]|[-> Hg]]; [reflexivity|exact Hg].
Qed.

(** The allowed contexts are checked for a context that is passed, and for
    iframe when an element is given, but not for the declared default: with
    no element and no context, a default of lightbox or popup that the
    component does not allow is opened all the same, while the same context
    passed explicitly is refused. *)
Theorem render_opens_default_unchecked (self : nat) (d : context)
    (element : option string) (inst : instance) (w : world) :
  lookup self (heap w) = Some inst ->
  i_window inst = None ->
  given element = false ->
  c_defaultContext (i_component inst) = Some d -> d <> Iframe ->
  c_contexts (i_component inst) d = false ->
  render overlay hasRenderHook self element None w
  = (rendered overlay hasRenderHook self d element inst w, Ok tt)
  /\ exists msg,
       render overlay hasRenderHook self element (Some d) w = (w, Throw (Error msg)).
Proof.
  intros Hl Hw Hg Hd Hne Hc. split.
  - apply render_resolved; [exact Hl| |].
    + unfold validateRender. now rewrite Hw.
    + unfold getRenderContext. rewrite Hg, Hd. destruct d; [congruence| |]; reflexivity.
  - unfold render. unfold bindA at 1. rewrite (@this_eq self inst w Hl).
    unfold bindA at 1. unfold lift at 1. unfold validateRender. rewrite Hw, Hc.
    cbn [negb]. eauto.
Qed.

End RenderRuns.

(** ** Hijacked renders *)

Section HijackFacts.

Variable overlay : context -> bool.
Variable childWindowName : nat -> string.

Lemma hijack_steps (self : nat) (x : context) (inst : instance) (w : world) :
  lookup self (heap w) = Some inst ->
  (setForCleanup self FContext (with_context (Some x)) ;;;
   open self None x ;;;
   listen self ;;;
   runTimeout self ;;;
   (if overlay x then createOverlayTemplate self else ret tt)) w
  = (hijacked overlay self x inst w, Ok tt).
Proof.
  intros Hl.
  unfold bindA at 1. rewrite (@setForCleanup_put self _ _ inst w Hl).
  set (i1 := keeping FContext (with_context (Some x)) inst).
  unfold bindA at 1. unfold open. unfold bindA at 1.
  rewrite (@driverOpen_put self x None i1 _ (lookup_put self i1 w)).
  set (n := counter (put self i1 w)).
  set (i2 := keeping FWindow (with_window (Some n)) (holding [Surface n] i1)).
  set (w2 := put self i2 (logged [Open self x None n] (bump (put self i1 w)))).
  rewrite (@watchForClose_put self i2 w2 (lookup_put self i2 _)).
  set (i3 := holding [CloseWatcher (counter w2); UnloadWatcher (counter w2)] i2).
  set (w3 := put self i3 (bump w2)).
  unfold bindA at 1.
  rewrite (@listen_put self n i3 w3 (lookup_put self i3 _) eq_refl).
  set (i4 := holding [MessageListener n] i3). set (w4 := put self i4 w3).
  unfold bindA at 1. rewrite (@runTimeout_eq self i4 w4 (lookup_put self i4 _)).
  set (w6 := if truthy (get (i_props i4) "timeout")
             then armed self (get (i_props i4) "timeout") w4 else w4).
  assert (Hl6 : lookup self (heap w6) = Some i4).
  { subst w6. destruct (truthy (get (i_props i4) "timeout")); apply lookup_put. }
  assert (Hh6 : heap w6 = heap w4)
    by (subst w6; now destruct (truthy (get (i_props i4) "timeout"))).
  set (i7 := if overlay x then holding [Overlay; OverlayStyle] i4 else i4).
  assert (H7 : (if overlay x then createOverlayTemplate self else ret tt) w6
               = (put self i7 w6, Ok tt)).
  { subst i7. destruct (overlay x); [now apply createOverlayTemplate_put|].
    unfold ret, put. f_equal. apply world_ext; cbn [activeComponents heap counter timers log];
      try reflexivity. symmetry. now apply store_same. }
  rewrite H7. f_equal. assert (Hc2 : counter w2 = S (counter w)) by reflexivity.
  assert (Hn : n = counter w) by reflexivity.
  apply world_ext; unfold hijacked; cbn [activeComponents heap counter timers log put].
  - subst w6. now destruct (truthy (get (i_props i4) "timeout")).
  - rewrite Hh6. cbn [heap put bump w4 w3 w2 logged]. rewrite ?store_store. f_equal.
    subst i7. destruct (overlay x);
      apply instance_ext; cbn [i_component i_props i_url i_window i_context i_onInit
                               i_cleanupTasks i_resources];
      subst i4 i3 i2 i1; read_fields; rewrite ?Hc2, ?Hn, <- ?app_assoc, ?app_nil_r;
      reflexivity.
  - subst w6. now destruct (truthy (get (i_props i4) "timeout")).
  - subst w6. assert (Hp : i_props i4 = i_props inst) by reflexivity. rewrite Hp.
    destruct (truthy (get (i_props inst) "timeout")); cbn; now rewrite ?app_nil_r.
  - subst w6. destruct (truthy (get (i_props i4) "timeout")); reflexivity.
Qed.

(** [renderHijack] takes lightbox when no context is passed. It refuses an
    instance that has a child surface, and a context the component does not
    allow, before it touches the page. Otherwise it points the element at the
    child window, opens the surface, listens, arms the timeout and makes the
    overlay as [render] does, and loads no URL: the log gains the opening of
    the surface and nothing else. *)
Theorem renderHijack_opens_without_loading (self : nat) (el : string)
    (ctx : option context) (inst : instance) (pg : page) :
  let x := match ctx with Some x => x | None => Lightbox end in
  lookup self (heap (p_world pg)) = Some inst ->
  (i_window inst <> None \/ c_contexts (i_component inst) x = false ->
   exists msg, renderHijack overlay childWindowName self el ctx pg = (pg, Throw (Error msg)))
  /\ (i_window inst = None -> c_contexts (i_component inst) x = true ->
      renderHijack overlay childWindowName self el ctx pg
      = ({| p_world := hijacked overlay self x inst (p_world pg);
            p_targets := obj_set (p_targets pg) el (childWindowName self) |}, Ok tt))
  /\ log (hijacked overlay self x inst (p_world pg))
     = (log (p_world pg) ++ [Open self x None (counter (p_world pg))])%list.
Proof.
  intros x Hl. destruct pg as [w targets]. cbn [p_world p_targets] in *.
  unfold renderHijack. cbn [p_world p_targets]. fold x.
  split; [|split; [|reflexivity]].
  - intros Hbad. unfold bindA at 1. rewrite (@this_eq self inst w Hl).
    unfold bindA at 1. unfold lift at 1. unfold validateRender.
    destruct (i_window inst) as [win|]; [eauto|].
    destruct Hbad as [Hbad|Hbad]; [congruence|]. rewrite Hbad. cbn [negb]. eauto.
  - intros Hw Hc.
    assert (E : (inst0 <~ this self ;;
                 lift (validateRender inst0 (Some x)) ;;;
                 setForCleanup self FContext (with_context (Some x))) w
                = setForCleanup self FContext (with_context (Some x)) w).
    { unfold bindA at 1. rewrite (@this_eq self inst w Hl).
      unfold bindA at 1. unfold lift at 1. unfold validateRender. now rewrite Hw, Hc. }
    rewrite E. clear E.
    pose proof (@hijack_steps self x inst w Hl) as Hs. unfold bindA at 1 in Hs.
    destruct (setForCleanup self FContext (with_context (Some x)) w) as [w1 [[]|e]];
      [|discriminate].
    rewrite Hs. reflexivity.
Qed.

End HijackFacts.

(** ** Callbacks through an update *)

Lemma obj_get_extend_other (target source : obj value) (k : string) :
  ~ In k (keys source) -> obj_get (extend target source) k = obj_get target k.
Proof.
  unfold extend. revert target.
  induction source as [|[k1 v1] source IH]; intros target Hnin; [reflexivity|].
  cbn [fold_left fst snd]. rewrite IH by (intros H; apply Hnin; now right).
  apply obj_get_set_other. intros ->. apply Hnin. now left.
Qed.

Lemma extend_fresh (source : obj value) : NoDup (keys source) -> extend [] source = source.
Proof. intros H. unfold extend. now rewrite fold_set_distinct. Qed.

Section UpdateWraps.

Variable fn_toString : func -> string.
Variable call0 : func -> value.

(** [updateProps] normalizes the props it merges, the old ones included:
    a callback that the update does not mention is wrapped by the flags of
    its prop and bound to the instance once more. *)
Theorem update_wraps_callbacks_again (c : component) (self : nat)
    (old props result : obj value) (k : string) (prop : propDef) (f : func) :
  NoDup (keys old) ->
  obj_get old k = Some (VFun f) ->
  obj_get props k = None ->
  obj_get (c_props c) k = Some prop -> ptype prop = "function" ->
  normalizeProps fn_toString call0 c self (Some (extend (extend [] old) props))
  = Ok result ->
  obj_get result k = Some (VFun (FBound (wrapped prop f) self)).
Proof.
  intros Hnd Hold Hnew Hk Ht Hn.
  destruct (@normalizeProps_get fn_toString call0 c self _ result k prop Hn Hk)
    as (v & Hv & Hc).
  rewrite Hv. f_equal. cbn [raw_of] in Hc.
  assert (Hm : obj_get (extend (extend [] old) props) k = Some (VFun f)).
  { rewrite obj_get_extend_other, extend_fresh by
      (try assumption; intros Hin; apply obj_get_in_keys in Hin;
       destruct Hin as [x Hx]; congruence).
    exact Hold. }
  unfold withDefault, read, hasOwnProperty in Hc. rewrite Hm in Hc.
  cbn [nonempty andb negb] in Hc. unfold coerce in Hc. rewrite Ht in Hc.
  cbn in Hc. unfold wrapped. congruence.
Qed.

End UpdateWraps.

(** ** A render after a destruction *)

Section RenderAgain.

Variable overlay : context -> bool.
Variable hasRenderHook : context -> bool.

(** [destroy] leaves an instance that [render] accepts again, but only the
    constructor enters an instance in the active list: the instance rendered
    after its destruction has a child surface and is not in the list, so the
    singleton check does not see it. *)
Theorem render_after_destroy_is_unlisted (w : world) (self : nat) (inst : instance)
    (x : context) (element : option string) (ctx : option context) :
  lookup self (heap w) = Some inst ->
  tidy w self inst = true ->
  (ctx = Some x /\ c_contexts (i_component inst) x = true)
  \/ (ctx = None /\ getRenderContext (i_component inst) element = Ok x) ->
  exists w1 w2 inst2,
    destroy self w = (w1, Ok tt)
    /\ render overlay hasRenderHook self element ctx w1 = (w2, Ok tt)
    /\ lookup self (heap w2) = Some inst2
    /\ i_window inst2 = Some (counter w)
    /\ i_component inst2 = i_component inst
    /\ ~ In self (activeComponents w2).
Proof.
  intros Hl Ht Hctx. rewrite (@destroy_eq self inst w Hl).
  destruct (@destroyed_torn_down self inst w Ht) as (i1 & Hl1 & _ & Hw1 & _ & _ & Hout).
  assert (Hc1 : i_component i1 = i_component inst).
  { unfold destroyed in Hl1. cbn [heap] in Hl1. rewrite lookup_store_same in Hl1.
    injection Hl1 as <-. cbn [i_component with_tasks].
    apply (fold_kept (i_cleanupTasks inst) inst). }
  exists (destroyed self inst w).
  exists (rendered overlay hasRenderHook self x element i1 (destroyed self inst w)).
  eexists. split; [reflexivity|]. split; [|split; [apply lookup_store_same|]].
  - apply render_resolved; [exact Hl1| |].
    + unfold validateRender. rewrite Hw1, Hc1.
      destruct Hctx as [[-> Hc]|[-> _]]; [now rewrite Hc|reflexivity].
    + rewrite Hc1. destruct Hctx as [[-> _]|[-> Hg]]; [reflexivity|exact Hg].
  - cbn [i_window i_component]. split; [reflexivity|]. split; [exact Hc1|exact Hout].
Qed.

End RenderAgain.

(** ** The error flow *)

Section ErrorFacts.

Variable urlEncode : string -> string.
Variable fn_toString : func -> string.
Variable call0 : func -> value.
Variable validate : component -> options -> res unit.
Variable validateProps : component -> obj value -> res unit.
Variable overlay : context -> bool.
Variable hasRenderHook : context -> bool.
Variable invoke : func -> option js_error -> res unit.

Local Abbreviation construct :=
  (constructor urlEncode fn_toString call0 validate validateProps).

(** C8, as amended. On an instance whose [onError] prop is a function,
    [error(err)] calls the error callback first: when the callback returns,
    the state is the old one with the call logged, so the instance still
    holds its surface, listeners and overlay. The teardown follows the
    return: when [error] itself returns every registered cleanup action has
    run, in order and once, and the instance is fully torn down. In the
    state it leaves a fresh instance can be constructed and rendered:
    whenever its options and props are accepted, its URL builds and a
    context is allowed, and, for a singleton, no other instance of the
    component is in the active list. When the callback throws, [error]
    throws what it threw and nothing is torn down. The listener of the
    child's ERROR message is this same flow. *)
Theorem error_calls_back_then_tears_down (w : world) (self : nat) (inst : instance)
    (f : func) (err : js_error) :
  lookup self (heap w) = Some inst ->
  get (i_props inst) "onError" = VFun f ->
  tidy w self inst = true ->
  callProp invoke self "onError" (Some err) w
  = (logged [Call self "onError" f (Some err)] w, invoke f (Some err))
  /\ (invoke f (Some err) = Ok tt ->
      exists w',
        error invoke self err w = (w', Ok tt)
        /\ log w' = (log w ++ Call self "onError" f (Some err)
                          :: map (Cleanup self) (i_cleanupTasks inst))%list
        /\ torn_down w' self
        /\ (fresh_ids w = true ->
            forall c o p u x element ctx,
              (c_singleton c = true ->
               forall j i,
                 In j (activeComponents w) -> j <> self -> lookup j (heap w) = Some i ->
                 c_ref (i_component i) <> c_ref c) ->
              validate c o = Ok tt -> validateProps c (props_of o) = Ok tt ->
              normalizeProps fn_toString call0 c (counter w) (Some (props_of o)) = Ok p ->
              buildUrl urlEncode fn_toString c p = Ok u ->
              (ctx = Some x /\ c_contexts c x = true)
              \/ (ctx = None /\ getRenderContext c element = Ok x) ->
              construct c o w' = (constructed c p u w', Ok (counter w))
              /\ render overlay hasRenderHook (counter w) element ctx (constructed c p u w')
                 = (rendered overlay hasRenderHook (counter w) x element (built c p u)
                      (constructed c p u w'), Ok tt)))
  /\ (forall e,
        invoke f (Some err) = Throw e ->
        error invoke self err w = (logged [Call self "onError" f (Some err)] w, Throw e))
  /\ (forall data, onErrorMessage invoke self data w = error invoke self (Error data) w).
Proof.
  intros Hl Hf Ht. split; [now apply callProp_eq with (inst := inst)|].
  split; [|split; [|reflexivity]].
  - intros Hr. unfold error.
    rewrite (@callback_destroy_eq invoke self "onError" (Some err) inst f w Hl Hf), Hr.
    set (w' := destroyed self inst (logged [Call self "onError" f (Some err)] w)).
    assert (Htd : torn_down w' self) by now apply destroyed_torn_down.
    exists w'. split; [reflexivity|]. split; [|split; [exact Htd|]].
    { cbn [log w' destroyed after_tasks logged]. now rewrite <- app_assoc. }
    intros Hfresh c o p u x element ctx Hfree Hv Hvp Hn Hb Hctx.
    destruct Htd as (i1 & _ & _ & _ & _ & _ & Hout).
    assert (Hf' : fresh_ids w' = true)
      by (apply fresh_ids_destroyed; exact Hfresh).
    split.
    + apply (@constructor_succeeds urlEncode fn_toString call0 validate validateProps
               c o w' p u Hv); try assumption.
      destruct (c_singleton c) eqn:Hs; [|unfold occupied; now rewrite Hs].
      apply not_occupied_free; [exact Hf'|].
      intros j i Hj Hi.
      assert (Hne : j <> self) by (intros ->; exact (Hout Hj)).
      apply (Hfree eq_refl j i); [|exact Hne|].
      * cbn [activeComponents w' destroyed after_tasks logged] in Hj.
        eapply fold_active_incl. exact Hj.
      * cbn [heap w' destroyed logged] in Hi.
        now rewrite lookup_store_other in Hi by congruence.
    + apply render_resolved.
      * apply lookup_store_same.
      * unfold validateRender. cbn [i_window built i_component].
        destruct Hctx as [[-> Hc]|[-> _]]; [now rewrite Hc|reflexivity].
      * cbn [i_component built]. destruct Hctx as [[-> _]|[-> Hg]]; [reflexivity|exact Hg].
  - intros e Hr. unfold error.
    now rewrite (@callback_destroy_eq invoke self "onError" (Some err) inst f w Hl Hf), Hr.
Qed.

End ErrorFacts.
(** ** The properties on the example page *)

(** An error on the rendered checkout leaves it torn down, and a new
    checkout can be constructed and rendered at once. *)
Lemma error_teardown_witness :
  exists w' w1 w2,
    error callbackReturns 0 childFailed rendered_checkout = (w', Ok tt)
    /\ torn_down w' 0
    /\ build checkout None w' = (w1, Ok (counter rendered_checkout))
    /\ render overlayOf noHook (counter rendered_checkout) None None w1 = (w2, Ok tt).
Proof.
  destruct (proj1 (proj2 (@error_calls_back_then_tears_down noEncoding nativeSource
                            returnsUndefined accept acceptProps overlayOf noHook
                            callbackReturns rendered_checkout 0
                            (instance_in rendered_checkout 0) FNoop childFailed
                            eq_refl eq_refl eq_refl)) eq_refl)
    as (w' & He & _ & Ht & Hnew).
  destruct (Hnew eq_refl checkout {| o_props := None |}
              (i_props (instance_in rendered_checkout 0))
              (i_url (instance_in rendered_checkout 0)) Lightbox None None)
    as (Hc & Hr).
  - intros _ j i [<-|[]] Hne. now destruct Hne.
  - reflexivity.
  - reflexivity.
  - vm_compute. reflexivity.
  - reflexivity.
  - right. split; reflexivity.
  - exists w'. eexists. eexists. split; [exact He|]. split; [exact Ht|].
    split; [exact Hc|exact Hr].
Defined.

(** The object prop [valueOf] of the shadowed component, not supplied and
    without a default, holds the method that the raw props inherit. *)
Lemma normalizeProps_typed_witness :
  exists p,
    normalizeProps nativeSource returnsUndefined shadowed 0 None = Ok p
    /\ obj_get p "valueOf" = Some (VFun (FUser "Object.prototype.valueOf")).
Proof.
  destruct (normalizeProps nativeSource returnsUndefined shadowed 0 None) as [p|e] eqn:Hn;
    [|vm_compute in Hn; discriminate].
  destruct (@normalizeProps_typed nativeSource returnsUndefined shadowed 0 None p
              "valueOf" (plainProp "object" VUndefined) eq_refl Hn eq_refl)
    as (v & Hv & _ & _ & _ & _ & Hobj).
  exists p. split; [reflexivity|]. rewrite Hv, (Hobj eq_refl). reflexivity.
Defined.

(** The names of the shadowed component reach its launch URL: the boolean
    prop [toString] is true without being supplied. *)
Lemma inherited_members_reach_the_url :
  normalizeProps nativeSource returnsUndefined shadowed 0 None
  = Ok [("toString", VBool true); ("valueOf", VFun (FUser "Object.prototype.valueOf"))]
  /\ buildUrl noEncoding nativeSource shadowed
       [("toString", VBool true); ("valueOf", VFun (FUser "Object.prototype.valueOf"))]
     = Ok (VStr "https://x.example/shadow?toString=1")
  /\ inherited "hasOwnProperty" = VFun (FUser "Object.prototype.hasOwnProperty")
  /\ inherited "__proto__" = VObj []
  /\ inherited "env" = VUndefined.
Proof. repeat split. Qed.

(** The bound of the safe integers, and the props of the examples that are
    and are not named like inherited members. *)
Lemma safe_integers :
  safe (2 ^ 53 - 1) = true /\ safe (- (2 ^ 53 - 1)) = true
  /\ safe (2 ^ 53) = false /\ safe (- 2 ^ 53) = false
  /\ safe_value (VArr [VNum (Num 1); VObj [("n", VNum (Num (10 ^ 21)))]]) = false
  /\ own_names checkout
  /\ (exists k, In k (keys (c_props shadowed)) /\ inherited k <> VUndefined).
Proof.
  repeat (split; [reflexivity|]). split.
  - intros k Hk. cbn [keys map fst c_props checkout In] in Hk.
    repeat (destruct Hk as [<-|Hk]; [reflexivity|]). destruct Hk.
  - exists "valueOf". split; [vm_compute; tauto|discriminate].
Qed.

(** The error callback of the rendered checkout throws: [error] throws what
    it threw, and the checkout keeps its surface and its cleanup actions. *)
Lemma error_callback_throws :
  let w1 := fst (error callbackFails 0 childFailed rendered_checkout) in
  snd (error callbackFails 0 childFailed rendered_checkout)
  = Throw (Error "callback failed")
  /\ log w1 = (log rendered_checkout ++ [Call 0 "onError" FNoop (Some childFailed)])%list
  /\ i_window (instance_in w1 0) = Some 1
  /\ List.length (i_cleanupTasks (instance_in w1 0)) = 8
  /\ In 0 (activeComponents w1).
Proof.
  cbv zeta. repeat (split; [reflexivity|]). vm_compute. tauto.
Qed.

(** The runner has no URL for the environment [staging]. *)
Lemma buildUrl_unknown_env_witness :
  exists msg,
    buildUrl noEncoding nativeSource runner [("env", VStr "staging")]
    = Throw (TypeError msg).
Proof.
  apply (@buildUrl_unknown_env noEncoding nativeSource runner [("env", VStr "staging")]).
  - reflexivity.
  - reflexivity.
  - intros f. discriminate.
  - reflexivity.
Defined.

(** The runner constructed without props is launched at its own URL. *)
Lemma no_props_plain_url_witness :
  exists p,
    normalizeProps nativeSource returnsUndefined runner 0 None = Ok p
    /\ propsToQuery noEncoding nativeSource p = ""
    /\ buildUrl noEncoding nativeSource runner p = Ok (VStr "https://x.example/").
Proof.
  apply (@no_props_plain_url noEncoding nativeSource returnsUndefined runner 0 None).
  - reflexivity.
  - intros k [<-|[]]. reflexivity.
  - intros k prop H. cbn [c_props runner obj_get] in H.
    destruct (String.eqb "env" k); [|discriminate]. injection H as <-. reflexivity.
  - intros k prop _ H _. cbn [c_props runner obj_get] in H.
    destruct (String.eqb "env" k); [|discriminate]. injection H as <-. reflexivity.
Defined.

(** Two constructions of a checkout, a render, a destruction and a third
    construction leave one checkout in the active list. *)
Lemma singleton_unique_witness :
  one_per_singleton
    (example_after [New checkout {| o_props := None |};
                    New checkout {| o_props := None |};
                    Render 0 None None;
                    Destroy 0;
                    New checkout {| o_props := None |}])
  /\ activeComponents
       (example_after [New checkout {| o_props := None |};
                       New checkout {| o_props := None |};
                       Render 0 None None;
                       Destroy 0;
                       New checkout {| o_props := None |}]) = [5].
Proof.
  split; [|vm_compute; reflexivity].
  apply (@singleton_unique_in_every_history noEncoding nativeSource returnsUndefined
           jsonOfProps accept acceptProps overlayOf noHook callbackReturns).
  assert (H : forall c o,
             In (New c o) [New checkout {| o_props := None |};
                           New checkout {| o_props := None |};
                           Render 0 None None;
                           Destroy 0;
                           New checkout {| o_props := None |}] -> c = checkout).
  { intros c o H. cbn [In] in H.
    repeat (destruct H as [H|H]; [try discriminate; now injection H as <- _|]).
    destruct H. }
  intros c o c' o' H1 H2 _. now rewrite (H c o H1), (H c' o' H2).
Defined.

(** The checkout still holds the parent style sheet after it is destroyed. *)
Lemma parent_style_witness :
  exists inst',
    lookup 0 (heap (example_after ([New checkout {| o_props := None |};
                                    Render 0 None None] ++ [Destroy 0])))
    = Some inst'
    /\ In ParentStyle (i_resources inst').
Proof.
  apply (@parent_style_never_released noEncoding nativeSource returnsUndefined
           jsonOfProps accept acceptProps overlayOf noHook callbackReturns
           [New checkout {| o_props := None |}; Render 0 None None] [Destroy 0] 0
           (instance_in rendered_checkout 0)).
  - vm_compute. reflexivity.
  - vm_compute. now left.
Defined.

(** Destroying the runner leaves the framed component in the active list. *)
Lemma other_entries_witness :
  In 1 (activeComponents (example_after ([New runner {| o_props := None |};
                                          New framed {| o_props := None |}]
                                         ++ [Destroy 0])))
  <-> In 1 (activeComponents (example_after [New runner {| o_props := None |};
                                             New framed {| o_props := None |}])).
Proof.
  apply (@call_leaves_other_entries noEncoding nativeSource returnsUndefined jsonOfProps
           accept acceptProps overlayOf noHook callbackReturns
           [New runner {| o_props := None |}; New framed {| o_props := None |}]
           (Destroy 0) 1).
  cbn [subject]. discriminate.
Defined.

(** The runner declares no error callback: an error on it throws and leaves
    it as it is. *)
Lemma missing_callback_witness :
  error callbackReturns 0 childFailed started_runner
  = (started_runner, Throw (TypeError "this.props.onError is not a function")).
Proof.
  apply (proj1 (@missing_callback_leaves_instance nativeSource callbackReturns
                  started_runner 0 (instance_in started_runner 0) eq_refl)).
  intros f. vm_compute. discriminate.
Defined.

(** The rendered checkout is torn down when its window is closed. *)
Lemma window_closed_witness :
  exists w',
    windowClosed callbackReturns 0 rendered_checkout = (w', Ok tt) /\ torn_down w' 0.
Proof.
  destruct (proj1 (@window_closed_tears_down callbackReturns rendered_checkout 0
                     (instance_in rendered_checkout 0) FNoop eq_refl eq_refl eq_refl)
              eq_refl)
    as (w' & Hw & _ & Ht).
  exists w'. split; assumption.
Defined.

(** The runner rendered into an element. *)
Lemma render_runs_through_witness :
  render overlayOf noHook 0 (Some "#container") None started_runner
  = (rendered overlayOf noHook 0 Iframe (Some "#container")
       (instance_in started_runner 0) started_runner, Ok tt).
Proof.
  apply (@render_runs_through overlayOf noHook 0 Iframe (Some "#container") None
           (instance_in started_runner 0) started_runner).
  - reflexivity.
  - reflexivity.
  - right. split; reflexivity.
Defined.

(** The gated component opens the lightbox it does not allow. *)
Lemma render_default_unchecked_witness :
  render overlayOf noHook 0 None None started_gated
  = (rendered overlayOf noHook 0 Lightbox None (instance_in started_gated 0)
       started_gated, Ok tt).
Proof.
  apply (proj1 (@render_opens_default_unchecked overlayOf noHook 0 Lightbox None
                  (instance_in started_gated 0) started_gated
                  eq_refl eq_refl eq_refl eq_refl ltac:(discriminate) eq_refl)).
Defined.

(** The runner hijacks a form: the form targets the child window and the
    lightbox is opened. *)
Lemma renderHijack_witness :
  renderHijack overlayOf childName 0 "pay-form" None
    {| p_world := started_runner; p_targets := [] |}
  = ({| p_world := hijacked overlayOf 0 Lightbox (instance_in started_runner 0)
                     started_runner;
        p_targets := [("pay-form", "xcomponent-child")] |}, Ok tt).
Proof.
  apply (proj1 (proj2 (@renderHijack_opens_without_loading overlayOf childName 0
                         "pay-form" None (instance_in started_runner 0)
                         {| p_world := started_runner; p_targets := [] |} eq_refl))).
  - reflexivity.
  - reflexivity.
Defined.


(** An update of the amount binds the close callback of the checkout, the
    no-op its prop defaults to, to the instance. *)
Lemma update_wraps_witness :
  exists result,
    normalizeProps nativeSource returnsUndefined checkout 0
      (Some (extend (extend [] (i_props (instance_in rendered_checkout 0)))
               [("amount", VNum (Num 5))])) = Ok result
    /\ obj_get result "onClose" = Some (VFun (FBound FNoop 0)).
Proof.
  destruct (normalizeProps nativeSource returnsUndefined checkout 0
              (Some (extend (extend [] (i_props (instance_in rendered_checkout 0)))
                       [("amount", VNum (Num 5))]))) as [result|e] eqn:Hn;
    [|vm_compute in Hn; discriminate].
  exists result. split; [reflexivity|].
  apply (@update_wraps_callbacks_again nativeSource returnsUndefined checkout 0
           (i_props (instance_in rendered_checkout 0)) [("amount", VNum (Num 5))]
           result "onClose" callbackProp FNoop).
  - vm_compute. repeat constructor; cbn [In]; intuition discriminate.
  - reflexivity.
  - reflexivity.
  - reflexivity.
  - reflexivity.
  - exact Hn.
Defined.

(** The checkout destroyed and rendered again has a window and no entry in
    the active list. *)
Lemma render_after_destroy_witness :
  exists w1 w2 inst2,
    destroy 0 rendered_checkout = (w1, Ok tt)
    /\ render overlayOf noHook 0 None None w1 = (w2, Ok tt)
    /\ lookup 0 (heap w2) = Some inst2
    /\ i_window inst2 = Some (counter rendered_checkout)
    /\ i_component inst2 = i_component (instance_in rendered_checkout 0)
    /\ ~ In 0 (activeComponents w2).
Proof.
  apply (@render_after_destroy_is_unlisted overlayOf noHook rendered_checkout 0
           (instance_in rendered_checkout 0) Lightbox None None).
  - reflexivity.
  - reflexivity.
  - right. split; reflexivity.
Defined.
